(** * Options normalisation of react-native-navigation

    A shallow embedding of [lib/src/commands/OptionsProcessor.ts]: the
    recursive walker [processObject] and the field transforms it applies,
    over an explicit JavaScript heap (objects are shared and mutated in
    place, so aliasing between the live tree and the cloned parent
    snapshot is part of the model).

    Conventions of the model:
    - a JavaScript value is a primitive or a reference into the heap;
      numbers are integers (the code does no arithmetic on option
      values, it only tests them for zero), strings are sequences of
      8-bit code units;
    - an object is either a plain object (ordered own properties) or a
      dense array with optional extra named properties; prototype
      properties, getters, holes and frozen objects are outside the model;
    - the class body is strict-mode code: assigning a property on a
      primitive raises a TypeError, as does any property access on
      [null] or [undefined];
    - the lodash helpers ([clone], [forEach], [has], [endsWith], ...) are
      modelled after lodash 4.17;
    - the collaborators that return values (processor registry, colour
      and asset services, id provider) are arbitrary state transformers;
      the void collaborators (deprecation notifier, props store) are
      recorded in a trace of events and do not throw. *)

From Stdlib Require Import ZArith Lia Ascii String.
From stdpp Require Import gmap strings list fin_maps pretty.

Open Scope string_scope.
Open Scope list_scope.

(** ** Values, objects, heap *)

Definition loc := positive.

Inductive value :=
| VUndefined
| VNull
| VBool (b : bool)
| VNum (z : Z)
| VStr (s : string)
| VRef (l : loc).

#[global] Instance value_eq_dec : EqDecision value.
Proof. solve_decision. Defined.

(** [o_elems = Some es] for an array with elements [es]; [o_props] are the
    own enumerable named properties in enumeration order. *)
Record object := Obj {
  o_elems : option (list value);
  o_props : list (string * value)
}.

#[global] Instance object_eq_dec : EqDecision object.
Proof. solve_decision. Defined.

Abbreviation Heap := (gmap loc object).

(** The key handed to a [forEach] iteratee: a property name, or a number
    when the collection is an array or array-like. *)
Inductive key :=
| KStr (s : string)
| KIdx (n : N).

#[global] Instance key_eq_dec : EqDecision key.
Proof. solve_decision. Defined.

Definition CommandName := string.

(** Calls to the void collaborators.  A deprecation call records the heap
    at the time of the call: that is what the notifier can observe through
    the parent object it is handed. *)
Inductive event :=
| EvOnProcessOptions (k : key) (parentOptions : value) (commandName : CommandName) (h : Heap)
| EvCheckForDeprecatedOptions (parentOptions : value) (h : Heap)
| EvOnProcessDefaultOptions (k : key) (parentOptions : value) (h : Heap)
| EvUpdateProps (id : value) (props : value)
| EvEnsureClassForName (name : value).

Record State := mkState {
  heap : Heap;
  trace : list event
}.

Inductive error :=
| TypeError
| RangeError
| DanglingReference
| CollaboratorError (msg : string)
| OutOfFuel.

Inductive outcome (A : Type) :=
| Ok (a : A) (s : State)
| Throw (e : error) (s : State).
Arguments Ok {A} a s.
Arguments Throw {A} e s.

Definition M (A : Type) : Type := State -> outcome A.

#[global] Instance M_ret : MRet M := fun A a s => Ok a s.
#[global] Instance M_bind : MBind M := fun A B f m s =>
  match m s with
  | Ok a s' => f a s'
  | Throw e s' => Throw e s'
  end.

Definition throw {A} (e : error) : M A := fun s => Throw e s.

Definition final_state {A} (r : outcome A) : State :=
  match r with Ok _ s => s | Throw _ s => s end.

Fixpoint forM_ {A} (l : list A) (f : A -> M unit) : M unit :=
  match l with
  | [] => mret tt
  | a :: l' => f a ;; forM_ l' f
  end.

(** ** JavaScript primitives *)

(** [!value] is [negb (truthy value)]. *)
Definition truthy (v : value) : bool :=
  match v with
  | VUndefined | VNull => false
  | VBool b => b
  | VNum z => negb (z =? 0)%Z
  | VStr s => negb (String.eqb s "")
  | VRef _ => true
  end.

Definition nullish (v : value) : bool :=
  match v with VUndefined | VNull => true | _ => false end.

(** [a ?? b] *)
Definition coalesce (a b : value) : value := if nullish a then b else a.

Definition digit_of (a : ascii) : option N :=
  let n := N_of_ascii a in
  if ((48 <=? n) && (n <=? 57))%N then Some (n - 48)%N else None.

Fixpoint parse_digits (acc : N) (s : string) : option N :=
  match s with
  | EmptyString => Some acc
  | String a s' =>
      match digit_of a with
      | Some d => parse_digits (10 * acc + d)%N s'
      | None => None
      end
  end.

(** A property name is an array index when it is the canonical decimal
    form of an integer below 2^32 - 1. *)
Definition array_index (s : string) : option N :=
  match s with
  | EmptyString => None
  | _ =>
      match parse_digits 0 s with
      | Some n => if (String.eqb (pretty n) s && (n <? 4294967295)%N)%bool then Some n else None
      | None => None
      end
  end.

Definition key_to_string (k : key) : string :=
  match k with KStr s => s | KIdx n => pretty n end.

Definition key_to_value (k : key) : value :=
  match k with KStr s => VStr s | KIdx n => VNum (Z.of_N n) end.

(** [String(v)] for the values a path can take. *)
Definition to_string (v : value) : string :=
  match v with
  | VUndefined => "undefined"
  | VNull => "null"
  | VBool true => "true"
  | VBool false => "false"
  | VNum z => pretty z
  | VStr s => s
  | VRef _ => "[object Object]"
  end.

(** *** Own properties *)

Definition props_get (k : string) (ps : list (string * value)) : option value :=
  snd <$> List.find (fun p => String.eqb (fst p) k) ps.

Fixpoint props_replace (k : string) (v : value) (ps : list (string * value)) : list (string * value) :=
  match ps with
  | [] => []
  | (k', v') :: r => if String.eqb k' k then (k', v) :: r else (k', v') :: props_replace k v r
  end.

(** Integer-indexed names enumerate first, in ascending order. *)
Fixpoint props_insert_index (n : N) (k : string) (v : value) (ps : list (string * value)) : list (string * value) :=
  match ps with
  | [] => [(k, v)]
  | (k', v') :: r =>
      match array_index k' with
      | Some m => if (m <? n)%N then (k', v') :: props_insert_index n k v r else (k, v) :: ps
      | None => (k, v) :: ps
      end
  end.

Definition props_set (k : string) (v : value) (ps : list (string * value)) : list (string * value) :=
  match props_get k ps with
  | Some _ => props_replace k v ps
  | None =>
      match array_index k with
      | Some n => props_insert_index n k v ps
      | None => ps ++ [(k, v)]
      end
  end.

Definition string_chars (s : string) : list value :=
  (fun a => VStr (String a EmptyString)) <$> list_ascii_of_string s.

(** [hasOwnProperty] and the value of an own property. *)
Definition own_get (o : object) (k : string) : option value :=
  match o_elems o with
  | Some es =>
      if String.eqb k "length" then Some (VNum (Z.of_nat (length es)))
      else match array_index k with
           | Some n => es !! N.to_nat n
           | None => props_get k (o_props o)
           end
  | None => props_get k (o_props o)
  end.

Definition str_own_get (s : string) (k : string) : option value :=
  if String.eqb k "length" then Some (VNum (Z.of_nat (String.length s)))
  else match array_index k with
       | Some n => string_chars s !! N.to_nat n
       | None => None
       end.

(** Own enumerable properties, in enumeration order. *)
Definition own_entries (o : object) : list (string * value) :=
  match o_elems o with
  | Some es => imap (fun i v => (pretty (N.of_nat i), v)) es ++ o_props o
  | None => o_props o
  end.

Definition resize (n : nat) (es : list value) : list value :=
  take n es ++ replicate (n - length es) VUndefined.

(** [o[k] = v] on an object; [None] is a RangeError (invalid array length). *)
Definition own_set (o : object) (k : string) (v : value) : option object :=
  match o_elems o with
  | Some es =>
      if String.eqb k "length" then
        match v with
        | VNum z =>
            if ((0 <=? z) && (z <? 4294967296))%Z
            then Some (Obj (Some (resize (Z.to_nat z) es)) (o_props o))
            else None
        | _ => None
        end
      else match array_index k with
           | Some n =>
               Some (Obj (Some (<[N.to_nat n := v]> (resize (Nat.max (length es) (S (N.to_nat n))) es))) (o_props o))
           | None => Some (Obj (Some es) (props_set k v (o_props o)))
           end
  | None => Some (Obj None (props_set k v (o_props o)))
  end.

(** *** Heap access *)

Definition read (l : loc) : M object := fun s =>
  match heap s !! l with
  | Some o => Ok o s
  | None => Throw DanglingReference s
  end.

Definition write (l : loc) (o : object) : M unit := fun s =>
  Ok tt (mkState (<[l := o]> (heap s)) (trace s)).

(** An object literal: a new object at a fresh location. *)
Definition alloc (o : object) : M value := fun s =>
  let l := fresh (dom (heap s)) in
  Ok (VRef l) (mkState (<[l := o]> (heap s)) (trace s)).

Definition emit (e : Heap -> event) : M unit := fun s =>
  Ok tt (mkState (heap s) (trace s ++ [e (heap s)])).

Definition get_heap : M Heap := fun s => Ok (heap s) s.

(** [v.k] and [v[k]] *)
Definition getProp (v : value) (k : string) : M value :=
  match v with
  | VUndefined | VNull => throw TypeError
  | VBool _ | VNum _ => mret VUndefined
  | VStr s => mret (default VUndefined (str_own_get s k))
  | VRef l => o ← read l; mret (default VUndefined (own_get o k))
  end.

(** [v.k = x] and [v[k] = x], strict mode *)
Definition setProp (v : value) (k : string) (x : value) : M unit :=
  match v with
  | VRef l =>
      o ← read l;
      match own_set o k x with
      | Some o' => write l o'
      | None => throw RangeError
      end
  | _ => throw TypeError
  end.

(** [v != null && hasOwnProperty.call(v, k)] *)
Definition hasOwn (v : value) (k : string) : M bool :=
  match v with
  | VUndefined | VNull | VBool _ | VNum _ => mret false
  | VStr s => mret (bool_decide (is_Some (str_own_get s k)))
  | VRef l => o ← read l; mret (bool_decide (is_Some (own_get o k)))
  end.

(** The own enumerable properties copied by an object spread [{...v}]. *)
Definition spread_entries (v : value) : M (list (string * value)) :=
  match v with
  | VUndefined | VNull | VBool _ | VNum _ => mret []
  | VStr s => mret (imap (fun i c => (pretty (N.of_nat i), c)) (string_chars s))
  | VRef l => o ← read l; mret (own_entries o)
  end.

(** Properties defined in order on an object under construction. *)
Definition props_assign (ps : list (string * value)) (entries : list (string * value)) : list (string * value) :=
  foldl (fun acc e => props_set (fst e) (snd e) acc) ps entries.

(** ** lodash helpers *)

Definition isObject (v : value) : bool :=
  match v with VRef _ => true | _ => false end.

Definition isArray (h : Heap) (v : value) : bool :=
  match v with
  | VRef l => match h !! l with
              | Some o => bool_decide (is_Some (o_elems o))
              | None => false
              end
  | _ => false
  end.

Definition isString (v : value) : bool :=
  match v with VStr _ => true | _ => false end.

(** [isEqual(key, name)] for a string literal [name]; this is also
    [key === name]. *)
Definition isEqual (k : key) (name : string) : bool :=
  match k with
  | KStr s => String.eqb s name
  | KIdx _ => false
  end.

(** [endsWith(string, target)]: the slice of [target]'s length that ends
    the string equals [target]. *)
Definition endsWith (k : key) (target : string) : bool :=
  let s := key_to_string k in
  let position := (String.length s - String.length target)%nat in
  (String.length target <=? String.length s)%nat &&
  String.eqb (substring position (String.length target) s) target.

(** [isLength]: a non-negative integer up to [Number.MAX_SAFE_INTEGER]. *)
Definition isLength (v : value) : option N :=
  match v with
  | VNum z => if ((0 <=? z) && (z <=? 9007199254740991))%Z then Some (Z.to_N z) else None
  | _ => None
  end.

Definition index_keys (n : N) : list key :=
  (fun i => KIdx (N.of_nat i)) <$> seq 0 (N.to_nat n).

(** The keys [forEach] will visit, fixed when the iteration starts:
    indices for arrays and array-likes (anything with a valid [length]),
    own enumerable names otherwise. *)
Definition collection_keys (collection : value) : M (list key) :=
  match collection with
  | VUndefined | VNull | VBool _ | VNum _ => mret []
  | VStr s => mret (index_keys (N.of_nat (String.length s)))
  | VRef l =>
      o ← read l;
      match o_elems o with
      | Some es => mret (index_keys (N.of_nat (length es)))
      | None =>
          match props_get "length" (o_props o) ≫= isLength with
          | Some n => mret (index_keys n)
          | None => mret ((fun p => KStr (fst p)) <$> o_props o)
          end
      end
  end.

(** [forEach(collection, iteratee)]: each value is read when its key is
    reached.  No iteratee of this program returns [false], so the loop
    never exits early. *)
Definition forEach (collection : value) (iteratee : value -> key -> M unit) : M unit :=
  ks ← collection_keys collection;
  forM_ ks (fun k => v ← getProp collection (key_to_string k); iteratee v k).

(** [clone(value)]: a shallow copy; the copy shares every nested object
    with the original.  For an array the extra properties are dropped,
    except [index] and [input] of a [RegExp#exec] result. *)
Definition clone (v : value) : M value :=
  match v with
  | VRef l =>
      o ← read l;
      match o_elems o with
      | Some es =>
          let extra :=
            match es, props_get "index" (o_props o) with
            | VStr _ :: _, Some i =>
                [("index", i); ("input", default VUndefined (props_get "input" (o_props o)))]
            | _, _ => []
            end in
          alloc (Obj (Some es) extra)
      | None => alloc (Obj None (o_props o))
      end
  | _ => mret v
  end.

(** [hasPath] over path segments that are not array indices. *)
Fixpoint hasPath (object : value) (path : list string) : M bool :=
  match path with
  | [] => mret false
  | [k] => hasOwn object k
  | k :: rest =>
      b ← hasOwn object k;
      if (b : bool) then object' ← getProp object k; hasPath object' rest
      else mret false
  end.

(** [has(object, path)] for a dotted path with the given segments: the
    whole path is taken as one property name when the object has it. *)
Definition has (object : value) (path : string) (segments : list string) : M bool :=
  literal ← hasOwn object path;
  if (literal : bool) then hasPath object [path] else hasPath object segments.

(** ** Collaborators *)

Definition Processor := value -> CommandName -> M value.

(** The collaborators whose results the processor consumes:
    [optionProcessorsRegistry.getProcessors], [colorService.toNativeColor],
    [assetService.resolveFromRequire] and [uniqueIdProvider.generate]. *)
Record Collaborators := {
  getProcessors : value -> option (list Processor);
  toNativeColor : value -> M value;
  resolveFromRequire : value -> M value;
  generate : string -> M value
}.

(** [store.updateProps], [store.ensureClassForName] and the three hooks of
    [deprecations] return nothing: each call is recorded. *)
Definition store_updateProps (id props : value) : M unit :=
  emit (fun _ => EvUpdateProps id props).

Definition store_ensureClassForName (name : value) : M unit :=
  emit (fun _ => EvEnsureClassForName name).

Definition deprecations_onProcessOptions (k : key) (parentOptions : value) (commandName : CommandName) : M unit :=
  emit (EvOnProcessOptions k parentOptions commandName).

Definition deprecations_checkForDeprecatedOptions (parentOptions : value) : M unit :=
  emit (EvCheckForDeprecatedOptions parentOptions).

Definition deprecations_onProcessDefaultOptions (k : key) (parentOptions : value) : M unit :=
  emit (EvOnProcessDefaultOptions k parentOptions).

(** ** OptionsProcessor *)

Section OptionsProcessor.

Context (C : Collaborators).

Definition resolveObjectPath (k : key) (path : value) : value :=
  if negb (truthy path) then key_to_value k
  else VStr (to_string path ++ "." ++ key_to_string k)%string.

Definition processColor (k : key) (val : value) (options : value) : M unit :=
  if isEqual k "color" || endsWith k "Color" then
    r ← (match val with
         | VNull => mret (VStr "NoColor")
         | _ => toNativeColor C val
         end);
    setProp options (key_to_string k) r
  else mret tt.

Definition processWithRegisteredProcessor (k : key) (val : value) (options : value) (path : value) (commandName : CommandName) : M unit :=
  match getProcessors C path with
  | Some registeredProcessors =>
      forM_ registeredProcessors (fun processor =>
        r ← processor val commandName;
        setProp options (key_to_string k) r)
  | None => mret tt
  end.

Definition processImage (k : key) (val : value) (options : value) : M unit :=
  if isEqual k "icon" || isEqual k "image" || endsWith k "Icon" || endsWith k "Image" then
    r ← (if isString val then mret val else resolveFromRequire C val);
    setProp options (key_to_string k) r
  else mret tt.

Definition processButtonsPassProps (k : key) (val : value) : M unit :=
  if endsWith k "Buttons" then
    forEach val (fun button _ =>
      passProps ← getProp button "passProps";
      if truthy passProps then
        id ← getProp button "id";
        if truthy id then
          id' ← getProp button "id";
          passProps' ← getProp button "passProps";
          store_updateProps id' passProps' ;;
          setProp button "passProps" VUndefined
        else mret tt
      else mret tt)
  else mret tt.

Definition processComponent (k : key) (val : value) (options : value) : M unit :=
  if isEqual k "component" then
    id ← getProp val "id";
    componentId ← (if truthy id then getProp val "id" else generate C "CustomComponent");
    setProp val "componentId" componentId ;;
    name ← getProp val "name";
    store_ensureClassForName name ;;
    passProps ← getProp val "passProps";
    (if truthy passProps then
       componentId' ← getProp val "componentId";
       passProps' ← getProp val "passProps";
       store_updateProps componentId' passProps'
     else mret tt) ;;
    slot ← getProp options (key_to_string k);
    setProp slot "passProps" VUndefined
  else mret tt.

(** The properties of [deprecatedSearchBarOptions], in literal order. *)
Definition deprecatedSearchBarOptions (hiddenWhenScrolling hideNavBarOnFocus backgroundColor tintColor placeholder : value) : list (string * value) :=
  [ ("visible", VBool false);
    ("hideOnScroll", coalesce hiddenWhenScrolling (VBool false));
    ("hideTopBarOnFocus", coalesce hideNavBarOnFocus (VBool false));
    ("obscuresBackgroundDuringPresentation", VBool false);
    ("backgroundColor", backgroundColor);
    ("tintColor", tintColor);
    ("placeholder", coalesce placeholder (VStr "")) ].

Definition processSearchBar (k : key) (val : value) (options : value) : M unit :=
  if negb (isEqual k "searchBar") then mret tt
  else
    hiddenWhenScrolling ← getProp options "searchBarHiddenWhenScrolling";
    hideNavBarOnFocus ← getProp options "hideNavBarOnFocusSearchBar";
    backgroundColor ← getProp options "searchBarBackgroundColor";
    tintColor ← getProp options "searchBarTintColor";
    placeholder ← getProp options "searchBarPlaceholder";
    let defaults := deprecatedSearchBarOptions hiddenWhenScrolling hideNavBarOnFocus backgroundColor tintColor placeholder in
    alloc (Obj None defaults) ;;
    match val with
    | VBool _ =>
        deprecations_onProcessOptions k options "" ;;
        r ← alloc (Obj None (props_assign defaults [("visible", val)]));
        setProp options (key_to_string k) r
    | _ =>
        entries ← spread_entries val;
        r ← alloc (Obj None (props_assign defaults entries));
        setProp options (key_to_string k) r
    end.

Definition processInterpolation (k : key) (val : value) (options : value) : M unit :=
  if isEqual k "interpolation" then
    if isString val then
      deprecations_onProcessOptions k options "" ;;
      current ← getProp options (key_to_string k);
      r ← alloc (Obj None [("type", current)]);
      setProp options (key_to_string k) r
    else mret tt
  else mret tt.

(** [!has(animation, 'content.enter') && !has(animation, 'content.exit')] *)
Definition isLegacyAnimation (animation : value) : M bool :=
  hasEnter ← has animation "content.enter" ["content"; "enter"];
  if (hasEnter : bool) then mret false
  else
    hasExit ← has animation "content.exit" ["content"; "exit"];
    mret (negb hasExit).

Definition processSetStackRoot (k : key) (animation : value) (parentOptions : value) : M unit :=
  if negb (isEqual k "setStackRoot") then mret tt
  else
    legacy ← isLegacyAnimation animation;
    if (legacy : bool) then
      content ← alloc (Obj None [("enter", animation)]);
      r ← alloc (Obj None [("content", content)]);
      setProp parentOptions (key_to_string k) r
    else mret tt.

Definition processPop (k : key) (animation : value) (parentOptions : value) : M unit :=
  if negb (isEqual k "pop") then mret tt
  else
    legacy ← isLegacyAnimation animation;
    if (legacy : bool) then
      pop ← getProp parentOptions "pop";
      content ← getProp animation "content";
      r ← alloc (Obj None [("exit", content)]);
      setProp pop "content" r
    else mret tt.

Definition processPush (k : key) (animation : value) (parentOptions : value) : M unit :=
  if negb (isEqual k "push") then mret tt
  else
    legacy ← isLegacyAnimation animation;
    if (legacy : bool) then
      push ← getProp parentOptions "push";
      content ← getProp animation "content";
      r ← alloc (Obj None [("enter", content)]);
      setProp push "content" r
    else mret tt.

Definition processAnimation (k : key) (val : value) (options : value) : M unit :=
  processPush k val options ;;
  processPop k val options ;;
  processSetStackRoot k val options.

(** The body of the [forEach] callback of [processObject]; [recurse] is
    the nested call [this.processObject(processedValue, parentOptions,
    onProcess, commandName, objectPath)]. *)
Definition processEntry (recurse : value -> value -> M unit)
    (objectToProcess parentOptions : value) (onProcess : key -> value -> M unit)
    (commandName : CommandName) (parentPath : value) (val : value) (k : key) : M unit :=
  let objectPath := resolveObjectPath k parentPath in
  processWithRegisteredProcessor k val objectToProcess objectPath commandName ;;
  processColor k val objectToProcess ;;
  if negb (truthy val) then mret tt
  else
    processComponent k val objectToProcess ;;
    processImage k val objectToProcess ;;
    processButtonsPassProps k val ;;
    processSearchBar k val objectToProcess ;;
    processInterpolation k val objectToProcess ;;
    processAnimation k val objectToProcess ;;
    onProcess k parentOptions ;;
    processedValue ← getProp objectToProcess (key_to_string k);
    h ← get_heap;
    if negb (isEqual k "passProps") && (isObject processedValue || isArray h processedValue)
    then recurse processedValue objectPath
    else mret tt.

(** [fuel] bounds the nesting depth of the recursion: a heap may hold a
    cyclic object, on which the source does not terminate. *)
Fixpoint processObject (fuel : nat) (objectToProcess parentOptions : value)
    (onProcess : key -> value -> M unit) (commandName : CommandName)
    (parentPath : value) : M unit :=
  match fuel with
  | O => throw OutOfFuel
  | S fuel' =>
      forEach objectToProcess
        (processEntry
           (fun processedValue objectPath =>
              processObject fuel' processedValue parentOptions onProcess commandName objectPath)
           objectToProcess parentOptions onProcess commandName parentPath)
  end.

Definition onProcess_options (commandName : CommandName) (k : key) (parentOptions : value) : M unit :=
  deprecations_onProcessOptions k parentOptions commandName ;;
  deprecations_checkForDeprecatedOptions parentOptions.

Definition onProcess_defaultOptions (k : key) (parentOptions : value) : M unit :=
  deprecations_onProcessDefaultOptions k parentOptions.

Definition processOptions (fuel : nat) (options : value) (commandName : CommandName) : M unit :=
  snapshot ← clone options;
  processObject fuel options snapshot (onProcess_options commandName) commandName VUndefined.

Definition processDefaultOptions (fuel : nat) (options : value) (commandName : CommandName) : M unit :=
  snapshot ← clone options;
  processObject fuel options snapshot onProcess_defaultOptions commandName VUndefined.

End OptionsProcessor.

(** ** Concrete collaborators and configurations *)

(** A processor that does not touch the state. *)
Definition pure_processor (f : value -> CommandName -> value) : Processor :=
  fun val commandName => mret (f val commandName).

(** A colour service in the manner of React Native's [processColor]:
    a colour name resolves to a native handle, anything else to itself. *)
Definition nativeColor (v : value) : value :=
  match v with
  | VStr s => VStr ("native:" ++ s)%string
  | _ => v
  end.

(** Two processors: one ignores its input, one marks it. *)
Definition constantly (r : value) : value -> CommandName -> value :=
  fun _ _ => r.

Definition exclaim : value -> CommandName -> value :=
  fun v _ =>
    match v with
    | VStr s => VStr (s ++ "!")%string
    | _ => v
    end.

(** No registered processors. *)
Definition plainCollaborators : Collaborators := {|
  getProcessors := fun _ => None;
  toNativeColor := fun v => mret (nativeColor v);
  resolveFromRequire := fun _ => mret (VStr "asset://resolved");
  generate := fun prefix => mret (VStr (prefix ++ "1")%string)
|}.

(** [plainCollaborators] with the processors [ps] registered for [path]. *)
Definition withProcessors (path : string) (ps : list Processor) : Collaborators := {|
  getProcessors := fun p => if decide (p = VStr path) then Some ps else None;
  toNativeColor := toNativeColor plainCollaborators;
  resolveFromRequire := resolveFromRequire plainCollaborators;
  generate := generate plainCollaborators
|}.

Definition plain (ps : list (string * value)) : object := Obj None ps.

Definition state_of (objects : list (loc * object)) : State :=
  mkState (list_to_map objects) [].

(** The value found by following property names from [v] in heap [h]:
    what an observer handed [v] can read. *)
Fixpoint lookup_path (h : Heap) (v : value) (path : list string) : option value :=
  match path with
  | [] => Some v
  | k :: rest =>
      match v with
      | VRef l =>
          match h !! l with
          | Some o => lookup_path h (default VUndefined (own_get o k)) rest
          | None => None
          end
      | _ => None
      end
  end.

(** Value of the slot [k] of the object at [l]. *)
Definition slot (s : State) (l : loc) (k : string) : option value :=
  match heap s !! l with
  | Some o => Some (default VUndefined (own_get o k))
  | None => None
  end.

(** [{ a: "x" }] *)
Definition state_a : State :=
  state_of [(1%positive, plain [("a", VStr "x")])].

(** [{ color: undefined }] *)
Definition state_color_undefined : State :=
  state_of [(1%positive, plain [("color", VUndefined)])].

(** [{ color: "red" }] *)
Definition state_color_red : State :=
  state_of [(1%positive, plain [("color", VStr "red")])].

(** [{ push: { alpha: 1 } }] *)
Definition state_push : State :=
  state_of [(1%positive, plain [("push", VRef 2%positive)]);
            (2%positive, plain [("alpha", VNum 1)])].

(** [{ push: { content: { enter: { alpha: 1 } } } }] *)
Definition state_push_canonical : State :=
  state_of [(1%positive, plain [("push", VRef 2%positive)]);
            (2%positive, plain [("content", VRef 3%positive)]);
            (3%positive, plain [("enter", VRef 4%positive)]);
            (4%positive, plain [("alpha", VNum 1)])].

(** [{ pop: { alpha: 1 } }] *)
Definition state_pop : State :=
  state_of [(1%positive, plain [("pop", VRef 2%positive)]);
            (2%positive, plain [("alpha", VNum 1)])].

(** [{ topBar: { searchBar: true, searchBarPlaceholder: "Find" } }] *)
Definition state_searchBar : State :=
  state_of [(1%positive, plain [("topBar", VRef 2%positive)]);
            (2%positive, plain [("searchBar", VBool true); ("searchBarPlaceholder", VStr "Find")])].

(** [{ interpolation: "easeIn" }] *)
Definition state_interpolation : State :=
  state_of [(1%positive, plain [("interpolation", VStr "easeIn")])].

(** [{ passProps: { color: null }, title: "t" }] *)
Definition state_passProps : State :=
  state_of [(1%positive, plain [("passProps", VRef 2%positive); ("title", VStr "t")]);
            (2%positive, plain [("color", VNull)])].

(** [{ searchBar: { 0: "z", visible: true, placeholder: "Search", cancelText: "Cancel" },
       searchBarPlaceholder: "Find" }] *)
Definition state_searchBar_object : State :=
  state_of [(1%positive, plain [("searchBar", VRef 2%positive); ("searchBarPlaceholder", VStr "Find")]);
            (2%positive, plain [("0", VStr "z"); ("visible", VBool true);
                                ("placeholder", VStr "Search"); ("cancelText", VStr "Cancel")])].

(** The state after one application of the search-bar transform. *)
Definition state_searchBar_canonical : State :=
  final_state (processSearchBar (KStr "searchBar") (VRef 2%positive) (VRef 1%positive)
                 state_searchBar_object).

(** [{ color: "red", nested: { titleColor: null } }] *)
Definition state_nested_color : State :=
  state_of [(1%positive, plain [("color", VStr "red"); ("nested", VRef 2%positive)]);
            (2%positive, plain [("titleColor", VNull)])].

(** [{ setStackRoot: { alpha: 1 } }] *)
Definition state_setStackRoot : State :=
  state_of [(1%positive, plain [("setStackRoot", VRef 2%positive)]);
            (2%positive, plain [("alpha", VNum 1)])].

(** [{ component: { name: "Title", passProps: { n: 1 } } }] *)
Definition state_component : State :=
  state_of [(1%positive, plain [("component", VRef 2%positive)]);
            (2%positive, plain [("name", VStr "Title"); ("passProps", VRef 3%positive)]);
            (3%positive, plain [("n", VNum 1)])].

(** ** The shape of a canonical search-bar object *)

Definition searchBar_keys : list string :=
  ["visible"; "hideOnScroll"; "hideTopBarOnFocus"; "obscuresBackgroundDuringPresentation";
   "backgroundColor"; "tintColor"; "placeholder"].

Definition lt_bound (lb : option N) (n : N) : Prop :=
  match lb with Some b => (b < n)%N | None => True end.

(** Index names in strictly ascending order, all above the bound. *)
Fixpoint idx_sorted (lb : option N) (ks : list string) : Prop :=
  match ks with
  | [] => True
  | k :: r => exists n, array_index k = Some n /\ lt_bound lb n /\ idx_sorted (Some n) r
  end.

(** The shape of the property list of a search-bar object built by the
    transform: index names first, ascending, then the seven fields of
    the defaults in literal order, then any other names, all distinct. *)
Definition searchBar_shape (ps : list (string * value)) : Prop :=
  exists KI KR,
    fst <$> ps = KI ++ searchBar_keys ++ KR
    /\ idx_sorted None KI
    /\ Forall (fun k => array_index k = None) KR
    /\ NoDup (searchBar_keys ++ KR).

(** ** The parent snapshot: invariant *)

(** The values an object holds in its elements and properties. *)
Definition object_values (o : object) : list value :=
  default [] (o_elems o) ++ (snd <$> o_props o).

(** The parent object and the heap a deprecation hook was called with. *)
Definition event_parent_heap (e : event) : option (value * Heap) :=
  match e with
  | EvOnProcessOptions _ p _ h => Some (p, h)
  | EvCheckForDeprecatedOptions p h => Some (p, h)
  | EvOnProcessDefaultOptions _ p h => Some (p, h)
  | EvUpdateProps _ _ => None
  | EvEnsureClassForName _ => None
  end.

(** Every reference stored in the heap or handed to a hook points to an
    allocated object. *)
Definition state_closed (s : State) : Prop :=
  (forall l o l', heap s !! l = Some o -> VRef l' ∈ object_values o -> is_Some (heap s !! l'))
  /\ (forall e l' h, e ∈ trace s -> event_parent_heap e = Some (VRef l', h) -> is_Some (heap s !! l')).

(** The snapshot object at [snap] is [osnap], no object refers to it, and
    every hook that was handed it saw [osnap] there. *)
Definition snapshot_inv (snap : loc) (osnap : object) (s : State) : Prop :=
  heap s !! snap = Some osnap
  /\ (forall l o, heap s !! l = Some o -> VRef snap ∉ object_values o)
  /\ (forall e h, e ∈ trace s -> event_parent_heap e = Some (VRef snap, h) -> h !! snap = Some osnap).

(** [m] keeps the invariant [I], also when it throws, and its result
    satisfies [Q]. *)
Definition preserves {A} (I : State -> Prop) (Q : A -> Prop) (m : M A) : Prop :=
  forall s, I s ->
    match m s with
    | Ok a s' => I s' /\ Q a
    | Throw _ s' => I s'
    end.

(** The snapshot is private to the walk: a collaborator called with a
    value other than the snapshot neither modifies the snapshot object
    nor stores or returns a reference to it. *)
Definition respects (snap : loc) (osnap : object) (m : M value) : Prop :=
  preserves (snapshot_inv snap osnap) (fun v => v <> VRef snap) m.

Definition collaborators_respect (C : Collaborators) (snap : loc) (osnap : object) : Prop :=
  (forall path ps p v cmd, getProcessors C path = Some ps -> p ∈ ps -> v <> VRef snap ->
     respects snap osnap (p v cmd))
  /\ (forall v, v <> VRef snap -> respects snap osnap (toNativeColor C v))
  /\ (forall v, v <> VRef snap -> respects snap osnap (resolveFromRequire C v))
  /\ (forall prefix, respects snap osnap (generate C prefix)).

(** The walk of [{ topBar: { searchBar: true, searchBarPlaceholder: "Find" } }],
    and what the hook called for the key [searchBar] was handed. *)
Definition searchBar_walk_final : State :=
  final_state (processOptions plainCollaborators 3 (VRef 1%positive) "push" state_searchBar).

Definition searchBar_callback_heap : Heap :=
  match trace searchBar_walk_final !! 3%nat ≫= event_parent_heap with
  | Some (_, h) => h
  | None => ∅
  end.

(** ** The registry step as the specification words it

    "apply all registered processors in registration order, each producing
    a replacement value stored immediately back into the node under that
    key (subsequent processors see the prior processor's output)". *)
Definition processWithRegisteredProcessor_chained (C : Collaborators) (k : key) (options : value) (path : value) (commandName : CommandName) : M unit :=
  match getProcessors C path with
  | Some registeredProcessors =>
      forM_ registeredProcessors (fun processor =>
        current ← getProp options (key_to_string k);
        r ← processor current commandName;
        setProp options (key_to_string k) r)
  | None => mret tt
  end.

(** ** Paths of nested keys *)

(** The path [processObject] hands down along a chain of nested keys,
    from the root: each level applies [resolveObjectPath] to the path of
    its parent. *)
Definition path_of_keys (ks : list key) : value :=
  foldl (fun path k => resolveObjectPath k path) VUndefined ks.

(** [first.k1.k2...] *)
Definition dotted (first : string) (rest : list key) : string :=
  foldl (fun acc k => (acc ++ "." ++ key_to_string k)%string) first rest.

(** ** Buttons *)

(** Whether [processButtonsPassProps] forwards the props of a button: it
    has a truthy [passProps] and a truthy [id]. *)
Definition button_forwards (b : object) : bool :=
  truthy (default VUndefined (own_get b "passProps"))
  && truthy (default VUndefined (own_get b "id")).

(** The button afterwards, and what the store is told. *)
Definition button_cleared (b : object) : object :=
  if button_forwards b
  then Obj (o_elems b) (props_set "passProps" VUndefined (o_props b))
  else b.

Definition button_events (b : object) : list event :=
  if button_forwards b
  then [EvUpdateProps (default VUndefined (own_get b "id"))
                      (default VUndefined (own_get b "passProps"))]
  else [].

(** [{ rightButtons: [ { id: "b1", passProps: { n: 1 } },
                        { passProps: { n: 2 } },
                        { id: "b3" } ] }] *)
Definition state_buttons : State :=
  state_of [(1%positive, plain [("rightButtons", VRef 2%positive)]);
            (2%positive, Obj (Some [VRef 3%positive; VRef 4%positive; VRef 5%positive]) []);
            (3%positive, plain [("id", VStr "b1"); ("passProps", VRef 6%positive)]);
            (4%positive, plain [("passProps", VRef 7%positive)]);
            (5%positive, plain [("id", VStr "b3")]);
            (6%positive, plain [("n", VNum 1)]);
            (7%positive, plain [("n", VNum 2)])].

(** ** Options without special keys *)

(** A key that no transform of the walk acts on. *)
Definition inert_key (k : key) : bool :=
  negb (isEqual k "color" || endsWith k "Color")
  && negb (isEqual k "component")
  && negb (isEqual k "icon" || isEqual k "image" || endsWith k "Icon" || endsWith k "Image")
  && negb (endsWith k "Buttons")
  && negb (isEqual k "searchBar")
  && negb (isEqual k "interpolation")
  && negb (isEqual k "push")
  && negb (isEqual k "pop")
  && negb (isEqual k "setStackRoot").

Definition inert_object (o : object) : bool :=
  forallb (fun p => inert_key (KStr (fst p))) (o_props o).

(** Every property name of every object is inert. *)
Definition inert_heap (h : Heap) : Prop :=
  map_Forall (fun _ o => inert_object o = true) h.

(** The registry has no processor for any path. *)
Definition no_processors (C : Collaborators) : Prop :=
  forall path, getProcessors C path = None \/ getProcessors C path = Some [].

(** [m] leaves the heap [h0] as it is and fails only on a dangling
    reference or for lack of fuel. *)
Definition quiet {A} (h0 : Heap) (Q : A -> Prop) (m : M A) : Prop :=
  forall s, heap s = h0 ->
    match m s with
    | Ok a s' => heap s' = h0 /\ Q a
    | Throw e s' => heap s' = h0 /\ (e = DanglingReference \/ e = OutOfFuel)
    end.

(** [{ topBar: { title: { text: "Hi" }, visible: true }, tags: ["a", "b"], count: 0 }] *)
Definition state_inert : State :=
  state_of [(1%positive, plain [("topBar", VRef 2%positive); ("tags", VRef 4%positive);
                                ("count", VNum 0)]);
            (2%positive, plain [("title", VRef 3%positive); ("visible", VBool true)]);
            (3%positive, plain [("text", VStr "Hi")]);
            (4%positive, Obj (Some [VStr "a"; VStr "b"]) [])].

(** ** Calls of the store and calls of the hooks *)

(** A call of the store, as opposed to a call of a deprecation hook. *)
Definition is_store_event (e : event) : bool :=
  match e with
  | EvUpdateProps _ _ | EvEnsureClassForName _ => true
  | _ => false
  end.

Definition store_events (t : list event) : list event := List.filter is_store_event t.

(** Two states with the same heap and the same calls of the store: they
    differ at most in the recorded calls of the deprecation hooks. *)
Definition same_effect (s1 s2 : State) : Prop :=
  heap s1 = heap s2 /\ store_events (trace s1) = store_events (trace s2).

Definition same_outcome {A} (r1 r2 : outcome A) : Prop :=
  match r1, r2 with
  | Ok a s1, Ok b s2 => a = b /\ same_effect s1 s2
  | Throw e1 s1, Throw e2 s2 => e1 = e2 /\ same_effect s1 s2
  | _, _ => False
  end.

(** [m1] and [m2] do the same to the heap and to the store, and return
    the same, when started from states that differ only in hook calls. *)
Definition agree {A} (m1 m2 : M A) : Prop :=
  forall s1 s2, same_effect s1 s2 -> same_outcome (m1 s1) (m2 s2).

(** No collaborator looks at the calls the deprecation hooks received. *)
Definition collaborators_hook_blind (C : Collaborators) : Prop :=
  (forall path ps p v cmd, getProcessors C path = Some ps -> p ∈ ps -> agree (p v cmd) (p v cmd))
  /\ (forall v, agree (toNativeColor C v) (toNativeColor C v))
  /\ (forall v, agree (resolveFromRequire C v) (resolveFromRequire C v))
  /\ (forall prefix, agree (generate C prefix) (generate C prefix)).

(** ** Nesting depth *)

(** The objects reachable from [v] in [h] are allocated and nested at
    most [n] deep: there is no cycle among them. *)
Fixpoint nesting_within (h : Heap) (n : nat) (v : value) {struct n} : bool :=
  match v with
  | VRef l =>
      match n with
      | O => false
      | S n' =>
          match h !! l with
          | Some o => forallb (nesting_within h n') (object_values o)
          | None => false
          end
      end
  | _ => true
  end.

(** [m] returns, leaves the heap [h0] as it is and does not call the
    store. *)
Definition returns {A} (h0 : Heap) (Q : A -> Prop) (m : M A) : Prop :=
  forall s, heap s = h0 ->
    exists a s', m s = Ok a s' /\ heap s' = h0
                 /\ store_events (trace s') = store_events (trace s) /\ Q a.

(** ** Notifications of the deprecation hook *)

(** How many times [deprecations.onProcessOptions] was called for the
    key [k]. *)
Definition onProcessOptions_calls (k : key) (t : list event) : nat :=
  length (List.filter (fun e => match e with
                                | EvOnProcessOptions k' _ _ _ => bool_decide (k' = k)
                                | _ => false
                                end) t).

(** ** Calls made by the per-visit callback *)

(** A call made by the per-visit callback of [processOptions] or
    [processDefaultOptions]: [checkForDeprecatedOptions],
    [onProcessDefaultOptions], or [onProcessOptions] with a command name.
    (The transforms call [onProcessOptions] with the empty command
    name.) *)
Definition is_callback_event (e : event) : bool :=
  match e with
  | EvOnProcessOptions _ _ commandName _ => negb (String.eqb commandName "")
  | EvCheckForDeprecatedOptions _ _ => true
  | EvOnProcessDefaultOptions _ _ _ => true
  | EvUpdateProps _ _ => false
  | EvEnsureClassForName _ => false
  end.

Definition callback_events (t : list event) : list event := List.filter is_callback_event t.

(** The hook call [e] was handed [p] as its parent. *)
Definition handed (p : value) (e : event) : Prop :=
  exists h, event_parent_heap e = Some (p, h).

(** [m] makes no call of the per-visit kind, and erases none. *)
Definition hookless {A} (m : M A) : Prop :=
  forall s, callback_events (trace (final_state (m s))) = callback_events (trace s).

(** The collaborators do not call the deprecation hooks. *)
Definition collaborators_hookless (C : Collaborators) : Prop :=
  (forall path ps p v cmd, getProcessors C path = Some ps -> p ∈ ps -> hookless (p v cmd))
  /\ (forall v, hookless (toNativeColor C v))
  /\ (forall v, hookless (resolveFromRequire C v))
  /\ (forall prefix, hookless (generate C prefix)).

(** Whatever [m] does, also when it throws, the calls of the per-visit
    kind it leaves behind are the earlier ones followed by calls that
    satisfy [P]. *)
Definition appends {A} (P : event -> Prop) (m : M A) : Prop :=
  forall s, exists evs,
    callback_events (trace (final_state (m s))) = callback_events (trace s) ++ evs
    /\ Forall P evs.

(** ** Paths asked of the registry *)

(** The object at [l] is [{ k: { k1: { ... { kn: v } } } }], for
    [rest = [k1; ...; kn]], each object with this one property. *)
Fixpoint nested (h : Heap) (l : loc) (k : string) (rest : list string) (v : value) : Prop :=
  match rest with
  | [] => h !! l = Some (plain [(k, v)])
  | k' :: rest' => exists l', h !! l = Some (plain [(k, VRef l')]) /\ nested h l' k' rest' v
  end.

(** A property name that no transform acts on, into which the walk
    recurses, and which does not make its object array-like. *)
Definition plain_name (n : string) : bool :=
  inert_key (KStr n) && negb (String.eqb n "passProps") && negb (String.eqb n "length").

(** Both [processOptions] and [processDefaultOptions], run on the
    object at [lo], return and leave there the single-property chain
    [k], [rest] ending in the value [r]. *)
Definition walks_yield (C : Collaborators) (fuel : nat) (cmd : CommandName) (s : State)
    (lo : loc) (k : string) (rest : list string) (r : value) : Prop :=
  (exists s', processOptions C fuel (VRef lo) cmd s = Ok tt s'
              /\ nested (heap s') lo k rest r)
  /\ (exists s', processDefaultOptions C fuel (VRef lo) cmd s = Ok tt s'
                 /\ nested (heap s') lo k rest r).

(** [{ topBar: { title: { text: "Hi" } } }] *)
Definition state_nested_text : State :=
  state_of [(1%positive, plain [("topBar", VRef 2%positive)]);
            (2%positive, plain [("title", VRef 3%positive)]);
            (3%positive, plain [("text", VStr "Hi")])].

(** [{ "topBar.title": "Hi" }] *)
Definition state_dotted_name : State :=
  state_of [(1%positive, plain [("topBar.title", VStr "Hi")])].

(** [{ topBar: { title: "Hi" } }] *)
Definition state_nested_title : State :=
  state_of [(1%positive, plain [("topBar", VRef 2%positive)]);
            (2%positive, plain [("title", VStr "Hi")])].

(** [{ "": { title: "Hi" } }] *)
Definition state_empty_name : State :=
  state_of [(1%positive, plain [("", VRef 2%positive)]);
            (2%positive, plain [("title", VStr "Hi")])].

(** ** Basic facts about the monad and the heap *)

Lemma bind_ok {A B} (m : M A) (f : A -> M B) s a s' :
  m s = Ok a s' -> (m ≫= f) s = f a s'.
Proof. intros H. unfold mbind, M_bind. by rewrite H. Qed.

Lemma bind_throw {A B} (m : M A) (f : A -> M B) s e s' :
  m s = Throw e s' -> (m ≫= f) s = Throw e s'.
Proof. intros H. unfold mbind, M_bind. by rewrite H. Qed.

Lemma bind_ret_tt (m : M unit) s : (m ;; mret tt) s = m s.
Proof. unfold mbind, M_bind. destruct (m s) as [[] ?|]; reflexivity. Qed.

Lemma bind_assoc {A B D} (m : M A) (f : A -> M B) (g : B -> M D) s :
  ((m ≫= f) ≫= g) s = (m ≫= (fun a => f a ≫= g)) s.
Proof. unfold mbind, M_bind. destruct (m s); reflexivity. Qed.

Lemma forM__app {A} (l1 l2 : list A) (f : A -> M unit) s :
  forM_ (l1 ++ l2) f s = (forM_ l1 f ;; forM_ l2 f) s.
Proof.
  revert s. induction l1 as [|a l1 IH]; intros s; simpl.
  - reflexivity.
  - unfold mbind, M_bind. destruct (f a s) as [[] s1|]; [apply IH | reflexivity].
Qed.

(** ** Properties of objects and of the heap primitives *)

Arguments getProp : simpl never.
Arguments setProp : simpl never.
Arguments alloc : simpl never.
Arguments emit : simpl never.
Arguments read : simpl never.
Arguments hasOwn : simpl never.

Lemma props_get_replace_eq k v ps :
  is_Some (props_get k ps) -> props_get k (props_replace k v ps) = Some v.
Proof.
  unfold props_get. induction ps as [|[k' v'] ps IH]; simpl.
  - intros [? ?]; discriminate.
  - destruct (String.eqb k' k) eqn:E; simpl; rewrite E; [reflexivity | exact IH].
Qed.

Lemma props_get_app_None k ps qs :
  props_get k ps = None -> props_get k (ps ++ qs) = props_get k qs.
Proof.
  unfold props_get. induction ps as [|[k' v'] ps IH]; simpl; [reflexivity|].
  destruct (String.eqb k' k); [discriminate | exact IH].
Qed.

Lemma props_get_insert_index_eq n k v ps :
  props_get k ps = None -> props_get k (props_insert_index n k v ps) = Some v.
Proof.
  assert (Hhd : forall qs, props_get k ((k, v) :: qs) = Some v).
  { intros qs. unfold props_get. simpl. by rewrite String.eqb_refl. }
  induction ps as [|[k' v'] ps IH]; simpl; intros Hn; [apply Hhd|].
  destruct (array_index k') as [m|]; [|apply Hhd].
  destruct (m <? n)%N; [|apply Hhd].
  revert Hn. unfold props_get in *. simpl.
  destruct (String.eqb k' k); [discriminate | exact IH].
Qed.

Lemma props_get_set_eq k v ps : props_get k (props_set k v ps) = Some v.
Proof.
  unfold props_set. destruct (props_get k ps) eqn:E.
  - apply props_get_replace_eq. rewrite E. eauto.
  - destruct (array_index k).
    + by apply props_get_insert_index_eq.
    + rewrite props_get_app_None by done. unfold props_get. simpl.
      by rewrite String.eqb_refl.
Qed.

(** A named property (neither an index nor [length]) can always be
    assigned, and reads back. *)
Lemma own_set_named o k v :
  array_index k = None -> String.eqb k "length" = false ->
  own_set o k v = Some (Obj (o_elems o) (props_set k v (o_props o))).
Proof.
  intros Hi Hl. unfold own_set. destruct o as [[es|] ps]; simpl; by rewrite ?Hl, ?Hi.
Qed.

Lemma own_get_named o k :
  array_index k = None -> String.eqb k "length" = false ->
  own_get o k = props_get k (o_props o).
Proof.
  intros Hi Hl. unfold own_get. destruct o as [[es|] ps]; simpl; by rewrite ?Hl, ?Hi.
Qed.

Lemma resize_length n es : length (resize n es) = n.
Proof. unfold resize. rewrite length_app, length_take, length_replicate. lia. Qed.

(** A key can be assigned on any plain object, and on an array unless it
    is [length]; the assigned value reads back. *)
Lemma own_set_get o k v :
  o_elems o = None \/ String.eqb k "length" = false ->
  exists o', own_set o k v = Some o' /\ own_get o' k = Some v
             /\ (o_elems o = None -> o_elems o' = None).
Proof.
  intros Hk. unfold own_set, own_get. destruct o as [[es|] ps]; simpl.
  - destruct Hk as [Hk|Hk]; [discriminate|]. rewrite Hk.
    destruct (array_index k) as [n|] eqn:En; eexists; (split; [reflexivity|]); simpl.
    + split; [|discriminate]. apply list_lookup_insert_eq. rewrite resize_length. lia.
    + split; [apply props_get_set_eq | discriminate].
  - eexists. split; [reflexivity|]. simpl. split; [apply props_get_set_eq | done].
Qed.

Lemma fresh_lookup_None (h : Heap) : h !! fresh (dom h) = None.
Proof. apply not_elem_of_dom, is_fresh. Qed.

Lemma fresh_ne (h : Heap) l o : h !! l = Some o -> l <> fresh (dom h).
Proof. intros H ->. by rewrite fresh_lookup_None in H. Qed.

Lemma getProp_ref s l o k :
  heap s !! l = Some o -> getProp (VRef l) k s = Ok (default VUndefined (own_get o k)) s.
Proof. intros H. unfold getProp, read, mbind, M_bind, mret, M_ret. by rewrite H. Qed.

Lemma setProp_ref s l o o' k v :
  heap s !! l = Some o -> own_set o k v = Some o' ->
  setProp (VRef l) k v s = Ok tt (mkState (<[l := o']> (heap s)) (trace s)).
Proof. intros H Hs. unfold setProp, read, write, mbind, M_bind. by rewrite H, Hs. Qed.

Lemma slot_getProp s l k v : slot s l k = Some v -> getProp (VRef l) k s = Ok v s.
Proof.
  unfold slot. destruct (heap s !! l) eqn:E; [|discriminate].
  intros [= <-]. by apply getProp_ref.
Qed.

(** *** Read-only computations *)

Lemma getProp_final v k s : final_state (getProp v k s) = s.
Proof.
  unfold getProp, read, throw, mbind, M_bind, mret, M_ret.
  destruct v; try reflexivity. by destruct (heap s !! l).
Qed.

Lemma hasOwn_final v k s : final_state (hasOwn v k s) = s.
Proof.
  unfold hasOwn, read, mbind, M_bind, mret, M_ret.
  destruct v; try reflexivity. by destruct (heap s !! l).
Qed.

Lemma bind_final {A B} (m : M A) (f : A -> M B) s :
  final_state (m s) = s -> (forall a, final_state (f a s) = s) ->
  final_state ((m ≫= f) s) = s.
Proof.
  intros Hm Hf. unfold mbind, M_bind. destruct (m s) as [a s'|e s']; simpl in Hm; subst; auto.
Qed.

Lemma hasPath_final path : forall v s, final_state (hasPath v path s) = s.
Proof.
  induction path as [|k rest IH]; intros v s; simpl; [reflexivity|].
  destruct rest as [|k' rest']; [apply hasOwn_final|].
  apply bind_final; [apply hasOwn_final|]. intros [|]; [|reflexivity].
  apply bind_final; [apply getProp_final|]. intros a. apply IH.
Qed.

Lemma has_final v p segs s : final_state (has v p segs s) = s.
Proof.
  unfold has. apply bind_final; [apply hasOwn_final|]. intros [|]; apply hasPath_final.
Qed.

Lemma isLegacyAnimation_final v s : final_state (isLegacyAnimation v s) = s.
Proof.
  unfold isLegacyAnimation. apply bind_final; [apply has_final|]. intros [|]; [reflexivity|].
  apply bind_final; [apply has_final|]. reflexivity.
Qed.

Lemma read_final l s : final_state (read l s) = s.
Proof. unfold read. by destruct (heap s !! l). Qed.

Lemma collection_keys_final v s : final_state (collection_keys v s) = s.
Proof.
  destruct v; try reflexivity. simpl.
  apply bind_final; [apply read_final|]. intros o.
  destruct (o_elems o); [reflexivity|].
  by destruct (props_get "length" (o_props o) ≫= isLength).
Qed.

Lemma spread_entries_final v s : final_state (spread_entries v s) = s.
Proof.
  destruct v; try reflexivity. simpl.
  apply bind_final; [apply read_final|]. reflexivity.
Qed.

Lemma final_state_Ok {A} (m : M A) s a s' :
  final_state (m s) = s -> m s = Ok a s' -> s' = s.
Proof. intros Hf Hm. rewrite Hm in Hf. exact Hf. Qed.

Lemma getProp_state v k s r s' : getProp v k s = Ok r s' -> s' = s.
Proof. apply final_state_Ok, getProp_final. Qed.

Lemma hasOwn_state v k s b s' : hasOwn v k s = Ok b s' -> s' = s.
Proof. apply final_state_Ok, hasOwn_final. Qed.

(** The test for a legacy animation only reads the heap. *)
Lemma isLegacyAnimation_state v s b s' : isLegacyAnimation v s = Ok b s' -> s' = s.
Proof. apply final_state_Ok, isLegacyAnimation_final. Qed.

Lemma spread_entries_state v s es s' : spread_entries v s = Ok es s' -> s' = s.
Proof. apply final_state_Ok, spread_entries_final. Qed.


(** ** The walk on small configurations *)

(** Both colours are handled, the nested one through the recursion. *)
Example processOptions_nested_color :
  exists s',
    processOptions plainCollaborators 2 (VRef 1%positive) "push" state_nested_color = Ok tt s'
    /\ lookup_path (heap s') (VRef 1%positive) ["color"] = Some (VStr "native:red")
    /\ lookup_path (heap s') (VRef 1%positive) ["nested"; "titleColor"] = Some (VStr "NoColor").
Proof. eexists. split; [vm_compute; reflexivity|]. split; vm_compute; reflexivity. Qed.

(** A flat [setStackRoot] animation is wrapped whole. *)
Example processOptions_setStackRoot :
  exists s',
    processOptions plainCollaborators 4 (VRef 1%positive) "setStackRoot" state_setStackRoot = Ok tt s'
    /\ lookup_path (heap s') (VRef 1%positive) ["setStackRoot"; "content"; "enter"; "alpha"]
       = Some (VNum 1)
    /\ lookup_path (heap s') (VRef 1%positive) ["setStackRoot"; "alpha"] = Some VUndefined.
Proof. eexists. split; [vm_compute; reflexivity|]. split; vm_compute; reflexivity. Qed.

(** A component gets an id, its props go to the store and leave the
    options. *)
Example processOptions_component :
  exists s',
    processOptions plainCollaborators 2 (VRef 1%positive) "push" state_component = Ok tt s'
    /\ lookup_path (heap s') (VRef 1%positive) ["component"; "componentId"]
       = Some (VStr "CustomComponent1")
    /\ lookup_path (heap s') (VRef 1%positive) ["component"; "passProps"] = Some VUndefined
    /\ EvUpdateProps (VStr "CustomComponent1") (VRef 3%positive) ∈ trace s'
    /\ heap s' !! 3%positive = Some (plain [("n", VNum 1)]).
Proof.
  eexists. split; [vm_compute; reflexivity|].
  split; [vm_compute; reflexivity|]. split; [vm_compute; reflexivity|].
  split; [|vm_compute; reflexivity].
  apply list_elem_of_In. vm_compute. tauto.
Qed.

(** In the walk the interpolation shorthand is reported twice under its
    key: by the transform, with the live node and no command name, and
    by the callback of the visit, with the snapshot. *)
Example processOptions_interpolation :
  exists s' h1 h2 h3,
    processOptions plainCollaborators 2 (VRef 1%positive) "push" state_interpolation = Ok tt s'
    /\ lookup_path (heap s') (VRef 1%positive) ["interpolation"; "type"] = Some (VStr "easeIn")
    /\ trace s' = [EvOnProcessOptions (KStr "interpolation") (VRef 1%positive) "" h1;
                   EvOnProcessOptions (KStr "interpolation") (VRef 2%positive) "push" h2;
                   EvCheckForDeprecatedOptions (VRef 2%positive) h2;
                   EvOnProcessOptions (KStr "type") (VRef 2%positive) "push" h3;
                   EvCheckForDeprecatedOptions (VRef 2%positive) h3].
Proof.
  eexists _, _, _, _. split; [vm_compute; reflexivity|]. split; vm_compute; reflexivity.
Qed.

(** ** Falsy values: only the registry step and the colour transform run *)

(** C4, as amended: when the value enumerated for a key is falsy, the
    visit consists of the registry step and the colour transform and
    nothing else: no other transform, no callback, no recursion.  The
    test is on the value read when the key was reached, not on what the
    two steps wrote into the slot. *)
Theorem processEntry_falsy (C : Collaborators) recurse objectToProcess parentOptions onProcess
    commandName parentPath (val : value) (k : key) (s : State) :
  truthy val = false ->
  processEntry C recurse objectToProcess parentOptions onProcess commandName parentPath val k s =
  (processWithRegisteredProcessor C k val objectToProcess (resolveObjectPath k parentPath) commandName ;;
   processColor C k val objectToProcess) s.
Proof.
  intros Hf. unfold processEntry. rewrite Hf. simpl.
  unfold mbind at 1 3, M_bind.
  destruct (processWithRegisteredProcessor _ _ _ _ _ _ s) as [[] s1|]; [|reflexivity].
  apply bind_ret_tt.
Qed.

Lemma processEntry_falsy_witness :
  processEntry plainCollaborators (fun _ _ => throw OutOfFuel) (VRef 1%positive) (VRef 1%positive)
    (onProcess_options "push") "push" VUndefined VUndefined (KStr "color") state_color_undefined =
  (processWithRegisteredProcessor plainCollaborators (KStr "color") VUndefined (VRef 1%positive)
     (resolveObjectPath (KStr "color") VUndefined) "push" ;;
   processColor plainCollaborators (KStr "color") VUndefined (VRef 1%positive)) state_color_undefined.
Proof. apply processEntry_falsy. reflexivity. Defined.

(** C4, as stated, fails: a processor registered for [a] replaces the
    truthy value ["x"] by [null]; the slot is falsy after the registry
    and colour steps, and still the deprecation callback runs for [a]
    in the walk of [{ a: "x" }]. *)
Lemma processEntry_falsy_slot_counterexample :
  let C := withProcessors "a" [pure_processor (fun _ _ => VNull)] in
  exists s1 s2 h,
    (processWithRegisteredProcessor C (KStr "a") (VStr "x") (VRef 1%positive) (VStr "a") "push" ;;
     processColor C (KStr "a") (VStr "x") (VRef 1%positive)) state_a = Ok tt s1
    /\ slot s1 1%positive "a" = Some VNull
    /\ truthy VNull = false
    /\ processOptions C 2 (VRef 1%positive) "push" state_a = Ok tt s2
    /\ slot s2 1%positive "a" = Some VNull
    /\ trace s2 = [EvOnProcessOptions (KStr "a") (VRef 2%positive) "push" h;
                   EvCheckForDeprecatedOptions (VRef 2%positive) h].
Proof.
  simpl. eexists _, _, _. repeat split; vm_compute; reflexivity.
Qed.

(** ** The pass-through key *)

(** C8: the visit of the key [passProps] never makes the nested call of
    [processObject]: whatever the value under the key is (an object, an
    array, anything), the visit is the same for any two behaviours of
    the nested call, so nothing below that value is reached by a
    registered processor or a built-in transform.  With no processor
    registered for the key's own path and a callback that only reports,
    the visit leaves the whole heap as it is. *)
Theorem processEntry_passProps_never_recursed (C : Collaborators) recurse1 recurse2
    objectToProcess parentOptions onProcess commandName parentPath (val : value) (s : State) :
  processEntry C recurse1 objectToProcess parentOptions onProcess commandName parentPath val
    (KStr "passProps") s =
  processEntry C recurse2 objectToProcess parentOptions onProcess commandName parentPath val
    (KStr "passProps") s
  /\ (getProcessors C (resolveObjectPath (KStr "passProps") parentPath) = None ->
      (forall k p s0, heap (final_state (onProcess k p s0)) = heap s0) ->
      heap (final_state
              (processEntry C recurse1 objectToProcess parentOptions onProcess commandName
                 parentPath val (KStr "passProps") s)) = heap s).
Proof.
  split; [reflexivity|].
  intros Hreg Hcb. unfold processEntry, processWithRegisteredProcessor. rewrite Hreg.
  destruct (truthy val); simpl; [|reflexivity].
  unfold mbind, M_bind, mret, M_ret. simpl.
  specialize (Hcb (KStr "passProps") parentOptions s).
  destruct (onProcess (KStr "passProps") parentOptions s) as [[] s1|e s1]; simpl in *; [|exact Hcb].
  pose proof (getProp_final objectToProcess "passProps" s1) as Hg.
  destruct (getProp objectToProcess "passProps" s1) as [pv s2|e s2]; simpl in *; subst; exact Hcb.
Qed.

Lemma processEntry_passProps_never_recursed_witness :
  processEntry plainCollaborators (fun _ _ => throw OutOfFuel) (VRef 1%positive) (VRef 3%positive)
    (onProcess_options "push") "push" VUndefined (VRef 2%positive) (KStr "passProps") state_passProps =
  processEntry plainCollaborators (fun _ _ => mret tt) (VRef 1%positive) (VRef 3%positive)
    (onProcess_options "push") "push" VUndefined (VRef 2%positive) (KStr "passProps") state_passProps
  /\ heap (final_state
             (processEntry plainCollaborators (fun _ _ => throw OutOfFuel) (VRef 1%positive)
                (VRef 3%positive) (onProcess_options "push") "push" VUndefined (VRef 2%positive)
                (KStr "passProps") state_passProps)) = heap state_passProps.
Proof.
  destruct (processEntry_passProps_never_recursed plainCollaborators
              (fun _ _ => throw OutOfFuel) (fun _ _ => mret tt) (VRef 1%positive) (VRef 3%positive)
              (onProcess_options "push") "push" VUndefined (VRef 2%positive) state_passProps)
    as [H1 H2].
  split; [exact H1|]. apply H2; reflexivity.
Defined.

(** In the walk of [{ passProps: { color: null }, title: "t" }] the nested
    [color: null] is not turned into ['NoColor'], and only the two
    top-level keys are reported to the callback. *)
Example processOptions_passProps_opaque :
  exists s' h1 h2,
    processOptions plainCollaborators 1 (VRef 1%positive) "push" state_passProps = Ok tt s'
    /\ heap s' !! 2%positive = Some (plain [("color", VNull)])
    /\ trace s' = [EvOnProcessOptions (KStr "passProps") (VRef 3%positive) "push" h1;
                   EvCheckForDeprecatedOptions (VRef 3%positive) h1;
                   EvOnProcessOptions (KStr "title") (VRef 3%positive) "push" h2;
                   EvCheckForDeprecatedOptions (VRef 3%positive) h2].
Proof. eexists _, _, _. repeat split; vm_compute; reflexivity. Qed.

(** ** The interpolation shorthand *)

(** The transform alone: for the key [interpolation] and a string value, it
    notifies the deprecation hook once (with the key, the live node and
    the empty command name) and then stores in the node's slot a new
    object [{ type: t }], where [t] is what the slot holds at that moment
    (the string itself unless a processor replaced it).  A value that is
    not a string leaves the state as it is. *)
Theorem processInterpolation_string (s : State) (lo : loc) (o : object) (sv : string)
    (val : value) (k : key) :
  heap s !! lo = Some o ->
  (exists s' l,
     processInterpolation (KStr "interpolation") (VStr sv) (VRef lo) s = Ok tt s'
     /\ heap s !! l = None
     /\ slot s' lo "interpolation" = Some (VRef l)
     /\ heap s' !! l = Some (plain [("type", default VUndefined (own_get o "interpolation"))])
     /\ trace s' = trace s ++ [EvOnProcessOptions (KStr "interpolation") (VRef lo) "" (heap s)])
  /\ (isString val = false -> processInterpolation k val (VRef lo) s = Ok tt s).
Proof.
  intros Ho. split.
  - set (l := fresh (dom (heap s))).
    assert (Hne : lo <> l) by (eapply fresh_ne; eauto).
    exists (mkState (<[lo := Obj (o_elems o) (props_set "interpolation" (VRef l) (o_props o))]>
                       (<[l := plain [("type", default VUndefined (own_get o "interpolation"))]]> (heap s)))
                    (trace s ++ [EvOnProcessOptions (KStr "interpolation") (VRef lo) "" (heap s)])), l.
    split; [|split; [|split; [|split]]].
    + unfold processInterpolation. simpl.
      erewrite bind_ok by reflexivity.
      erewrite bind_ok by (apply getProp_ref; simpl; exact Ho).
      erewrite bind_ok by reflexivity.
      simpl. fold l.
      erewrite setProp_ref; [reflexivity | |].
      * simpl. rewrite lookup_insert_ne by done. exact Ho.
      * by apply own_set_named.
    + apply fresh_lookup_None.
    + unfold slot. simpl. rewrite lookup_insert_eq. f_equal.
      rewrite own_get_named by done. simpl. by rewrite props_get_set_eq.
    + simpl. rewrite lookup_insert_ne by done. by rewrite lookup_insert_eq.
    + reflexivity.
  - intros Hs. unfold processInterpolation. rewrite Hs. by destruct (isEqual k "interpolation").
Qed.

Lemma processInterpolation_string_witness :
  (exists s' l,
     processInterpolation (KStr "interpolation") (VStr "easeIn") (VRef 1%positive) state_interpolation = Ok tt s'
     /\ heap state_interpolation !! l = None
     /\ slot s' 1%positive "interpolation" = Some (VRef l)
     /\ heap s' !! l = Some (plain [("type", VStr "easeIn")])
     /\ trace s' = trace state_interpolation
                   ++ [EvOnProcessOptions (KStr "interpolation") (VRef 1%positive) "" (heap state_interpolation)])
  /\ processInterpolation (KStr "interpolation") (VNum 3) (VRef 1%positive) state_interpolation
     = Ok tt state_interpolation.
Proof.
  destruct (processInterpolation_string state_interpolation 1%positive
              (plain [("interpolation", VStr "easeIn")]) "easeIn" (VNum 3) (KStr "interpolation"))
    as [H1 H2]; [reflexivity|].
  split; [exact H1 | apply H2; reflexivity].
Defined.

Lemma onProcessOptions_calls_app k t1 t2 :
  onProcessOptions_calls k (t1 ++ t2) = onProcessOptions_calls k t1 + onProcessOptions_calls k t2.
Proof. unfold onProcessOptions_calls. by rewrite List.filter_app, length_app. Qed.

(** C6, as amended: take a visit of the key [interpolation] whose
    enumerated value is a non-empty string, and let [t] be what the
    node's slot holds once the registry step is over (the string itself
    unless a processor replaced it).  The visit stores in the slot a new
    object [{ type: t }] and goes on into that object.  On the way
    [onProcessOptions] is notified for the key by the transform (with
    the live node and the empty command name); in a walk of
    [processOptions] the per-visit callback then notifies it a second
    time for the same key (with the snapshot and the command name), so
    the hook fires twice, while in a walk of [processDefaultOptions] it
    fires once and [onProcessDefaultOptions] once.  A value that is not a
    string is left as it is by the transform. *)
Theorem processEntry_interpolation_hook_calls (C : Collaborators) recurse (lo : loc)
    (o0 : object) (sv : string) parentOptions cmd parentPath (s s0 : State) :
  let k := KStr "interpolation" in
  let t := default VUndefined (own_get o0 "interpolation") in
  sv <> "" ->
  processWithRegisteredProcessor C k (VStr sv) (VRef lo) (resolveObjectPath k parentPath) cmd s
  = Ok tt s0 ->
  heap s0 !! lo = Some o0 ->
  (exists l h1,
    heap s0 !! l = None
    /\ h1 !! l = Some (plain [("type", t)])
    /\ h1 !! lo = Some (Obj (o_elems o0) (props_set "interpolation" (VRef l) (o_props o0)))
    /\ (forall l', l' <> l -> l' <> lo -> h1 !! l' = heap s0 !! l')
    /\ (let s1 := mkState h1 (trace s0 ++ [EvOnProcessOptions k (VRef lo) "" (heap s0);
                                            EvOnProcessOptions k parentOptions cmd h1;
                                            EvCheckForDeprecatedOptions parentOptions h1]) in
        processEntry C recurse (VRef lo) parentOptions (onProcess_options cmd) cmd parentPath
          (VStr sv) k s
        = recurse (VRef l) (resolveObjectPath k parentPath) s1
        /\ onProcessOptions_calls k (trace s1) = onProcessOptions_calls k (trace s0) + 2)
    /\ (let s1 := mkState h1 (trace s0 ++ [EvOnProcessOptions k (VRef lo) "" (heap s0);
                                            EvOnProcessDefaultOptions k parentOptions h1]) in
        processEntry C recurse (VRef lo) parentOptions onProcess_defaultOptions cmd parentPath
          (VStr sv) k s
        = recurse (VRef l) (resolveObjectPath k parentPath) s1
        /\ onProcessOptions_calls k (trace s1) = onProcessOptions_calls k (trace s0) + 1))
  /\ (forall val st, isString val = false -> processInterpolation k val (VRef lo) st = Ok tt st).
Proof.
  intros k t Hsv Hreg Ho.
  set (l := fresh (dom (heap s0))).
  assert (Hne : lo <> l) by (eapply fresh_ne; eauto).
  set (o1 := Obj (o_elems o0) (props_set "interpolation" (VRef l) (o_props o0))).
  set (h1 := <[lo := o1]> (<[l := plain [("type", t)]]> (heap s0))).
  assert (Htruthy : truthy (VStr sv) = true) by (by destruct sv).
  assert (Hslot : own_get o1 "interpolation" = Some (VRef l)).
  { unfold o1. rewrite own_get_named by done. simpl. by rewrite props_get_set_eq. }
  assert (Htransform :
    processInterpolation k (VStr sv) (VRef lo) s0
    = Ok tt (mkState h1 (trace s0 ++ [EvOnProcessOptions k (VRef lo) "" (heap s0)]))).
  { unfold processInterpolation, k. simpl.
    erewrite bind_ok by reflexivity.
    erewrite bind_ok by (apply getProp_ref; simpl; exact Ho).
    erewrite bind_ok by reflexivity.
    simpl. fold l. fold t.
    erewrite setProp_ref; [reflexivity | |].
    - simpl. rewrite lookup_insert_ne by done. exact Ho.
    - by apply own_set_named. }
  assert (Hvisit : forall onProcess evs,
    (forall st, heap st = h1 ->
       onProcess k parentOptions st = Ok tt (mkState h1 (trace st ++ evs))) ->
    processEntry C recurse (VRef lo) parentOptions onProcess cmd parentPath (VStr sv) k s
    = recurse (VRef l) (resolveObjectPath k parentPath)
        (mkState h1 ((trace s0 ++ [EvOnProcessOptions k (VRef lo) "" (heap s0)]) ++ evs))).
  { intros onProcess evs Hon. unfold processEntry.
    erewrite bind_ok by exact Hreg.
    rewrite Htruthy. unfold k at 1 2 3 4 5. simpl.
    erewrite bind_ok by reflexivity.
    erewrite bind_ok by reflexivity.
    erewrite bind_ok by reflexivity.
    erewrite bind_ok by reflexivity.
    erewrite bind_ok by reflexivity.
    erewrite bind_ok by exact Htransform.
    erewrite bind_ok by reflexivity.
    erewrite bind_ok by (by apply Hon).
    erewrite bind_ok; cycle 1.
    { apply getProp_ref. simpl. unfold h1. apply lookup_insert_eq. }
    erewrite bind_ok by reflexivity.
    rewrite Hslot. reflexivity. }
  split; [|intros val st Hval; unfold processInterpolation; by rewrite Hval].
  exists l, h1. split; [apply fresh_lookup_None|]. split; [|split; [|split; [|split]]].
  - unfold h1. rewrite lookup_insert_ne by done. apply lookup_insert_eq.
  - unfold h1. apply lookup_insert_eq.
  - intros l' Hl' Hlo'. unfold h1. by rewrite !lookup_insert_ne.
  - cbv zeta. split.
    + rewrite (Hvisit (onProcess_options cmd)
                 [EvOnProcessOptions k parentOptions cmd h1;
                  EvCheckForDeprecatedOptions parentOptions h1]).
      * by rewrite <- app_assoc.
      * intros st Hst. unfold onProcess_options, deprecations_onProcessOptions,
          deprecations_checkForDeprecatedOptions, emit, mbind, M_bind. simpl.
        rewrite Hst, <- app_assoc. reflexivity.
    + simpl. rewrite onProcessOptions_calls_app. f_equal.
  - cbv zeta. split.
    + rewrite (Hvisit onProcess_defaultOptions [EvOnProcessDefaultOptions k parentOptions h1]).
      * by rewrite <- app_assoc.
      * intros st Hst. unfold onProcess_defaultOptions, deprecations_onProcessDefaultOptions,
          emit. simpl. by rewrite Hst.
    + simpl. rewrite onProcessOptions_calls_app. f_equal.
Qed.

Lemma processEntry_interpolation_hook_calls_witness :
  let C := withProcessors "interpolation" [pure_processor (constantly (VStr "spring"))] in
  let k := KStr "interpolation" in
  let s0 := state_of [(1%positive, plain [("interpolation", VStr "spring")])] in
  let recurse := fun (_ _ : value) => mret tt in
  (exists l h1,
    heap s0 !! l = None
    /\ h1 !! l = Some (plain [("type", VStr "spring")])
    /\ h1 !! 1%positive = Some (plain [("interpolation", VRef l)])
    /\ (forall l', l' <> l -> l' <> 1%positive -> h1 !! l' = heap s0 !! l')
    /\ (let s1 := mkState h1 (trace s0 ++ [EvOnProcessOptions k (VRef 1%positive) "" (heap s0);
                                            EvOnProcessOptions k (VRef 2%positive) "push" h1;
                                            EvCheckForDeprecatedOptions (VRef 2%positive) h1]) in
        processEntry C recurse (VRef 1%positive) (VRef 2%positive) (onProcess_options "push") "push"
          VUndefined (VStr "easeIn") k state_interpolation
        = recurse (VRef l) (resolveObjectPath k VUndefined) s1
        /\ onProcessOptions_calls k (trace s1) = onProcessOptions_calls k (trace s0) + 2)
    /\ (let s1 := mkState h1 (trace s0 ++ [EvOnProcessOptions k (VRef 1%positive) "" (heap s0);
                                            EvOnProcessDefaultOptions k (VRef 2%positive) h1]) in
        processEntry C recurse (VRef 1%positive) (VRef 2%positive) onProcess_defaultOptions "push"
          VUndefined (VStr "easeIn") k state_interpolation
        = recurse (VRef l) (resolveObjectPath k VUndefined) s1
        /\ onProcessOptions_calls k (trace s1) = onProcessOptions_calls k (trace s0) + 1))
  /\ (forall val st, isString val = false ->
                     processInterpolation k val (VRef 1%positive) st = Ok tt st).
Proof.
  apply (processEntry_interpolation_hook_calls
           (withProcessors "interpolation" [pure_processor (constantly (VStr "spring"))])
           (fun _ _ => mret tt) 1%positive (plain [("interpolation", VStr "spring")]) "easeIn"
           (VRef 2%positive) "push" VUndefined state_interpolation
           (state_of [(1%positive, plain [("interpolation", VStr "spring")])])).
  - discriminate.
  - vm_compute. reflexivity.
  - reflexivity.
Defined.

(** C6, as stated, fails on the number of notifications: in the walk of
    [{ interpolation: "easeIn" }] by [processOptions] the slot becomes
    [{ type: "easeIn" }], and [onProcessOptions] is called twice for the
    key [interpolation], once by the transform and once by the per-visit
    callback. *)
Lemma processOptions_interpolation_twice_counterexample :
  exists s',
    processOptions plainCollaborators 2 (VRef 1%positive) "push" state_interpolation = Ok tt s'
    /\ lookup_path (heap s') (VRef 1%positive) ["interpolation"; "type"] = Some (VStr "easeIn")
    /\ onProcessOptions_calls (KStr "interpolation") (trace s') = 2
    /\ onProcessOptions_calls (KStr "interpolation") (trace s') <> 1.
Proof.
  eexists. split; [vm_compute; reflexivity|].
  split; [vm_compute; reflexivity|].
  split; [vm_compute; reflexivity|].
  vm_compute. discriminate.
Qed.

(** ** The search-bar transform *)

Lemma alloc_eq o s :
  alloc o s = Ok (VRef (fresh (dom (heap s)))) (mkState (<[fresh (dom (heap s)) := o]> (heap s)) (trace s)).
Proof. reflexivity. Qed.

(** C5: for the key [searchBar] and a boolean value (in the walk: [true]),
    the transform notifies the deprecation hook and stores in the slot a
    new object, never a boolean, with exactly the fields of the defaults
    in their order: [visible] is the boolean, [hideOnScroll],
    [hideTopBarOnFocus] and [placeholder] are the siblings
    [searchBarHiddenWhenScrolling], [hideNavBarOnFocusSearchBar] and
    [searchBarPlaceholder] when these hold a value (are neither undefined
    nor null) and [false], [false] and the empty string otherwise,
    [backgroundColor] and [tintColor] are the siblings
    [searchBarBackgroundColor] and [searchBarTintColor], and
    [obscuresBackgroundDuringPresentation] is [false]. *)
Theorem processSearchBar_boolean (s : State) (lo : loc) (o : object) (b : bool) :
  heap s !! lo = Some o ->
  let sibling name := default VUndefined (own_get o name) in
  exists s' l h,
    processSearchBar (KStr "searchBar") (VBool b) (VRef lo) s = Ok tt s'
    /\ heap s !! l = None
    /\ slot s' lo "searchBar" = Some (VRef l)
    /\ heap s' !! l = Some (plain
         [ ("visible", VBool b);
           ("hideOnScroll", coalesce (sibling "searchBarHiddenWhenScrolling") (VBool false));
           ("hideTopBarOnFocus", coalesce (sibling "hideNavBarOnFocusSearchBar") (VBool false));
           ("obscuresBackgroundDuringPresentation", VBool false);
           ("backgroundColor", sibling "searchBarBackgroundColor");
           ("tintColor", sibling "searchBarTintColor");
           ("placeholder", coalesce (sibling "searchBarPlaceholder") (VStr "")) ])
    /\ trace s' = trace s ++ [EvOnProcessOptions (KStr "searchBar") (VRef lo) "" h].
Proof.
  intros Ho sibling.
  set (defaults := deprecatedSearchBarOptions (sibling "searchBarHiddenWhenScrolling")
                     (sibling "hideNavBarOnFocusSearchBar") (sibling "searchBarBackgroundColor")
                     (sibling "searchBarTintColor") (sibling "searchBarPlaceholder")).
  set (l1 := fresh (dom (heap s))).
  set (h1 := <[l1 := plain defaults]> (heap s)).
  set (l2 := fresh (dom h1)).
  set (h2 := <[l2 := plain (props_assign defaults [("visible", VBool b)])]> h1).
  assert (Hlo1 : h1 !! lo = Some o).
  { unfold h1. rewrite lookup_insert_ne; [done|]. intros <-. eapply fresh_ne; eauto. }
  assert (Hlo2 : h2 !! lo = Some o).
  { unfold h2. rewrite lookup_insert_ne; [done|]. intros <-. eapply (fresh_ne h1); eauto. }
  assert (Hl2 : heap s !! l2 = None).
  { destruct (heap s !! l2) eqn:E; [|done].
    assert (Hd : h1 !! l2 = None) by apply fresh_lookup_None.
    unfold h1 in Hd. apply lookup_insert_None in Hd as [Hd _]. congruence. }
  exists (mkState (<[lo := Obj (o_elems o) (props_set "searchBar" (VRef l2) (o_props o))]> h2)
            (trace s ++ [EvOnProcessOptions (KStr "searchBar") (VRef lo) "" h1])), l2, h1.
  split; [|split; [|split; [|split]]].
  - unfold processSearchBar. simpl.
    do 5 (erewrite bind_ok by (apply getProp_ref; exact Ho)).
    erewrite bind_ok by apply alloc_eq.
    erewrite bind_ok by reflexivity.
    erewrite bind_ok by apply alloc_eq.
    erewrite setProp_ref; [reflexivity | exact Hlo2 | by apply own_set_named].
  - exact Hl2.
  - unfold slot. simpl. rewrite lookup_insert_eq. f_equal.
    rewrite own_get_named by done. simpl. by rewrite props_get_set_eq.
  - simpl. rewrite lookup_insert_ne.
    + unfold h2. by rewrite lookup_insert_eq.
    + intros <-. by rewrite Hl2 in Ho.
  - reflexivity.
Qed.

Lemma processSearchBar_boolean_witness :
  exists s' l h,
    processSearchBar (KStr "searchBar") (VBool true) (VRef 2%positive) state_searchBar = Ok tt s'
    /\ heap state_searchBar !! l = None
    /\ slot s' 2%positive "searchBar" = Some (VRef l)
    /\ heap s' !! l = Some (plain
         [ ("visible", VBool true);
           ("hideOnScroll", VBool false);
           ("hideTopBarOnFocus", VBool false);
           ("obscuresBackgroundDuringPresentation", VBool false);
           ("backgroundColor", VUndefined);
           ("tintColor", VUndefined);
           ("placeholder", VStr "Find") ])
    /\ trace s' = trace state_searchBar ++ [EvOnProcessOptions (KStr "searchBar") (VRef 2%positive) "" h].
Proof.
  apply (processSearchBar_boolean state_searchBar 2%positive
           (plain [("searchBar", VBool true); ("searchBarPlaceholder", VStr "Find")]) true).
  reflexivity.
Defined.

(** ** The colour transform *)

Lemma color_key_not_length k :
  isEqual k "color" || endsWith k "Color" = true ->
  String.eqb (key_to_string k) "length" = false.
Proof.
  intros H. destruct (String.eqb (key_to_string k) "length") eqn:E; [|reflexivity].
  apply String.eqb_eq in E. unfold endsWith in H.
  destruct k as [name|n]; simpl in *.
  - subst name. discriminate.
  - rewrite E in H. discriminate.
Qed.

(** C7, as amended: for a key that equals [color] or ends with [Color],
    the slot of the node receives ['NoColor'] when the value is exactly
    [null], and otherwise (for [undefined] and every other value, falsy
    or not) the result of the colour service for the value; a key that
    fails the name test leaves the state as it is.  The value may be
    falsy: the walk runs this transform before its falsy test. *)
Theorem processColor_spec (C : Collaborators) (k : key) (val : value) (lo : loc) (o : object)
    (s : State) :
  heap s !! lo = Some o ->
  (isEqual k "color" || endsWith k "Color" = true -> val = VNull ->
   exists s', processColor C k val (VRef lo) s = Ok tt s'
     /\ slot s' lo (key_to_string k) = Some (VStr "NoColor")
     /\ trace s' = trace s
     /\ forall l, l <> lo -> heap s' !! l = heap s !! l)
  /\ (isEqual k "color" || endsWith k "Color" = true -> val <> VNull ->
      forall r s1 o1, toNativeColor C val s = Ok r s1 -> heap s1 !! lo = Some o1 ->
        exists s', processColor C k val (VRef lo) s = Ok tt s'
          /\ slot s' lo (key_to_string k) = Some r
          /\ trace s' = trace s1
          /\ forall l, l <> lo -> heap s' !! l = heap s1 !! l)
  /\ (isEqual k "color" || endsWith k "Color" = false ->
      processColor C k val (VRef lo) s = Ok tt s).
Proof.
  intros Ho.
  assert (Hstore : forall r s1 o1, heap s1 !! lo = Some o1 ->
            isEqual k "color" || endsWith k "Color" = true ->
            exists s', setProp (VRef lo) (key_to_string k) r s1 = Ok tt s'
              /\ slot s' lo (key_to_string k) = Some r
              /\ trace s' = trace s1
              /\ forall l, l <> lo -> heap s' !! l = heap s1 !! l).
  { intros r s1 o1 Ho1 Hk.
    destruct (own_set_get o1 (key_to_string k) r) as (o2 & Hset & Hget & _);
      [right; by apply color_key_not_length|].
    rewrite (setProp_ref _ _ _ _ _ _ Ho1 Hset). eexists. split; [reflexivity|].
    split; [|split; [reflexivity|]].
    - unfold slot. simpl. by rewrite lookup_insert_eq, Hget.
    - intros l Hl. simpl. by rewrite lookup_insert_ne. }
  split; [|split].
  - intros Hk ->. unfold processColor. rewrite Hk.
    erewrite bind_ok by reflexivity. by eapply Hstore.
  - intros Hk Hv r s1 o1 Hr Ho1. unfold processColor. rewrite Hk.
    assert (Hm : (match val with VNull => mret (VStr "NoColor") | _ => toNativeColor C val end) s
                 = Ok r s1) by (destruct val; try exact Hr; congruence).
    erewrite bind_ok by exact Hm. by eapply Hstore.
  - intros Hk. unfold processColor. by rewrite Hk.
Qed.

Lemma processColor_spec_witness :
  (exists s', processColor plainCollaborators (KStr "titleColor") VNull (VRef 1%positive) state_color_red = Ok tt s'
     /\ slot s' 1%positive "titleColor" = Some (VStr "NoColor"))
  /\ (exists s', processColor plainCollaborators (KStr "color") (VStr "red") (VRef 1%positive) state_color_red = Ok tt s'
     /\ slot s' 1%positive "color" = Some (VStr "native:red"))
  /\ processColor plainCollaborators (KStr "colorful") (VStr "red") (VRef 1%positive) state_color_red
     = Ok tt state_color_red.
Proof.
  split; [|split].
  - destruct (processColor_spec plainCollaborators (KStr "titleColor") VNull 1%positive
                (plain [("color", VStr "red")]) state_color_red) as (H & _ & _); [reflexivity|].
    destruct H as (s' & H1 & H2 & _); [reflexivity | reflexivity |].
    exists s'. split; assumption.
  - destruct (processColor_spec plainCollaborators (KStr "color") (VStr "red") 1%positive
                (plain [("color", VStr "red")]) state_color_red) as (_ & H & _); [reflexivity|].
    destruct (H eq_refl ltac:(discriminate) (VStr "native:red") state_color_red
                (plain [("color", VStr "red")]) eq_refl eq_refl) as (s' & H1 & H2 & _).
    exists s'. split; assumption.
  - destruct (processColor_spec plainCollaborators (KStr "colorful") (VStr "red") 1%positive
                (plain [("color", VStr "red")]) state_color_red) as (_ & _ & H); [reflexivity|].
    apply H. reflexivity.
Defined.

(** C7, as stated, fails for an absent ([undefined]) colour: the test is
    [value === null], so [{ color: undefined }] is handed to the colour
    service and the slot receives its result, not ['NoColor']. *)
Lemma processColor_undefined_counterexample :
  exists s',
    processColor plainCollaborators (KStr "color") VUndefined (VRef 1%positive) state_color_undefined
    = Ok tt s'
    /\ slot s' 1%positive "color" = Some VUndefined
    /\ slot s' 1%positive "color" <> Some (VStr "NoColor").
Proof. eexists. repeat split; vm_compute; try reflexivity; discriminate. Qed.

(** ** The push animation *)

(** C2, as amended: for the key [push], when the value (an object) has
    neither [content.enter] nor [content.exit], the transform stores a
    new object [{ enter: c }] in the [content] field of the entry the
    parent currently holds under [push], where [c] is the [content]
    field of the value ([undefined] when it has none); the other fields
    of the entry stay, and nothing else changes.  When [content.enter]
    or [content.exit] is present the state is left as it is. *)
Theorem processPush_content (s : State) (lo lp la : loc) (o p a : object) (legacy : bool)
    (s0 : State) :
  heap s !! lo = Some o -> own_get o "push" = Some (VRef lp) ->
  heap s !! lp = Some p -> heap s !! la = Some a ->
  isLegacyAnimation (VRef la) s = Ok legacy s0 ->
  if legacy then
    exists s' c,
      processPush (KStr "push") (VRef la) (VRef lo) s = Ok tt s'
      /\ heap s !! c = None
      /\ heap s' !! c = Some (plain [("enter", default VUndefined (own_get a "content"))])
      /\ heap s' !! lp = Some (Obj (o_elems p) (props_set "content" (VRef c) (o_props p)))
      /\ (forall l, l <> c -> l <> lp -> heap s' !! l = heap s !! l)
      /\ trace s' = trace s
  else processPush (KStr "push") (VRef la) (VRef lo) s = Ok tt s.
Proof.
  intros Ho Hpush Hp Ha Hleg.
  pose proof (isLegacyAnimation_state _ _ _ _ Hleg) as ->.
  unfold processPush. simpl. erewrite bind_ok by exact Hleg.
  destruct legacy; [|reflexivity].
  set (c := fresh (dom (heap s))).
  assert (Hc : lp <> c) by (eapply fresh_ne; eauto).
  exists (mkState (<[lp := Obj (o_elems p) (props_set "content" (VRef c) (o_props p))]>
                     (<[c := plain [("enter", default VUndefined (own_get a "content"))]]> (heap s)))
                  (trace s)), c.
  split; [|split; [|split; [|split; [|split]]]].
  - erewrite bind_ok by (apply getProp_ref; exact Ho). rewrite Hpush. simpl.
    erewrite bind_ok by (apply getProp_ref; exact Ha).
    erewrite bind_ok by apply alloc_eq.
    erewrite setProp_ref; [reflexivity | | by apply own_set_named].
    simpl. by rewrite lookup_insert_ne.
  - apply fresh_lookup_None.
  - simpl. rewrite lookup_insert_ne by done. by rewrite lookup_insert_eq.
  - simpl. by rewrite lookup_insert_eq.
  - intros l H1 H2. simpl. by rewrite !lookup_insert_ne.
  - reflexivity.
Qed.

Lemma processPush_content_witness :
  (exists s' c,
     processPush (KStr "push") (VRef 2%positive) (VRef 1%positive) state_push = Ok tt s'
     /\ heap state_push !! c = None
     /\ heap s' !! c = Some (plain [("enter", VUndefined)])
     /\ heap s' !! 2%positive = Some (plain [("alpha", VNum 1); ("content", VRef c)])
     /\ (forall l, l <> c -> l <> 2%positive -> heap s' !! l = heap state_push !! l)
     /\ trace s' = trace state_push)
  /\ processPush (KStr "push") (VRef 2%positive) (VRef 1%positive) state_push_canonical
     = Ok tt state_push_canonical.
Proof.
  split.
  - apply (processPush_content state_push 1%positive 2%positive 2%positive
             (plain [("push", VRef 2%positive)]) (plain [("alpha", VNum 1)])
             (plain [("alpha", VNum 1)]) true state_push); reflexivity.
  - apply (processPush_content state_push_canonical 1%positive 2%positive 2%positive
             (plain [("push", VRef 2%positive)]) (plain [("content", VRef 3%positive)])
             (plain [("content", VRef 3%positive)]) false state_push_canonical); reflexivity.
Defined.

(** C2, as stated, fails: for [{ push: { alpha: 1 } }] the entry under
    [push] keeps [alpha] and gains [content: { enter: undefined }]; it is
    not [{ content: { enter: { alpha: 1 } } }]. *)
Lemma processPush_wrap_counterexample :
  exists s',
    processPush (KStr "push") (VRef 2%positive) (VRef 1%positive) state_push = Ok tt s'
    /\ lookup_path (heap s') (VRef 1%positive) ["push"; "alpha"] = Some (VNum 1)
    /\ lookup_path (heap s') (VRef 1%positive) ["push"; "content"; "enter"] = Some VUndefined
    /\ lookup_path (heap s') (VRef 1%positive) ["push"; "content"; "enter"; "alpha"] <> Some (VNum 1).
Proof. eexists. repeat split; vm_compute; try reflexivity; discriminate. Qed.

(** ** The registry step *)

Lemma forM__pure_processors (k : string) (val : value) (cmd : CommandName) (lo : loc)
    (fs : list (value -> CommandName -> value)) :
  forall s o, heap s !! lo = Some o ->
  o_elems o = None \/ String.eqb k "length" = false ->
  exists s' o',
    forM_ (pure_processor <$> fs)
      (fun processor : Processor => r ← processor val cmd; setProp (VRef lo) k r) s = Ok tt s'
    /\ heap s' !! lo = Some o'
    /\ (o_elems o' = None \/ String.eqb k "length" = false)
    /\ trace s' = trace s
    /\ forall l, l <> lo -> heap s' !! l = heap s !! l.
Proof.
  induction fs as [|f fs IH]; intros s o Ho Hk; simpl.
  - exists s, o. by repeat split.
  - destruct (own_set_get o k (f val cmd) Hk) as (o1 & Hset & _ & Hplain).
    erewrite bind_ok; cycle 1.
    { erewrite bind_ok by reflexivity. apply (setProp_ref _ _ _ _ _ _ Ho Hset). }
    edestruct (IH (mkState (<[lo := o1]> (heap s)) (trace s)) o1) as (s' & o' & Hrun & Ho' & Hk' & Ht & Hfr).
    { simpl. apply lookup_insert_eq. }
    { destruct Hk as [Hk|Hk]; [left; auto | by right]. }
    exists s', o'. split; [exact Hrun|]. split; [exact Ho'|]. split; [exact Hk'|].
    split; [exact Ht|]. intros l Hl. rewrite Hfr by done. simpl. by rewrite lookup_insert_ne.
Qed.




(** ** The parent's entry when an animation transform is reached *)

Lemma hasOwn_no_TypeError v k s s' : hasOwn v k s <> Throw TypeError s'.
Proof.
  unfold hasOwn, read, mbind, M_bind, mret, M_ret.
  destruct v; try discriminate. destruct (heap s !! l); discriminate.
Qed.

Lemma hasOwn_true_getProp v k s s1 :
  hasOwn v k s = Ok true s1 -> exists r, getProp v k s = Ok r s.
Proof.
  unfold hasOwn, getProp, read, mbind, M_bind, mret, M_ret.
  destruct v; try discriminate; eauto.
  destruct (heap s !! l); [eauto | discriminate].
Qed.

Lemma hasPath_no_TypeError path : forall v s s', hasPath v path s <> Throw TypeError s'.
Proof.
  induction path as [|k rest IH]; intros v s s'; simpl; [discriminate|].
  destruct rest as [|k' rest']; [apply hasOwn_no_TypeError|].
  unfold mbind at 1, M_bind.
  destruct (hasOwn v k s) as [b s1|e s1] eqn:E1.
  - pose proof (hasOwn_state _ _ _ _ _ E1) as ->. destruct b; [|discriminate].
    destruct (hasOwn_true_getProp _ _ _ _ E1) as [r Hr].
    erewrite bind_ok by exact Hr. apply IH.
  - intros [= -> ->]. by eapply hasOwn_no_TypeError.
Qed.

Lemma isLegacyAnimation_no_TypeError v s s' : isLegacyAnimation v s <> Throw TypeError s'.
Proof.
  assert (Hhas : forall p segs st st', has v p segs st <> Throw TypeError st').
  { intros p segs st st'. unfold has. unfold mbind at 1, M_bind.
    destruct (hasOwn v p st) as [b s1|e s1] eqn:E1.
    - destruct b; apply hasPath_no_TypeError.
    - intros [= -> ->]. by eapply hasOwn_no_TypeError. }
  unfold isLegacyAnimation. unfold mbind at 1, M_bind.
  destruct (has v "content.enter" _ s) as [b s1|e s1] eqn:E1.
  - destruct b; [discriminate|]. unfold mbind, M_bind.
    destruct (has v "content.exit" _ s1) as [b2 s2|e2 s2] eqn:E2; [discriminate|].
    intros [= -> ->]. by eapply Hhas.
  - intros [= -> ->]. by eapply Hhas.
Qed.

(** C10, as amended: take a key [pop] or [push] whose path has no
    registered processor, and let [val] be the truthy value [forEach]
    read for it.  Then every step before the animation transform leaves
    the state as it is, so the transform is entered in a state where the
    parent's entry under the key is that truthy value, neither [null] nor
    [undefined]; and when the value is an object, the transform raises no
    TypeError. *)
Theorem processEntry_animation_entry_present (C : Collaborators) recurse (lo : loc)
    parentOptions onProcess commandName parentPath (val : value) (k : key) (s : State) :
  k = KStr "pop" \/ k = KStr "push" ->
  getProcessors C (resolveObjectPath k parentPath) = None
  \/ getProcessors C (resolveObjectPath k parentPath) = Some [] ->
  getProp (VRef lo) (key_to_string k) s = Ok val s ->
  truthy val = true ->
  processEntry C recurse (VRef lo) parentOptions onProcess commandName parentPath val k s =
    (processAnimation k val (VRef lo) ;;
     onProcess k parentOptions ;;
     processedValue ← getProp (VRef lo) (key_to_string k);
     h ← get_heap;
     if isObject processedValue || isArray h processedValue
     then recurse processedValue (resolveObjectPath k parentPath)
     else mret tt) s
  /\ slot s lo (key_to_string k) = Some val
  /\ nullish val = false
  /\ (forall la a s', val = VRef la -> heap s !! la = Some a ->
        processAnimation k val (VRef lo) s <> Throw TypeError s').
Proof.
  intros Hk Hreg Hget Htr. split; [|split; [|split]].
  - unfold processEntry, processWithRegisteredProcessor. rewrite Htr.
    destruct Hk as [-> | ->]; destruct Hreg as [-> | ->]; reflexivity.
  - unfold slot. unfold getProp, read, mbind, M_bind, mret, M_ret in Hget.
    destruct (heap s !! lo); congruence.
  - by destruct val.
  - intros la a s' -> Ha.
    assert (Hset : forall st ob x, heap st !! la = Some ob ->
              exists st', setProp (VRef la) "content" x st = Ok tt st').
    { intros st ob x Hob. eexists. eapply setProp_ref; [exact Hob | by apply own_set_named]. }
    destruct Hk as [-> | ->]; unfold processAnimation, processPush, processPop, processSetStackRoot; simpl.
    + erewrite bind_ok by reflexivity.
      destruct (isLegacyAnimation (VRef la) s) as [b s1|e s1] eqn:El.
      * pose proof (isLegacyAnimation_state _ _ _ _ El) as ->.
        erewrite bind_assoc, bind_ok by exact El. destruct b.
        -- erewrite bind_assoc, bind_ok by exact Hget.
           erewrite bind_assoc, bind_ok by (apply getProp_ref; exact Ha).
           erewrite bind_assoc, bind_ok by apply alloc_eq.
           edestruct Hset as [st' Hst'];
             [| erewrite bind_ok by exact Hst'; discriminate].
           simpl. rewrite lookup_insert_ne; [exact Ha|].
           intros <-. eapply fresh_ne; eauto.
        -- discriminate.
      * erewrite bind_assoc. erewrite bind_throw by exact El.
        intros [= -> ->]. by eapply isLegacyAnimation_no_TypeError.
    + destruct (isLegacyAnimation (VRef la) s) as [b s1|e s1] eqn:El.
      * pose proof (isLegacyAnimation_state _ _ _ _ El) as ->.
        erewrite bind_assoc, bind_ok by exact El. destruct b.
        -- erewrite bind_assoc, bind_ok by exact Hget.
           erewrite bind_assoc, bind_ok by (apply getProp_ref; exact Ha).
           erewrite bind_assoc, bind_ok by apply alloc_eq.
           edestruct Hset as [st' Hst'];
             [| erewrite bind_ok by exact Hst'; discriminate].
           simpl. rewrite lookup_insert_ne; [exact Ha|].
           intros <-. eapply fresh_ne; eauto.
        -- discriminate.
      * erewrite bind_assoc. erewrite bind_throw by exact El.
        intros [= -> ->]. by eapply isLegacyAnimation_no_TypeError.
Qed.

Lemma processEntry_animation_entry_present_witness :
  let recurse := fun processedValue objectPath =>
    processObject plainCollaborators 3 processedValue (VRef 3%positive) (onProcess_options "push")
      "push" objectPath in
  processEntry plainCollaborators recurse (VRef 1%positive) (VRef 3%positive) (onProcess_options "push")
    "push" VUndefined (VRef 2%positive) (KStr "pop") state_pop =
    (processAnimation (KStr "pop") (VRef 2%positive) (VRef 1%positive) ;;
     onProcess_options "push" (KStr "pop") (VRef 3%positive) ;;
     processedValue ← getProp (VRef 1%positive) "pop";
     h ← get_heap;
     if isObject processedValue || isArray h processedValue
     then recurse processedValue (VStr "pop")
     else mret tt) state_pop
  /\ slot state_pop 1%positive "pop" = Some (VRef 2%positive)
  /\ nullish (VRef 2%positive) = false
  /\ (forall s', processAnimation (KStr "pop") (VRef 2%positive) (VRef 1%positive) state_pop
                 <> Throw TypeError s').
Proof.
  intros recurse.
  destruct (processEntry_animation_entry_present plainCollaborators recurse 1%positive
              (VRef 3%positive) (onProcess_options "push") "push" VUndefined (VRef 2%positive)
              (KStr "pop") state_pop) as (H1 & H2 & H3 & H4).
  - left. reflexivity.
  - left. reflexivity.
  - reflexivity.
  - reflexivity.
  - split; [exact H1|]. split; [exact H2|]. split; [exact H3|].
    intros s'. apply (H4 2%positive (plain [("alpha", VNum 1)]) s'); reflexivity.
Defined.

(** C10, as stated, fails: a processor registered for the path [pop] may
    return [undefined]; the enumerated value is a truthy object, so the
    transform is reached, but the parent's [pop] entry is then
    [undefined] and the assignment to its [content] raises a TypeError
    in the walk of [{ pop: { alpha: 1 } }]. *)
Lemma processPop_missing_entry_counterexample :
  let C := withProcessors "pop" [pure_processor (constantly VUndefined)] in
  exists s',
    processOptions C 3 (VRef 1%positive) "pop" state_pop = Throw TypeError s'
    /\ slot s' 1%positive "pop" = Some VUndefined
    /\ truthy VUndefined = false.
Proof. simpl. eexists. repeat split; vm_compute; reflexivity. Qed.

(** ** Idempotence of the search-bar transform *)

Lemma array_index_pretty k n : array_index k = Some n -> k = pretty n.
Proof.
  unfold array_index. destruct k as [|a k]; [discriminate|].
  destruct (parse_digits 0 (String a k)) as [m|]; [|discriminate].
  destruct (String.eqb (pretty m) (String a k)) eqn:E; simpl; [|discriminate].
  destruct (m <? 4294967295)%N; [|discriminate].
  intros [= <-]. symmetry. by apply String.eqb_eq.
Qed.

Lemma props_get_None k ps : props_get k ps = None <-> k ∉ fst <$> ps.
Proof.
  unfold props_get. induction ps as [|[k' v'] ps IH]; simpl.
  - split; [intros _; apply not_elem_of_nil | done].
  - destruct (String.eqb k' k) eqn:E; simpl.
    + apply String.eqb_eq in E as ->. split; [discriminate|]. intros H. destruct H. left.
    + apply String.eqb_neq in E. rewrite IH, not_elem_of_cons. split; [by split | by intros [_ ?]].
Qed.

Lemma props_get_Some_elem k ps : k ∈ fst <$> ps -> is_Some (props_get k ps).
Proof.
  intros H. destruct (props_get k ps) eqn:E; [eauto|].
  apply props_get_None in E. done.
Qed.

Lemma props_replace_keys k v ps : fst <$> props_replace k v ps = fst <$> ps.
Proof.
  induction ps as [|[k' v'] ps IH]; simpl; [done|].
  destruct (String.eqb k' k); simpl; [done | f_equal; exact IH].
Qed.

Lemma props_replace_middle k v v0 A B :
  k ∉ fst <$> A -> props_replace k v (A ++ (k, v0) :: B) = A ++ (k, v) :: B.
Proof.
  induction A as [|[k' v'] A IH]; simpl; intros Hn.
  - by rewrite String.eqb_refl.
  - apply not_elem_of_cons in Hn as [Hne Hn].
    destruct (String.eqb k' k) eqn:E; [apply String.eqb_eq in E; congruence|].
    by rewrite IH.
Qed.

Lemma props_insert_index_skip n k v A rest :
  Forall (fun p => exists m, array_index (fst p) = Some m /\ (m < n)%N) A ->
  props_insert_index n k v (A ++ rest) = A ++ props_insert_index n k v rest.
Proof.
  induction 1 as [|[k' v'] A (m & Hm & Hlt) _ IH]; simpl; [done|].
  simpl in Hm. rewrite Hm. apply N.ltb_lt in Hlt. by rewrite Hlt, IH.
Qed.

Lemma props_insert_index_stop n k v rest :
  match rest with
  | [] => True
  | p :: _ => match array_index (fst p) with Some m => (n <= m)%N | None => True end
  end ->
  props_insert_index n k v rest = (k, v) :: rest.
Proof.
  destruct rest as [|[k' v'] rest]; simpl; [done|].
  destruct (array_index k') as [m|]; [|done].
  intros H. apply N.ltb_ge in H. by rewrite H.
Qed.

Lemma idx_sorted_weaken lb lb' ks :
  (forall n, lt_bound lb n -> lt_bound lb' n) -> idx_sorted lb ks -> idx_sorted lb' ks.
Proof. destruct ks; simpl; [done|]. intros H (n & ? & ? & ?). eauto 6. Qed.

Lemma idx_sorted_before lb K1 k K2 n :
  idx_sorted lb (K1 ++ k :: K2) -> array_index k = Some n ->
  lt_bound lb n /\ Forall (fun k' => exists m, array_index k' = Some m /\ (m < n)%N) K1.
Proof.
  revert lb. induction K1 as [|k0 K1 IH]; simpl; intros lb (m & Hm & Hlb & Hs) Hn.
  - split; [congruence | constructor].
  - destruct (IH _ Hs Hn) as [Hmn HF]. simpl in Hmn. split.
    + destruct lb; simpl in *; [lia | done].
    + constructor; eauto.
Qed.

Lemma idx_sorted_index lb ks : idx_sorted lb ks -> Forall (fun k => is_Some (array_index k)) ks.
Proof.
  revert lb. induction ks as [|k ks IH]; simpl; intros lb; [constructor|].
  intros (n & Hn & _ & Hs). constructor; [rewrite Hn; eauto | eauto].
Qed.

Lemma props_insert_index_keys n k v : forall KI ps lb rest,
  fst <$> ps = KI ++ rest -> idx_sorted lb KI -> lt_bound lb n ->
  k ∉ KI -> array_index k = Some n ->
  match rest with [] => True | k' :: _ => array_index k' = None end ->
  exists KI', fst <$> props_insert_index n k v ps = KI' ++ rest /\ idx_sorted lb KI'.
Proof.
  induction KI as [|k0 KI IH]; intros ps lb rest Hk Hs Hlb Hnin Hn Hrest.
  - exists [k]. split.
    + rewrite props_insert_index_stop.
      * rewrite fmap_cons. simpl. by f_equal.
      * destruct ps as [|[k' v'] ps]; [done|]. simpl in Hk. subst rest. simpl. by rewrite Hrest.
    + simpl. eauto.
  - destruct ps as [|[k' v'] ps]; [discriminate|].
    simpl in Hk. injection Hk as -> Hk.
    destruct Hs as (m & Hm & Hlbm & Hs). apply not_elem_of_cons in Hnin as [Hne Hnin].
    simpl. rewrite Hm. destruct (m <? n)%N eqn:Elt.
    + apply N.ltb_lt in Elt.
      destruct (IH ps (Some m) rest Hk Hs Elt Hnin Hn Hrest) as (KI' & Hk' & Hs').
      exists (k0 :: KI'). split; [rewrite fmap_cons; simpl; by f_equal | simpl; eauto].
    + apply N.ltb_ge in Elt.
      assert (n <> m).
      { intros ->. apply array_index_pretty in Hm, Hn. congruence. }
      exists (k :: k0 :: KI). split; [rewrite !fmap_cons; simpl; by do 2 f_equal|].
      simpl. exists n. split; [done|]. split; [done|].
      exists m. split; [done|]. split; [simpl; lia | done].
Qed.

Lemma searchBar_shape_set k v ps : searchBar_shape ps -> searchBar_shape (props_set k v ps).
Proof.
  intros (KI & KR & Hk & Hs & Hn & Hd). unfold props_set.
  destruct (props_get k ps) eqn:E.
  - exists KI, KR. by rewrite props_replace_keys.
  - apply props_get_None in E. rewrite Hk in E.
    apply not_elem_of_app in E as [E1 E2].
    destruct (array_index k) as [n|] eqn:En.
    + destruct (props_insert_index_keys n k v KI ps None (searchBar_keys ++ KR)) as (KI' & Hk' & Hs');
        try done.
      exists KI', KR. by repeat split.
    + exists KI, (KR ++ [k]). split; [|split; [|split]].
      * rewrite fmap_app, Hk. simpl. by rewrite <- !app_assoc.
      * done.
      * apply Forall_app. split; [done | by constructor].
      * rewrite app_assoc. apply NoDup_app. split; [done|]. split.
        -- intros x Hx. rewrite list_elem_of_singleton. intros ->. done.
        -- apply NoDup_singleton.
Qed.

Lemma searchBar_shape_assign entries : forall ps,
  searchBar_shape ps -> searchBar_shape (props_assign ps entries).
Proof.
  unfold props_assign. induction entries as [|[k v] entries IH]; intros ps H; simpl; [done|].
  apply IH. by apply searchBar_shape_set.
Qed.

Lemma searchBar_shape_defaults a b c d e :
  searchBar_shape (deprecatedSearchBarOptions a b c d e).
Proof.
  exists [], []. split; [reflexivity|]. split; [done|]. split; [constructor|].
  apply (bool_decide_unpack _). vm_compute. exact I.
Qed.

(** Assigning the entries of a shaped property list, in order, onto any
    object that has just the seven default fields gives the list back. *)
Lemma rebuild_indices (D : list (string * value)) : forall B A,
  idx_sorted None (fst <$> (A ++ B)) ->
  match D with [] => True | p :: _ => array_index (fst p) = None end ->
  Forall (fun p => array_index (fst p) = None) D ->
  props_assign (A ++ D) B = A ++ B ++ D.
Proof.
  unfold props_assign.
  induction B as [|[k v] B IH]; intros A Hs Hhd HD; simpl; [done|].
  rewrite fmap_app, fmap_cons in Hs. simpl in Hs.
  pose proof (idx_sorted_index _ _ Hs) as Hidx.
  apply Forall_app in Hidx as [_ Hidx]. apply Forall_cons in Hidx as [[n Hn] _].
  destruct (idx_sorted_before _ _ _ _ _ Hs Hn) as [_ HA].
  assert (Hnone : props_get k (A ++ D) = None).
  { apply props_get_None. rewrite fmap_app. apply not_elem_of_app. split.
    - intros Hin. rewrite Forall_forall in HA. destruct (HA _ Hin) as (m & Hm & Hlt).
      rewrite Hn in Hm. injection Hm as ->. lia.
    - intros Hin. apply list_elem_of_fmap in Hin as (p & -> & Hp).
      rewrite Forall_forall in HD. rewrite (HD _ Hp) in Hn. discriminate. }
  assert (Hstep : props_set k v (A ++ D) = (A ++ [(k, v)]) ++ D).
  { unfold props_set. rewrite Hnone, Hn.
    rewrite props_insert_index_skip
      by (apply Forall_forall; intros p Hp;
          apply (proj1 (Forall_forall _ _) HA); by apply list_elem_of_fmap_2).
    rewrite props_insert_index_stop; [by rewrite <- app_assoc|].
    destruct D as [|p D]; [done|]. by rewrite Hhd. }
  rewrite Hstep, (IH (A ++ [(k, v)])); [by rewrite <- !app_assoc | | done | done].
  rewrite <- app_assoc, fmap_app. exact Hs.
Qed.

Lemma rebuild_defaults : forall B D A,
  fst <$> B = fst <$> D -> NoDup (fst <$> B) ->
  (forall k, k ∈ fst <$> B -> k ∉ fst <$> A) ->
  props_assign (A ++ D) B = A ++ B.
Proof.
  unfold props_assign.
  induction B as [|[k v] B IH]; intros D A Hk Hnd Hdisj.
  - destruct D; [done | discriminate].
  - destruct D as [|[k0 v0] D]; [discriminate|].
    rewrite !fmap_cons in Hk. simpl in Hk. injection Hk as <- Hk.
    rewrite fmap_cons in Hnd. apply NoDup_cons in Hnd as [Hnin Hnd]. simpl in Hnin.
    assert (HkA : k ∉ fst <$> A) by (apply Hdisj; rewrite fmap_cons; left).
    assert (Hstep : props_set k v (A ++ (k, v0) :: D) = (A ++ [(k, v)]) ++ D).
    { unfold props_set.
      destruct (props_get_Some_elem k (A ++ (k, v0) :: D)) as [x ->].
      - rewrite fmap_app, fmap_cons. apply elem_of_app. right. left.
      - rewrite props_replace_middle by done. by rewrite <- app_assoc. }
    simpl. rewrite Hstep, (IH D (A ++ [(k, v)])); [by rewrite <- app_assoc | done | done |].
    intros k' Hk'. rewrite fmap_app. apply not_elem_of_app. split.
    + apply Hdisj. rewrite fmap_cons. by right.
    + simpl. rewrite list_elem_of_singleton. intros ->. done.
Qed.

Lemma rebuild_others : forall B acc,
  Forall (fun p => array_index (fst p) = None) B -> NoDup (fst <$> B) ->
  (forall k, k ∈ fst <$> B -> k ∉ fst <$> acc) ->
  props_assign acc B = acc ++ B.
Proof.
  unfold props_assign.
  induction B as [|[k v] B IH]; intros acc HB Hnd Hdisj; simpl; [by rewrite app_nil_r|].
  apply Forall_cons in HB as [Hk HB]. simpl in Hk.
  rewrite fmap_cons in Hnd. apply NoDup_cons in Hnd as [Hnin Hnd]. simpl in Hnin.
  assert (Hstep : props_set k v acc = acc ++ [(k, v)]).
  { unfold props_set.
    assert (Hn : props_get k acc = None).
    { apply props_get_None. apply Hdisj. rewrite fmap_cons. left. }
    by rewrite Hn, Hk. }
  rewrite Hstep, IH; [by rewrite <- app_assoc | done | done |].
  intros k' Hk'. rewrite fmap_app. apply not_elem_of_app. split.
  - apply Hdisj. rewrite fmap_cons. by right.
  - simpl. rewrite list_elem_of_singleton. intros ->. done.
Qed.

Lemma props_assign_app ps B1 B2 :
  props_assign ps (B1 ++ B2) = props_assign (props_assign ps B1) B2.
Proof. unfold props_assign. apply foldl_app. Qed.

Lemma props_assign_rebuild D ps :
  fst <$> D = searchBar_keys -> searchBar_shape ps -> props_assign D ps = ps.
Proof.
  intros HD (KI & KR & Hk & Hs & Hn & Hd).
  apply fmap_app_inv in Hk as (PI & rest & -> & Hrest & ->).
  symmetry in Hrest. apply fmap_app_inv in Hrest as (P7 & PR & H7 & -> & ->).
  assert (HDn : Forall (fun p => array_index (fst p) = None) D).
  { assert (HF : Forall (fun k => array_index k = None) (fst <$> D))
      by (rewrite HD; apply (bool_decide_unpack _); vm_compute; exact I).
    apply Forall_forall. intros p Hp.
    apply (proj1 (Forall_forall _ _) HF). by apply list_elem_of_fmap_2. }
  assert (Hidx : forall k, k ∈ fst <$> PI -> is_Some (array_index k)).
  { apply Forall_forall. eapply idx_sorted_index. exact Hs. }
  apply NoDup_app in Hd as (Hd7 & Hd7R & HdR).
  rewrite !props_assign_app.
  replace (props_assign D PI) with (PI ++ D).
  2:{ symmetry. rewrite <- (app_nil_l D) at 1. rewrite (rebuild_indices D PI []).
      - done.
      - exact Hs.
      - destruct D as [|p D]; [done|]. by apply Forall_cons in HDn as [? _].
      - exact HDn. }
  rewrite (rebuild_defaults P7 D PI).
  - rewrite rebuild_others; [by rewrite <- app_assoc | | done |].
    { apply Forall_forall. intros p Hp.
      apply (proj1 (Forall_forall _ _) Hn). by apply list_elem_of_fmap_2. }
    intros k Hk. rewrite fmap_app. apply not_elem_of_app. split.
    + intros Hin. destruct (Hidx _ Hin) as [n Hx].
      rewrite Forall_forall in Hn. rewrite (Hn _ Hk) in Hx. discriminate.
    + intros Hin. rewrite <- H7 in Hin. by apply (Hd7R k).
  - by rewrite HD.
  - by rewrite <- H7.
  - intros k Hk Hin. destruct (Hidx _ Hin) as [n Hx].
    rewrite <- H7 in Hk. revert Hx.
    assert (HF : Forall (fun k => array_index k = None) searchBar_keys)
      by (apply (bool_decide_unpack _); vm_compute; exact I).
    rewrite Forall_forall in HF. rewrite (HF _ Hk). discriminate.
Qed.

Lemma spread_entries_ref s l o :
  heap s !! l = Some o -> spread_entries (VRef l) s = Ok (own_entries o) s.
Proof. intros H. unfold spread_entries, read, mbind, M_bind, mret, M_ret. by rewrite H. Qed.

(** What a successful run of the search-bar transform leaves behind. *)
Lemma processSearchBar_inv s lo val s1 :
  processSearchBar (KStr "searchBar") val (VRef lo) s = Ok tt s1 ->
  exists o a b c d e entries l,
    heap s !! lo = Some o
    /\ l <> lo
    /\ heap s1 !! lo = Some (Obj (o_elems o) (props_set "searchBar" (VRef l) (o_props o)))
    /\ heap s1 !! l = Some (Obj None (props_assign (deprecatedSearchBarOptions a b c d e) entries)).
Proof.
  intros Hrun. destruct (heap s !! lo) as [o|] eqn:Ho.
  2:{ unfold processSearchBar in Hrun. simpl in Hrun.
      erewrite bind_throw in Hrun; [discriminate|].
      unfold getProp, read, mbind, M_bind. by rewrite Ho. }
  assert (Hfinish : forall D h t,
    h !! lo = Some o ->
    (r ← alloc (Obj None D); setProp (VRef lo) "searchBar" r) (mkState h t) = Ok tt s1 ->
    exists l, l <> lo
      /\ heap s1 !! lo = Some (Obj (o_elems o) (props_set "searchBar" (VRef l) (o_props o)))
      /\ heap s1 !! l = Some (Obj None D)).
  { intros D h t Hlo H. erewrite bind_ok in H by apply alloc_eq. simpl in H.
    assert (Hne : lo <> fresh (dom h)) by (eapply fresh_ne; exact Hlo).
    erewrite setProp_ref in H; [| simpl; rewrite lookup_insert_ne by done; exact Hlo
                                 | by apply own_set_named].
    injection H as <-. exists (fresh (dom h)). split; [done|]. simpl. split.
    - by rewrite lookup_insert_eq.
    - rewrite lookup_insert_ne by done. by rewrite lookup_insert_eq. }
  unfold processSearchBar in Hrun. simpl in Hrun.
  do 5 (erewrite bind_ok in Hrun by (apply getProp_ref; exact Ho)).
  erewrite bind_ok in Hrun by apply alloc_eq.
  assert (Hlo1 : <[fresh (dom (heap s)) := Obj None (deprecatedSearchBarOptions
                    (default VUndefined (own_get o "searchBarHiddenWhenScrolling"))
                    (default VUndefined (own_get o "hideNavBarOnFocusSearchBar"))
                    (default VUndefined (own_get o "searchBarBackgroundColor"))
                    (default VUndefined (own_get o "searchBarTintColor"))
                    (default VUndefined (own_get o "searchBarPlaceholder")))]> (heap s) !! lo
                 = Some o).
  { rewrite lookup_insert_ne; [done|]. intros <-. eapply fresh_ne; eauto. }
  pose (a := default VUndefined (own_get o "searchBarHiddenWhenScrolling")).
  pose (b := default VUndefined (own_get o "hideNavBarOnFocusSearchBar")).
  pose (c := default VUndefined (own_get o "searchBarBackgroundColor")).
  pose (d := default VUndefined (own_get o "searchBarTintColor")).
  pose (e := default VUndefined (own_get o "searchBarPlaceholder")).
  destruct val as [| |bv|z|sv|lv].
  3:{ erewrite bind_ok in Hrun by reflexivity.
      destruct (Hfinish _ _ _ Hlo1 Hrun) as (l & H1 & H2 & H3).
      exists o, a, b, c, d, e, [("visible", VBool bv)], l.
      split; [done|]. split; [done|]. split; [done|]. exact H3. }
  all: match type of Hrun with
       | (spread_entries ?v ≫= _) ?st = _ =>
           destruct (spread_entries v st) as [es s'|] eqn:Es;
           [ pose proof (spread_entries_state _ _ _ _ Es) as ->;
             erewrite bind_ok in Hrun by exact Es
           | erewrite bind_throw in Hrun by exact Es; discriminate ]
       end.
  all: destruct (Hfinish _ _ _ Hlo1 Hrun) as (l & H1 & H2 & H3).
  all: exists o, a, b, c, d, e, es, l.
  all: split; [done|]; split; [done|]; split; [done|]; exact H3.
Qed.

(** C9: take the object the search-bar transform stored in the slot (for
    any incoming value: a boolean, an object, ...) and apply the
    transform again to it, with the same parent node.  The second
    application succeeds and stores a new object with exactly the same
    properties: same names, same order, same values.  Every field of the
    rebuilt defaults is overwritten by the incoming object, so nothing
    changes shape; the incoming object itself is not modified. *)
Theorem processSearchBar_idempotent (s : State) (lo : loc) (val : value) (s1 : State)
    (l1 : loc) (c : object) :
  processSearchBar (KStr "searchBar") val (VRef lo) s = Ok tt s1 ->
  slot s1 lo "searchBar" = Some (VRef l1) ->
  heap s1 !! l1 = Some c ->
  exists s2 l2,
    processSearchBar (KStr "searchBar") (VRef l1) (VRef lo) s1 = Ok tt s2
    /\ heap s1 !! l2 = None
    /\ slot s2 lo "searchBar" = Some (VRef l2)
    /\ heap s2 !! l2 = Some c
    /\ heap s2 !! l1 = Some c.
Proof.
  intros Hrun Hslot Hc.
  destruct (processSearchBar_inv _ _ _ _ Hrun) as (o & a & b & c0 & d & e & entries & l & Ho & Hne & Ho1 & Hl).
  assert (l1 = l) as ->.
  { unfold slot in Hslot. rewrite Ho1 in Hslot.
    rewrite own_get_named in Hslot by done. simpl in Hslot.
    rewrite props_get_set_eq in Hslot. simpl in Hslot. congruence. }
  rewrite Hl in Hc. injection Hc as <-.
  set (P := props_assign (deprecatedSearchBarOptions a b c0 d e) entries) in *.
  assert (HP : searchBar_shape P) by apply searchBar_shape_assign, searchBar_shape_defaults.
  set (o1 := Obj (o_elems o) (props_set "searchBar" (VRef l) (o_props o))) in *.
  set (sibling name := default VUndefined (own_get o1 name)).
  set (D := deprecatedSearchBarOptions (sibling "searchBarHiddenWhenScrolling")
              (sibling "hideNavBarOnFocusSearchBar") (sibling "searchBarBackgroundColor")
              (sibling "searchBarTintColor") (sibling "searchBarPlaceholder")).
  set (la := fresh (dom (heap s1))).
  set (h1 := <[la := Obj None D]> (heap s1)).
  set (l2 := fresh (dom h1)).
  assert (Hla_lo : lo <> la) by (eapply fresh_ne; exact Ho1).
  assert (Hla_l : l <> la) by (eapply fresh_ne; exact Hl).
  assert (H1lo : h1 !! lo = Some o1) by (unfold h1; by rewrite lookup_insert_ne).
  assert (H1l : h1 !! l = Some (Obj None P)) by (unfold h1; by rewrite lookup_insert_ne).
  assert (Hl2_lo : lo <> l2) by (eapply fresh_ne; exact H1lo).
  assert (Hl2_l : l <> l2) by (eapply fresh_ne; exact H1l).
  assert (Hl2 : heap s1 !! l2 = None).
  { destruct (heap s1 !! l2) eqn:E; [|done].
    assert (Hd : h1 !! l2 = None) by apply fresh_lookup_None.
    unfold h1 in Hd. apply lookup_insert_None in Hd as [Hd _]. congruence. }
  exists (mkState (<[lo := Obj (o_elems o1) (props_set "searchBar" (VRef l2) (o_props o1))]>
                     (<[l2 := Obj None (props_assign D P)]> h1)) (trace s1)), l2.
  split; [|split; [|split; [|split]]].
  - unfold processSearchBar. simpl.
    do 5 (erewrite bind_ok by (apply getProp_ref; exact Ho1)).
    erewrite bind_ok by apply alloc_eq.
    erewrite bind_ok by (apply spread_entries_ref; exact H1l).
    erewrite bind_ok by apply alloc_eq.
    erewrite setProp_ref;
      [reflexivity | simpl; rewrite lookup_insert_ne by done; exact H1lo | by apply own_set_named].
  - exact Hl2.
  - unfold slot. simpl. rewrite lookup_insert_eq. f_equal.
    rewrite own_get_named by done. simpl. by rewrite props_get_set_eq.
  - simpl. rewrite lookup_insert_ne by done. rewrite lookup_insert_eq.
    by rewrite props_assign_rebuild.
  - simpl. rewrite !lookup_insert_ne by done. exact H1l.
Qed.

Lemma processSearchBar_idempotent_witness :
  exists s2 l2,
    processSearchBar (KStr "searchBar") (VRef 4%positive) (VRef 1%positive) state_searchBar_canonical
    = Ok tt s2
    /\ heap state_searchBar_canonical !! l2 = None
    /\ slot s2 1%positive "searchBar" = Some (VRef l2)
    /\ heap s2 !! l2 = Some (plain
         [ ("0", VStr "z"); ("visible", VBool true); ("hideOnScroll", VBool false);
           ("hideTopBarOnFocus", VBool false); ("obscuresBackgroundDuringPresentation", VBool false);
           ("backgroundColor", VUndefined); ("tintColor", VUndefined);
           ("placeholder", VStr "Search"); ("cancelText", VStr "Cancel") ])
    /\ heap s2 !! 4%positive = Some (plain
         [ ("0", VStr "z"); ("visible", VBool true); ("hideOnScroll", VBool false);
           ("hideTopBarOnFocus", VBool false); ("obscuresBackgroundDuringPresentation", VBool false);
           ("backgroundColor", VUndefined); ("tintColor", VUndefined);
           ("placeholder", VStr "Search"); ("cancelText", VStr "Cancel") ]).
Proof.
  apply (processSearchBar_idempotent state_searchBar_object 1%positive (VRef 2%positive)
           state_searchBar_canonical 4%positive); vm_compute; reflexivity.
Defined.

(** ** The parent snapshot *)

Section Preserves.

Context {I : State -> Prop}.

Lemma preserves_ret {A} (Q : A -> Prop) (a : A) : Q a -> preserves I Q (mret a).
Proof. intros HQ s Hs. by split. Qed.

Lemma preserves_throw {A} (Q : A -> Prop) e : preserves I Q (throw e).
Proof. intros s Hs. exact Hs. Qed.

Lemma preserves_bind {A B} (Q : A -> Prop) (R : B -> Prop) (m : M A) (f : A -> M B) :
  preserves I Q m -> (forall a, Q a -> preserves I R (f a)) -> preserves I R (m ≫= f).
Proof.
  intros Hm Hf s Hs. specialize (Hm s Hs). unfold mbind, M_bind.
  destruct (m s) as [a s'|e s']; [|exact Hm].
  destruct Hm as [Hs' Ha]. exact (Hf a Ha s' Hs').
Qed.

Lemma preserves_weaken {A} (Q Q' : A -> Prop) (m : M A) :
  (forall a, Q a -> Q' a) -> preserves I Q m -> preserves I Q' m.
Proof.
  intros HQ Hm s Hs. specialize (Hm s Hs). destruct (m s); [|done].
  destruct Hm. split; auto.
Qed.

Lemma preserves_forM_ {A} (l : list A) (f : A -> M unit) :
  (forall a, a ∈ l -> preserves I (fun _ => True) (f a)) ->
  preserves I (fun _ => True) (forM_ l f).
Proof.
  induction l as [|a l IH]; intros Hf; simpl.
  - by apply preserves_ret.
  - eapply preserves_bind; [apply Hf; left|].
    intros _ _. apply IH. intros b Hb. apply Hf. by right.
Qed.

(** A computation that only reads keeps any invariant. *)
Lemma preserves_readonly {A} (m : M A) :
  (forall s, final_state (m s) = s) -> preserves I (fun _ => True) m.
Proof.
  intros Hro s Hs. specialize (Hro s). destruct (m s); simpl in Hro; subst; done.
Qed.

End Preserves.

(** *** Values stored in objects *)

Section Values.

Context (P : value -> Prop).
Hypothesis P_undefined : P VUndefined.
Hypothesis P_num : forall z, P (VNum z).
Hypothesis P_str : forall s, P (VStr s).

Lemma props_get_values k ps v :
  Forall P (snd <$> ps) -> props_get k ps = Some v -> P v.
Proof.
  unfold props_get. induction ps as [|[k' v'] ps IH]; simpl; [discriminate|].
  intros HF. apply Forall_cons in HF as [Hv HF].
  destruct (String.eqb k' k); simpl; [by intros [= <-] | auto].
Qed.

Lemma props_replace_values k v ps :
  P v -> Forall P (snd <$> ps) -> Forall P (snd <$> props_replace k v ps).
Proof.
  intros Hv. induction ps as [|[k' v'] ps IH]; simpl; [done|].
  intros HF. apply Forall_cons in HF as [Hv' HF].
  destruct (String.eqb k' k); rewrite fmap_cons; apply Forall_cons; auto.
Qed.

Lemma props_insert_index_values n k v ps :
  P v -> Forall P (snd <$> ps) -> Forall P (snd <$> props_insert_index n k v ps).
Proof.
  intros Hv. induction ps as [|[k' v'] ps IH]; simpl.
  - intros _. by repeat constructor.
  - intros HF. pose proof HF as HF0. apply Forall_cons in HF as [Hv' HF].
    destruct (array_index k') as [m|]; [destruct (m <? n)%N|];
      rewrite fmap_cons; apply Forall_cons; auto.
Qed.

Lemma props_set_values k v ps :
  P v -> Forall P (snd <$> ps) -> Forall P (snd <$> props_set k v ps).
Proof.
  intros Hv HF. unfold props_set. destruct (props_get k ps).
  - by apply props_replace_values.
  - destruct (array_index k).
    + by apply props_insert_index_values.
    + rewrite fmap_app. apply Forall_app. split; [done | by repeat constructor].
Qed.

Lemma props_assign_values entries : forall ps,
  Forall P (snd <$> ps) -> Forall P (snd <$> entries) ->
  Forall P (snd <$> props_assign ps entries).
Proof.
  unfold props_assign. induction entries as [|[k v] entries IH]; intros ps Hps He; simpl; [done|].
  rewrite fmap_cons in He. apply Forall_cons in He as [Hv He].
  apply IH; [by apply props_set_values | done].
Qed.

Lemma string_chars_values s : Forall P (string_chars s).
Proof.
  unfold string_chars. apply Forall_fmap, Forall_forall. intros a _. apply P_str.
Qed.

Lemma own_get_values o k v :
  Forall P (object_values o) -> own_get o k = Some v -> P v.
Proof.
  unfold object_values, own_get. destruct o as [[es|] ps]; simpl; intros HF.
  - apply Forall_app in HF as [He Hp].
    destruct (String.eqb k "length"); [intros [= <-]; apply P_num|].
    destruct (array_index k).
    + intros Hl. rewrite Forall_forall in He. apply He. by eapply list_elem_of_lookup_2.
    + by apply props_get_values.
  - by apply props_get_values.
Qed.

Lemma str_own_get_values s k v : str_own_get s k = Some v -> P v.
Proof.
  unfold str_own_get. destruct (String.eqb k "length"); [intros [= <-]; apply P_num|].
  destruct (array_index k); [|discriminate].
  intros Hl. pose proof (string_chars_values s) as HF.
  rewrite Forall_forall in HF. apply HF. by eapply list_elem_of_lookup_2.
Qed.

Lemma resize_values n es : Forall P es -> Forall P (resize n es).
Proof.
  intros HF. unfold resize. apply Forall_app. split.
  - by apply Forall_take.
  - apply Forall_replicate. apply P_undefined.
Qed.

Lemma own_set_values o k v o' :
  P v -> Forall P (object_values o) -> own_set o k v = Some o' -> Forall P (object_values o').
Proof.
  unfold object_values, own_set. destruct o as [[es|] ps]; simpl; intros Hv HF.
  - apply Forall_app in HF as [He Hp].
    destruct (String.eqb k "length").
    + destruct v; try discriminate.
      destruct ((0 <=? z)%Z && (z <? 4294967296)%Z); [|discriminate].
      intros [= <-]. simpl. apply Forall_app. split; [by apply resize_values | done].
    + destruct (array_index k).
      * intros [= <-]. simpl. apply Forall_app. split; [|done].
        apply Forall_insert; [by apply resize_values | done].
      * intros [= <-]. simpl. apply Forall_app. split; [done | by apply props_set_values].
  - intros [= <-]. simpl. by apply props_set_values.
Qed.

Lemma own_entries_values o :
  Forall P (object_values o) -> Forall P (snd <$> own_entries o).
Proof.
  unfold object_values, own_entries. destruct o as [[es|] ps]; simpl; [|done].
  intros HF. apply Forall_app in HF as [He Hp]. rewrite fmap_app. apply Forall_app. split; [|done].
  apply Forall_forall. intros v Hv.
  apply list_elem_of_fmap in Hv as ([k v'] & -> & Hin).
  apply list_elem_of_lookup in Hin as [i Hi]. rewrite list_lookup_imap in Hi.
  destruct (es !! i) as [x|] eqn:Ex; simpl in Hi; [|discriminate].
  injection Hi as _ <-. rewrite Forall_forall in He. apply He. by eapply list_elem_of_lookup_2.
Qed.

End Values.

(** *** The heap primitives keep the snapshot invariant *)

Section Snapshot.

Context (snap : loc) (osnap : object).

Let safe (v : value) : Prop := v <> VRef snap.
Let Inv := snapshot_inv snap osnap.
Let anything {A} : A -> Prop := fun _ => True.

Lemma safe_values_of (o : object) : VRef snap ∉ object_values o -> Forall safe (object_values o).
Proof. intros Hn. apply Forall_forall. intros v Hv ->. done. Qed.

Lemma values_safe_of (o : object) : Forall safe (object_values o) -> VRef snap ∉ object_values o.
Proof. intros HF Hin. rewrite Forall_forall in HF. by apply (HF _ Hin). Qed.

Lemma getProp_preserves v k : preserves Inv safe (getProp v k).
Proof.
  intros s Hs. pose proof (getProp_final v k s) as Hfin.
  destruct (getProp v k s) as [r s'|e s'] eqn:E; simpl in Hfin; subst s'; [|done].
  split; [done|].
  unfold getProp, read, throw, mbind, M_bind, mret, M_ret in E.
  destruct v; try (injection E as <-; done); try discriminate.
  - injection E as <-. destruct (str_own_get s0 k) eqn:Eo; simpl; [|done].
    eapply (str_own_get_values safe); eauto; done.
  - destruct (heap s !! l) as [o|] eqn:Ho; [|discriminate]. injection E as <-.
    destruct (own_get o k) eqn:Eo; simpl; [|done].
    eapply (own_get_values safe); eauto; try done.
    apply safe_values_of. destruct Hs as (_ & H2 & _). eauto.
Qed.

Lemma write_keeps s l o :
  Inv s -> l <> snap -> Forall safe (object_values o) ->
  Inv (mkState (<[l := o]> (heap s)) (trace s)).
Proof.
  intros (H1 & H2 & H3) Hl Ho. split; [|split]; simpl.
  - by rewrite lookup_insert_ne.
  - intros l' o'. rewrite lookup_insert. case_decide.
    + intros [= <-]. by apply values_safe_of.
    + apply H2.
  - exact H3.
Qed.

Lemma setProp_preserves v k x :
  safe v -> safe x -> preserves Inv anything (setProp v k x).
Proof.
  intros Hv Hx s Hs. unfold setProp.
  destruct v; try exact Hs.
  unfold read, write, throw, mbind, M_bind.
  destruct (heap s !! l) as [o|] eqn:Ho; [|exact Hs].
  destruct (own_set o k x) as [o'|] eqn:Hset; [|exact Hs].
  split; [|done]. apply write_keeps; [done | congruence |].
  eapply (own_set_values safe); eauto; try done.
  apply safe_values_of. destruct Hs as (_ & H2 & _). eauto.
Qed.

Lemma alloc_preserves o :
  Forall safe (object_values o) -> preserves Inv safe (alloc o).
Proof.
  intros Ho s Hs. unfold alloc.
  assert (Hne : fresh (dom (heap s)) <> snap).
  { intros Heq. destruct Hs as (H1 & _). rewrite <- Heq, fresh_lookup_None in H1. discriminate. }
  split; [by apply write_keeps | congruence].
Qed.

Lemma emit_preserves (e : Heap -> event) :
  (forall h h', event_parent_heap (e h) = Some (VRef snap, h') -> h' = h) ->
  preserves Inv anything (emit e).
Proof.
  intros He s (H1 & H2 & H3). unfold emit. split; [|done]. split; [|split]; simpl; try done.
  intros ev h Hin Hev. apply elem_of_app in Hin as [Hin|Hin]; [eauto|].
  apply list_elem_of_singleton in Hin as ->. by rewrite (He _ _ Hev).
Qed.

Lemma readonly_preserves {A} (m : M A) :
  (forall s, final_state (m s) = s) -> preserves Inv anything m.
Proof. apply preserves_readonly. Qed.

Lemma spread_entries_preserves v :
  preserves Inv (fun es => Forall safe (snd <$> es)) (spread_entries v).
Proof.
  intros s Hs. pose proof (spread_entries_final v s) as Hfin.
  destruct (spread_entries v s) as [r s'|e s'] eqn:E; simpl in Hfin; subst s'; [|done].
  split; [done|].
  unfold spread_entries, read, mbind, M_bind, mret, M_ret in E.
  destruct v; try (simplify_eq; by constructor).
  - simplify_eq. apply Forall_forall. intros x Hx.
    apply list_elem_of_fmap in Hx as ([k v'] & -> & Hin).
    apply list_elem_of_lookup in Hin as [i Hi]. rewrite list_lookup_imap in Hi.
    destruct (string_chars s0 !! i) as [c|] eqn:Ec; simpl in Hi; [|discriminate].
    injection Hi as _ <-. simpl.
    pose proof (string_chars_values safe ltac:(done) s0) as HF.
    rewrite Forall_forall in HF. apply HF. by eapply list_elem_of_lookup_2.
  - destruct (heap s !! l) as [o|] eqn:Ho; [|discriminate]. simplify_eq.
    apply (own_entries_values safe). apply safe_values_of.
    destruct Hs as (_ & H2 & _). eauto.
Qed.

End Snapshot.

(** *** The walk keeps the snapshot invariant *)

Section SnapshotWalk.

Context (snap : loc) (osnap : object) (C : Collaborators).
Hypothesis C_respects : collaborators_respect C snap osnap.

Let safe (v : value) : Prop := v <> VRef snap.
Let Inv := snapshot_inv snap osnap.
Let anything {A} : A -> Prop := fun _ => True.

Tactic Notation "pbind" constr(lem) "as" ident(x) ident(Hx) :=
  eapply preserves_bind; [apply lem | intros x Hx].
Ltac pdone := apply preserves_ret; done.

Lemma forEach_preserves collection (f : value -> key -> M unit) :
  (forall v k, safe v -> preserves Inv anything (f v k)) ->
  preserves Inv anything (forEach collection f).
Proof.
  intros Hf. unfold forEach.
  eapply preserves_bind; [apply (readonly_preserves snap osnap), collection_keys_final|].
  intros ks _. apply preserves_forM_. intros k _.
  pbind (getProp_preserves snap osnap) as v Hv. by apply Hf.
Qed.

Lemma processWithRegisteredProcessor_preserves k val options path cmd :
  safe val -> safe options ->
  preserves Inv anything (processWithRegisteredProcessor C k val options path cmd).
Proof.
  intros Hv Ho. unfold processWithRegisteredProcessor.
  destruct (getProcessors C path) as [ps|] eqn:Hps; [|pdone].
  apply preserves_forM_. intros p Hp.
  eapply preserves_bind.
  - destruct C_respects as (H & _). by eapply H.
  - intros r Hr. by apply setProp_preserves.
Qed.

Lemma processColor_preserves k val options :
  safe val -> safe options -> preserves Inv anything (processColor C k val options).
Proof.
  intros Hv Ho. unfold processColor.
  destruct (isEqual k "color" || endsWith k "Color"); [|pdone].
  eapply preserves_bind with (Q := safe).
  - destruct C_respects as (_ & H & _).
    destruct val; try (by apply H). by apply preserves_ret.
  - intros r Hr. by apply setProp_preserves.
Qed.

Lemma processImage_preserves k val options :
  safe val -> safe options -> preserves Inv anything (processImage C k val options).
Proof.
  intros Hv Ho. unfold processImage.
  destruct (isEqual k "icon" || isEqual k "image" || endsWith k "Icon" || endsWith k "Image"); [|pdone].
  eapply preserves_bind with (Q := safe).
  - destruct (isString val); [by apply preserves_ret|].
    destruct C_respects as (_ & _ & H & _). by apply H.
  - intros r Hr. by apply setProp_preserves.
Qed.

Lemma store_updateProps_preserves id props : preserves Inv anything (store_updateProps id props).
Proof. apply emit_preserves. discriminate. Qed.

Lemma processButtonsPassProps_preserves k val :
  preserves Inv anything (processButtonsPassProps k val).
Proof.
  unfold processButtonsPassProps. destruct (endsWith k "Buttons"); [|pdone].
  apply forEach_preserves. intros button _ Hb.
  pbind (getProp_preserves snap osnap) as pp Hpp. destruct (truthy pp); [|pdone].
  pbind (getProp_preserves snap osnap) as id Hid. destruct (truthy id); [|pdone].
  pbind (getProp_preserves snap osnap) as id' Hid'.
  pbind (getProp_preserves snap osnap) as pp' Hpp'.
  pbind store_updateProps_preserves as u Hu. by apply setProp_preserves.
Qed.

Lemma processComponent_preserves k val options :
  safe val -> safe options -> preserves Inv anything (processComponent C k val options).
Proof.
  intros Hv Ho. unfold processComponent. destruct (isEqual k "component"); [|pdone].
  pbind (getProp_preserves snap osnap) as id Hid.
  eapply preserves_bind with (Q := safe).
  { destruct (truthy id); [apply getProp_preserves|].
    destruct C_respects as (_ & _ & _ & Hgen). apply Hgen. }
  intros cid Hcid. eapply preserves_bind; [by apply setProp_preserves | intros _ _].
  pbind (getProp_preserves snap osnap) as name Hname.
  eapply preserves_bind; [apply emit_preserves; discriminate | intros _ _].
  pbind (getProp_preserves snap osnap) as pp Hpp.
  eapply preserves_bind with (Q := anything).
  { destruct (truthy pp); [|pdone].
    pbind (getProp_preserves snap osnap) as cid' Hcid'.
    pbind (getProp_preserves snap osnap) as pp' Hpp'.
    apply store_updateProps_preserves. }
  intros _ _. pbind (getProp_preserves snap osnap) as sl Hsl. by apply setProp_preserves.
Qed.

Lemma coalesce_safe a b : safe a -> safe b -> safe (coalesce a b).
Proof. intros Ha Hb. unfold coalesce. by destruct (nullish a). Qed.

Lemma deprecatedSearchBarOptions_safe a b c d e :
  safe a -> safe b -> safe c -> safe d -> safe e ->
  Forall safe (snd <$> deprecatedSearchBarOptions a b c d e).
Proof.
  intros. unfold deprecatedSearchBarOptions. simpl.
  repeat (apply Forall_cons; split); try apply coalesce_safe; try done.
Qed.

Lemma onProcessOptions_preserves k p cmd :
  preserves Inv anything (deprecations_onProcessOptions k p cmd).
Proof. apply emit_preserves. simpl. congruence. Qed.

Lemma processSearchBar_preserves k val options :
  safe val -> safe options -> preserves Inv anything (processSearchBar k val options).
Proof.
  intros Hv Ho. unfold processSearchBar. destruct (negb (isEqual k "searchBar")); [pdone|].
  pbind (getProp_preserves snap osnap) as a Ha.
  pbind (getProp_preserves snap osnap) as a0 Ha0.
  pbind (getProp_preserves snap osnap) as a1 Ha1.
  pbind (getProp_preserves snap osnap) as a2 Ha2.
  pbind (getProp_preserves snap osnap) as a3 Ha3.
  assert (HD : Forall safe (snd <$> deprecatedSearchBarOptions a a0 a1 a2 a3))
    by by apply deprecatedSearchBarOptions_safe.
  eapply preserves_bind; [by apply alloc_preserves | intros _ _].
  assert (Hfin : forall entries, Forall safe (snd <$> entries) ->
    preserves Inv anything
      (r ← alloc (Obj None (props_assign (deprecatedSearchBarOptions a a0 a1 a2 a3) entries));
       setProp options (key_to_string k) r)).
  { intros entries He. eapply preserves_bind.
    - apply alloc_preserves. unfold object_values. simpl.
      by apply (props_assign_values safe).
    - intros r Hr. by apply setProp_preserves. }
  destruct val; try (pbind (spread_entries_preserves snap osnap) as es Hes; by apply Hfin).
  pbind onProcessOptions_preserves as u Hu. apply Hfin. by repeat constructor.
Qed.

Lemma processInterpolation_preserves k val options :
  safe options -> preserves Inv anything (processInterpolation k val options).
Proof.
  intros Ho. unfold processInterpolation.
  destruct (isEqual k "interpolation"); [|pdone]. destruct (isString val); [|pdone].
  pbind onProcessOptions_preserves as u Hu. pbind (getProp_preserves snap osnap) as cur Hcur.
  eapply preserves_bind.
  - apply alloc_preserves. unfold object_values. simpl. by repeat constructor.
  - intros r Hr. by apply setProp_preserves.
Qed.

Lemma isLegacyAnimation_preserves v : preserves Inv anything (isLegacyAnimation v).
Proof. apply (readonly_preserves snap osnap), isLegacyAnimation_final. Qed.

Lemma processSetStackRoot_preserves k val options :
  safe val -> safe options -> preserves Inv anything (processSetStackRoot k val options).
Proof.
  intros Hv Ho. unfold processSetStackRoot. destruct (negb (isEqual k "setStackRoot")); [pdone|].
  pbind isLegacyAnimation_preserves as leg Hleg. destruct leg; [|pdone].
  eapply preserves_bind.
  { apply alloc_preserves. unfold object_values. simpl. by repeat constructor. }
  intros content Hc. eapply preserves_bind.
  { apply alloc_preserves. unfold object_values. simpl. by repeat constructor. }
  intros r Hr. by apply setProp_preserves.
Qed.

Lemma processPop_preserves k val options :
  preserves Inv anything (processPop k val options).
Proof.
  unfold processPop. destruct (negb (isEqual k "pop")); [pdone|].
  pbind isLegacyAnimation_preserves as leg Hleg. destruct leg; [|pdone].
  pbind (getProp_preserves snap osnap) as entry Hentry.
  pbind (getProp_preserves snap osnap) as content Hcontent.
  eapply preserves_bind.
  { apply alloc_preserves. unfold object_values. simpl. by repeat constructor. }
  intros r Hr. by apply setProp_preserves.
Qed.

Lemma processPush_preserves k val options :
  preserves Inv anything (processPush k val options).
Proof.
  unfold processPush. destruct (negb (isEqual k "push")); [pdone|].
  pbind isLegacyAnimation_preserves as leg Hleg. destruct leg; [|pdone].
  pbind (getProp_preserves snap osnap) as entry Hentry.
  pbind (getProp_preserves snap osnap) as content Hcontent.
  eapply preserves_bind.
  { apply alloc_preserves. unfold object_values. simpl. by repeat constructor. }
  intros r Hr. by apply setProp_preserves.
Qed.

Lemma processAnimation_preserves k val options :
  safe val -> safe options -> preserves Inv anything (processAnimation k val options).
Proof.
  intros Hv Ho. unfold processAnimation.
  pbind processPush_preserves as u Hu. pbind processPop_preserves as u' Hu'.
  by apply processSetStackRoot_preserves.
Qed.

Lemma processEntry_preserves recurse objectToProcess parentOptions onProcess cmd parentPath val k :
  (forall pv path, safe pv -> preserves Inv anything (recurse pv path)) ->
  (forall k', preserves Inv anything (onProcess k' parentOptions)) ->
  safe objectToProcess -> safe val ->
  preserves Inv anything
    (processEntry C recurse objectToProcess parentOptions onProcess cmd parentPath val k).
Proof.
  intros Hrec Hcb Ho Hv. unfold processEntry.
  eapply preserves_bind; [by apply processWithRegisteredProcessor_preserves | intros _ _].
  eapply preserves_bind; [by apply processColor_preserves | intros _ _].
  destruct (negb (truthy val)); [pdone|].
  eapply preserves_bind; [by apply processComponent_preserves | intros _ _].
  eapply preserves_bind; [by apply processImage_preserves | intros _ _].
  eapply preserves_bind; [by apply processButtonsPassProps_preserves | intros _ _].
  eapply preserves_bind; [by apply processSearchBar_preserves | intros _ _].
  eapply preserves_bind; [by apply processInterpolation_preserves | intros _ _].
  eapply preserves_bind; [by apply processAnimation_preserves | intros _ _].
  eapply preserves_bind; [apply Hcb | intros _ _].
  pbind (getProp_preserves snap osnap) as pv Hpv.
  eapply preserves_bind; [apply (readonly_preserves snap osnap); reflexivity | intros h _].
  destruct (negb (isEqual k "passProps") && (isObject pv || isArray h pv)); [|pdone].
  by apply Hrec.
Qed.

Lemma processObject_preserves fuel : forall objectToProcess parentOptions onProcess cmd parentPath,
  (forall k', preserves Inv anything (onProcess k' parentOptions)) ->
  safe objectToProcess ->
  preserves Inv anything (processObject C fuel objectToProcess parentOptions onProcess cmd parentPath).
Proof.
  induction fuel as [|fuel IH]; intros o p cb cmd path Hcb Ho; simpl.
  - apply preserves_throw.
  - apply forEach_preserves. intros v k Hv.
    apply processEntry_preserves; try done.
    intros pv path' Hpv. by apply IH.
Qed.

Lemma onProcess_options_preserves cmd k p : preserves Inv anything (onProcess_options cmd k p).
Proof.
  unfold onProcess_options. pbind onProcessOptions_preserves as u Hu.
  apply emit_preserves. simpl. congruence.
Qed.

Lemma onProcess_defaultOptions_preserves k p : preserves Inv anything (onProcess_defaultOptions k p).
Proof. apply emit_preserves. simpl. congruence. Qed.

End SnapshotWalk.

Lemma plainCollaborators_respect snap osnap :
  collaborators_respect plainCollaborators snap osnap.
Proof.
  split; [|split; [|split]].
  - intros path ps p v cmd Hps. discriminate.
  - intros v Hv. apply preserves_ret. by destruct v.
  - intros v Hv. by apply preserves_ret.
  - intros prefix. by apply preserves_ret.
Qed.

Lemma clone_plain s lo o :
  heap s !! lo = Some o -> o_elems o = None ->
  clone (VRef lo) s = Ok (VRef (fresh (dom (heap s))))
                        (mkState (<[fresh (dom (heap s)) := o]> (heap s)) (trace s)).
Proof.
  intros Ho He. unfold clone. erewrite bind_ok by (unfold read; by rewrite Ho).
  rewrite He. destruct o as [es ps]. simpl in He. subst es. reflexivity.
Qed.

Lemma snapshot_inv_after_clone s lo o :
  heap s !! lo = Some o -> state_closed s ->
  snapshot_inv (fresh (dom (heap s))) o
    (mkState (<[fresh (dom (heap s)) := o]> (heap s)) (trace s)).
Proof.
  intros Ho [Hheap Htrace].
  assert (Hfresh : forall l', is_Some (heap s !! l') -> l' <> fresh (dom (heap s))).
  { intros l' [x Hx]. by eapply fresh_ne. }
  split; [|split]; simpl.
  - apply lookup_insert_eq.
  - intros l o'. rewrite lookup_insert. case_decide.
    + intros [= <-] Hin. by eapply Hfresh; [eapply Hheap|]; eauto.
    + intros Hl Hin. by eapply Hfresh; [eapply Hheap|]; eauto.
  - intros e h Hin He. exfalso. by eapply Hfresh; [eapply Htrace|]; eauto.
Qed.

(** *** The per-visit callback is handed the snapshot *)

Lemma callback_events_app t1 t2 :
  callback_events (t1 ++ t2) = callback_events t1 ++ callback_events t2.
Proof. apply List.filter_app. Qed.

Lemma callback_events_elem e t : e ∈ callback_events t -> e ∈ t.
Proof.
  unfold callback_events. rewrite !list_elem_of_In, List.filter_In. by intros [? _].
Qed.

Section Appends.

Context (P : event -> Prop).

Lemma appends_hookless {A} (m : M A) : hookless m -> appends P m.
Proof. intros Hm s. exists []. by rewrite app_nil_r. Qed.

Lemma appends_fixed {A} (m : M A) :
  (forall s, trace (final_state (m s)) = trace s) -> appends P m.
Proof. intros Hm. apply appends_hookless. intros s. by rewrite Hm. Qed.

Lemma appends_ret {A} (a : A) : appends P (mret a).
Proof. by apply appends_fixed. Qed.

Lemma appends_throw {A} e : appends P (@throw A e).
Proof. by apply appends_fixed. Qed.

Lemma appends_bind {A B} (m : M A) (f : A -> M B) :
  appends P m -> (forall a, appends P (f a)) -> appends P (m ≫= f).
Proof.
  intros Hm Hf s. destruct (Hm s) as (evs1 & E1 & F1). unfold mbind, M_bind.
  destruct (m s) as [a s1|e s1]; simpl in E1.
  - destruct (Hf a s1) as (evs2 & E2 & F2). exists (evs1 ++ evs2).
    rewrite E2, E1, <- app_assoc. split; [done | by apply Forall_app].
  - by exists evs1.
Qed.

Lemma appends_forM_ {A} (l : list A) (f : A -> M unit) :
  (forall a, appends P (f a)) -> appends P (forM_ l f).
Proof.
  intros Hf. induction l as [|a l IH]; simpl; [apply appends_ret|].
  apply appends_bind; [apply Hf | intros _; apply IH].
Qed.

Lemma appends_emit (e : Heap -> event) :
  (forall h, is_callback_event (e h) = true -> P (e h)) -> appends P (emit e).
Proof.
  intros He s. unfold emit. simpl. rewrite callback_events_app. eexists. split; [reflexivity|].
  simpl. destruct (is_callback_event (e (heap s))) eqn:E; [|constructor].
  constructor; [by apply He | constructor].
Qed.

Lemma appends_read l : appends P (read l).
Proof. apply appends_fixed. intros s. unfold read. by destruct (heap s !! l). Qed.

Lemma appends_getProp v k : appends P (getProp v k).
Proof. apply appends_fixed. intros s. by rewrite getProp_final. Qed.

Lemma appends_setProp v k x : appends P (setProp v k x).
Proof.
  apply appends_fixed. intros s. unfold setProp. destruct v; try reflexivity.
  unfold read, write, mbind, M_bind. destruct (heap s !! l) as [o|]; [|reflexivity].
  by destruct (own_set o k x).
Qed.

Lemma appends_alloc o : appends P (alloc o).
Proof. by apply appends_fixed. Qed.

Lemma appends_get_heap : appends P get_heap.
Proof. by apply appends_fixed. Qed.

Lemma appends_isLegacyAnimation v : appends P (isLegacyAnimation v).
Proof. apply appends_fixed. intros s. by rewrite isLegacyAnimation_final. Qed.

Lemma appends_spread_entries v : appends P (spread_entries v).
Proof. apply appends_fixed. intros s. by rewrite spread_entries_final. Qed.

Lemma appends_collection_keys v : appends P (collection_keys v).
Proof. apply appends_fixed. intros s. by rewrite collection_keys_final. Qed.

Lemma appends_forEach v (f : value -> key -> M unit) :
  (forall x k, appends P (f x k)) -> appends P (forEach v f).
Proof.
  intros Hf. unfold forEach. apply appends_bind; [apply appends_collection_keys|].
  intros ks. apply appends_forM_. intros k.
  apply appends_bind; [apply appends_getProp | intros x; apply Hf].
Qed.

Lemma appends_store_updateProps id props : appends P (store_updateProps id props).
Proof. apply appends_emit. discriminate. Qed.

Lemma appends_store_ensureClassForName name : appends P (store_ensureClassForName name).
Proof. apply appends_emit. discriminate. Qed.

(** The notification made from inside a transform. *)
Lemma appends_transform_notification k p : appends P (deprecations_onProcessOptions k p "").
Proof. apply appends_emit. discriminate. Qed.

End Appends.

Section AppendsWalk.

Context (C : Collaborators) (P : event -> Prop).
Hypothesis C_hookless : collaborators_hookless C.

Ltac hbind lem := apply appends_bind; [apply lem | intros ?].

Lemma appends_processWithRegisteredProcessor k val options path cmd :
  appends P (processWithRegisteredProcessor C k val options path cmd).
Proof.
  unfold processWithRegisteredProcessor.
  destruct (getProcessors C path) as [ps|] eqn:E; [|apply appends_ret].
  assert (Hps : forall p, p ∈ ps -> hookless (p val cmd)).
  { intros p Hp. destruct C_hookless as (H & _). by eapply H. }
  clear E. induction ps as [|p ps IH]; simpl; [apply appends_ret|].
  apply appends_bind.
  - apply appends_bind; [apply appends_hookless, Hps; left | intros r; apply appends_setProp].
  - intros _. apply IH. intros p' Hp'. apply Hps. by right.
Qed.

Lemma appends_processColor k val options : appends P (processColor C k val options).
Proof.
  unfold processColor. destruct (_ || _); [|apply appends_ret].
  apply appends_bind; [|intros r; apply appends_setProp].
  destruct C_hookless as (_ & H & _).
  destruct val; try (apply appends_hookless, H). apply appends_ret.
Qed.

Lemma appends_processImage k val options : appends P (processImage C k val options).
Proof.
  unfold processImage. destruct (_ || _); [|apply appends_ret].
  apply appends_bind; [|intros r; apply appends_setProp].
  destruct C_hookless as (_ & _ & H & _).
  destruct (isString val); [apply appends_ret | apply appends_hookless, H].
Qed.

Lemma appends_processButtonsPassProps k val : appends P (processButtonsPassProps k val).
Proof.
  unfold processButtonsPassProps. destruct (endsWith k "Buttons"); [|apply appends_ret].
  apply appends_forEach. intros button _.
  hbind appends_getProp. destruct (truthy _); [|apply appends_ret].
  hbind appends_getProp. destruct (truthy _); [|apply appends_ret].
  hbind appends_getProp. hbind appends_getProp.
  hbind appends_store_updateProps. apply appends_setProp.
Qed.

Lemma appends_processComponent k val options : appends P (processComponent C k val options).
Proof.
  unfold processComponent. destruct (isEqual k "component"); [|apply appends_ret].
  hbind appends_getProp.
  apply appends_bind.
  { destruct (truthy _); [apply appends_getProp|].
    destruct C_hookless as (_ & _ & _ & H). apply appends_hookless, H. }
  intros cid. hbind appends_setProp. hbind appends_getProp.
  hbind appends_store_ensureClassForName. hbind appends_getProp.
  apply appends_bind.
  { destruct (truthy _); [|apply appends_ret].
    hbind appends_getProp. hbind appends_getProp. apply appends_store_updateProps. }
  intros _. hbind appends_getProp. apply appends_setProp.
Qed.

Lemma appends_processSearchBar k val options : appends P (processSearchBar k val options).
Proof.
  unfold processSearchBar. destruct (negb _); [apply appends_ret|].
  do 5 hbind appends_getProp. hbind appends_alloc.
  destruct val;
    try (hbind appends_spread_entries; hbind appends_alloc; apply appends_setProp).
  hbind appends_transform_notification. hbind appends_alloc. apply appends_setProp.
Qed.

Lemma appends_processInterpolation k val options :
  appends P (processInterpolation k val options).
Proof.
  unfold processInterpolation. destruct (isEqual _ _); [|apply appends_ret].
  destruct (isString val); [|apply appends_ret].
  hbind appends_transform_notification. hbind appends_getProp. hbind appends_alloc.
  apply appends_setProp.
Qed.

Lemma appends_processAnimation k val options : appends P (processAnimation k val options).
Proof.
  unfold processAnimation, processPush, processPop, processSetStackRoot.
  apply appends_bind.
  { destruct (negb _); [apply appends_ret|]. hbind appends_isLegacyAnimation.
    destruct a; [|apply appends_ret].
    hbind appends_getProp. hbind appends_getProp. hbind appends_alloc. apply appends_setProp. }
  intros _. apply appends_bind.
  { destruct (negb _); [apply appends_ret|]. hbind appends_isLegacyAnimation.
    destruct a; [|apply appends_ret].
    hbind appends_getProp. hbind appends_getProp. hbind appends_alloc. apply appends_setProp. }
  intros _. destruct (negb _); [apply appends_ret|]. hbind appends_isLegacyAnimation.
  destruct a; [|apply appends_ret].
  hbind appends_alloc. hbind appends_alloc. apply appends_setProp.
Qed.

Lemma appends_processEntry recurse objectToProcess parentOptions onProcess cmd parentPath val k :
  (forall v p, appends P (recurse v p)) ->
  (forall k', appends P (onProcess k' parentOptions)) ->
  appends P (processEntry C recurse objectToProcess parentOptions onProcess cmd parentPath val k).
Proof.
  intros Hrec Hon. unfold processEntry.
  hbind appends_processWithRegisteredProcessor. hbind appends_processColor.
  destruct (negb _); [apply appends_ret|].
  hbind appends_processComponent. hbind appends_processImage.
  hbind appends_processButtonsPassProps. hbind appends_processSearchBar.
  hbind appends_processInterpolation. hbind appends_processAnimation.
  hbind Hon. hbind appends_getProp. hbind appends_get_heap.
  destruct (_ && _); [apply Hrec | apply appends_ret].
Qed.

Lemma appends_processObject parentOptions onProcess cmd :
  (forall k', appends P (onProcess k' parentOptions)) ->
  forall fuel objectToProcess parentPath,
    appends P (processObject C fuel objectToProcess parentOptions onProcess cmd parentPath).
Proof.
  intros Hon. induction fuel as [|fuel IH]; intros obj path; simpl.
  - apply appends_throw.
  - apply appends_forEach. intros x k. apply appends_processEntry; [|exact Hon].
    intros v p. apply IH.
Qed.

End AppendsWalk.

Lemma appends_onProcess_options cmd k p : appends (handed p) (onProcess_options cmd k p).
Proof.
  unfold onProcess_options. apply appends_bind; [|intros _]; apply appends_emit; intros h _;
    by eexists.
Qed.

Lemma appends_onProcess_defaultOptions k p : appends (handed p) (onProcess_defaultOptions k p).
Proof. apply appends_emit. intros h _. by eexists. Qed.

Lemma plainCollaborators_hookless : collaborators_hookless plainCollaborators.
Proof.
  split; [|split; [|split]].
  - intros path ps p v cmd Hps. discriminate.
  - by intros v s.
  - by intros v s.
  - by intros prefix s.
Qed.

(** What the walk of a plain root adds to the calls of the per-visit
    kind was handed the snapshot. *)
Lemma processObject_callbacks_handed_snapshot (C : Collaborators) (fuel : nat) (lo : loc)
    (o : object) (cmd : CommandName) (s : State) onProcess :
  heap s !! lo = Some o -> o_elems o = None -> collaborators_hookless C ->
  (forall k' p, appends (handed p) (onProcess k' p)) ->
  exists evs,
    callback_events (trace (final_state
      ((snapshot ← clone (VRef lo);
        processObject C fuel (VRef lo) snapshot onProcess cmd VUndefined) s)))
    = callback_events (trace s) ++ evs
    /\ Forall (handed (VRef (fresh (dom (heap s))))) evs.
Proof.
  intros Ho He HC Hon.
  erewrite bind_ok by (by apply clone_plain).
  destruct (appends_processObject C (handed (VRef (fresh (dom (heap s))))) HC
              (VRef (fresh (dom (heap s)))) onProcess cmd (fun k' => Hon k' _)
              fuel (VRef lo) VUndefined
              (mkState (<[fresh (dom (heap s)) := o]> (heap s)) (trace s)))
    as (evs & E & F).
  by exists evs.
Qed.

(** C3, as amended: the per-visit callback is handed the snapshot, a
    shallow copy of the root made before the walk.  Every call of the
    per-visit kind that the walk adds (at any depth) has the snapshot as
    its parent, and whenever a hook is called with the snapshot, the
    snapshot object still has exactly the properties of the original
    root, whatever the walk has mutated so far.  (The objects these
    entries refer to are shared with the live tree, and are mutated by
    the walk.)  The root is a plain object in a closed state, and the
    collaborators have no access to the snapshot and do not call the
    hooks. *)
Theorem processOptions_snapshot_top_level (C : Collaborators) (fuel : nat) (lo : loc)
    (o : object) (cmd : CommandName) (s : State) :
  heap s !! lo = Some o -> o_elems o = None -> state_closed s ->
  collaborators_respect C (fresh (dom (heap s))) o ->
  collaborators_hookless C ->
  (forall e h,
     e ∈ trace (final_state (processOptions C fuel (VRef lo) cmd s)) ->
     event_parent_heap e = Some (VRef (fresh (dom (heap s))), h) ->
     h !! fresh (dom (heap s)) = Some o)
  /\ (forall e h,
     e ∈ trace (final_state (processDefaultOptions C fuel (VRef lo) cmd s)) ->
     event_parent_heap e = Some (VRef (fresh (dom (heap s))), h) ->
     h !! fresh (dom (heap s)) = Some o)
  /\ (exists evs,
     callback_events (trace (final_state (processOptions C fuel (VRef lo) cmd s)))
     = callback_events (trace s) ++ evs
     /\ Forall (fun e => exists h,
                  event_parent_heap e = Some (VRef (fresh (dom (heap s))), h)
                  /\ h !! fresh (dom (heap s)) = Some o) evs)
  /\ (exists evs,
     callback_events (trace (final_state (processDefaultOptions C fuel (VRef lo) cmd s)))
     = callback_events (trace s) ++ evs
     /\ Forall (fun e => exists h,
                  event_parent_heap e = Some (VRef (fresh (dom (heap s))), h)
                  /\ h !! fresh (dom (heap s)) = Some o) evs).
Proof.
  intros Ho He Hclosed HC Hless.
  set (snap := fresh (dom (heap s))) in *.
  pose proof (snapshot_inv_after_clone s lo o Ho Hclosed) as Hinv. fold snap in Hinv.
  assert (Hlo : VRef lo <> VRef snap).
  { intros [= Heq]. by eapply (fresh_ne (heap s) lo); eauto. }
  assert (Hwalk : forall onProcess,
    (forall k', preserves (snapshot_inv snap o) (fun _ => True) (onProcess k' (VRef snap))) ->
    forall e h,
      e ∈ trace (final_state ((snapshot ← clone (VRef lo);
                                processObject C fuel (VRef lo) snapshot onProcess cmd VUndefined) s)) ->
      event_parent_heap e = Some (VRef snap, h) -> h !! snap = Some o).
  { intros onProcess Hcb e h.
    erewrite bind_ok by (by apply clone_plain). fold snap.
    pose proof (processObject_preserves snap o C HC fuel (VRef lo) (VRef snap) onProcess cmd
                  VUndefined Hcb Hlo _ Hinv) as Hres.
    assert (Hfinal : snapshot_inv snap o
              (final_state (processObject C fuel (VRef lo) (VRef snap) onProcess cmd VUndefined
                 (mkState (<[snap := o]> (heap s)) (trace s))))).
    { destruct (processObject C fuel _ _ _ _ _ _); simpl; [by destruct Hres | done]. }
    destruct Hfinal as (_ & _ & H3). apply H3. }
  assert (Hhanded : forall onProcess,
    (forall k', preserves (snapshot_inv snap o) (fun _ => True) (onProcess k' (VRef snap))) ->
    (forall k' p, appends (handed p) (onProcess k' p)) ->
    exists evs,
      callback_events (trace (final_state
        ((snapshot ← clone (VRef lo);
          processObject C fuel (VRef lo) snapshot onProcess cmd VUndefined) s)))
      = callback_events (trace s) ++ evs
      /\ Forall (fun e => exists h, event_parent_heap e = Some (VRef snap, h)
                                    /\ h !! snap = Some o) evs).
  { intros onProcess Hcb Hon.
    destruct (processObject_callbacks_handed_snapshot C fuel lo o cmd s onProcess Ho He Hless Hon)
      as (evs & Heq & Hevs).
    exists evs. split; [exact Heq|].
    apply Forall_forall. intros e Hin. rewrite Forall_forall in Hevs.
    destruct (Hevs e Hin) as [h Hh]. exists h. split; [exact Hh|].
    apply (Hwalk onProcess Hcb e h); [|exact Hh].
    apply callback_events_elem. rewrite Heq. apply elem_of_app. by right. }
  split; [|split; [|split]].
  - apply Hwalk. intros k'. apply onProcess_options_preserves.
  - apply Hwalk. intros k'. apply onProcess_defaultOptions_preserves.
  - apply Hhanded.
    + intros k'. apply onProcess_options_preserves.
    + intros k' p. apply appends_onProcess_options.
  - apply Hhanded.
    + intros k'. apply onProcess_defaultOptions_preserves.
    + intros k' p. apply appends_onProcess_defaultOptions.
Qed.

Lemma state_searchBar_closed : state_closed state_searchBar.
Proof.
  split.
  - intros l o l' Hl Hin.
    assert (Hcases : (l = 1%positive /\ o = plain [("topBar", VRef 2%positive)])
                     \/ (l = 2%positive /\ o = plain [("searchBar", VBool true);
                                                     ("searchBarPlaceholder", VStr "Find")])).
    { unfold state_searchBar, state_of in Hl. simpl in Hl.
      apply lookup_insert_Some in Hl as [[H1 H2]|[_ Hl]]; [left; by subst|].
      apply lookup_insert_Some in Hl as [[H1 H2]|[_ Hl]]; [right; by subst|].
      by rewrite lookup_empty in Hl. }
    destruct Hcases as [[-> ->]|[-> ->]]; unfold object_values in Hin; simpl in Hin.
    + apply list_elem_of_singleton in Hin as [= ->]. by eexists.
    + repeat (apply elem_of_cons in Hin as [Hin|Hin]; [discriminate|]).
      by apply elem_of_nil in Hin.
  - intros e l' h Hin. by apply elem_of_nil in Hin.
Qed.


Lemma processOptions_snapshot_top_level_witness :
  (trace searchBar_walk_final !! 3%nat ≫= event_parent_heap
     = Some (VRef 3%positive, searchBar_callback_heap)
   /\ searchBar_callback_heap !! 3%positive = Some (plain [("topBar", VRef 2%positive)]))
  /\ length (callback_events (trace searchBar_walk_final)) = 10
  /\ Forall (fun e => exists h,
                event_parent_heap e = Some (VRef 3%positive, h)
                /\ h !! 3%positive = Some (plain [("topBar", VRef 2%positive)]))
            (callback_events (trace searchBar_walk_final)).
Proof.
  assert (E : trace searchBar_walk_final !! 3%nat ≫= event_parent_heap
              = Some (VRef 3%positive, searchBar_callback_heap))
    by (vm_compute; reflexivity).
  destruct (processOptions_snapshot_top_level plainCollaborators 3 1%positive
              (plain [("topBar", VRef 2%positive)]) "push" state_searchBar)
    as (H & _ & (evs & Heq & Hevs) & _).
  - reflexivity.
  - reflexivity.
  - apply state_searchBar_closed.
  - apply plainCollaborators_respect.
  - apply plainCollaborators_hookless.
  - split; [split; [exact E|] | split; [vm_compute; reflexivity|]].
    + destruct (trace searchBar_walk_final !! 3%nat) as [e|] eqn:Ee; [|discriminate].
      apply (H e).
      * eapply list_elem_of_lookup_2. exact Ee.
      * exact E.
    + unfold searchBar_walk_final. rewrite Heq. exact Hevs.
Defined.

(** C3, as stated, fails below the top level: in the walk of
    [{ topBar: { searchBar: true, ... } }] the hook called for the key
    [searchBar] receives the snapshot, and reads through it the rewritten
    search bar (an object), where the configuration had [true] when the
    walk started. *)
Lemma processOptions_snapshot_nested_counterexample :
  exists s' h,
    processOptions plainCollaborators 3 (VRef 1%positive) "push" state_searchBar = Ok tt s'
    /\ trace s' !! 3%nat = Some (EvOnProcessOptions (KStr "searchBar") (VRef 3%positive) "push" h)
    /\ lookup_path (heap state_searchBar) (VRef 1%positive) ["topBar"; "searchBar"] = Some (VBool true)
    /\ lookup_path h (VRef 3%positive) ["topBar"; "searchBar"] = Some (VRef 5%positive)
    /\ lookup_path h (VRef 3%positive) ["topBar"; "searchBar"]
       <> lookup_path (heap state_searchBar) (VRef 1%positive) ["topBar"; "searchBar"].
Proof.
  eexists _, _.
  split; [vm_compute; reflexivity|].
  split; [vm_compute; reflexivity|].
  split; [vm_compute; reflexivity|].
  split; vm_compute; [reflexivity | discriminate].
Qed.

(** ** Index names *)

Lemma digit_of_pretty_N_char d : (d < 10)%N -> digit_of (pretty_N_char d) = Some d.
Proof.
  intros H.
  assert (d = 0 \/ d = 1 \/ d = 2 \/ d = 3 \/ d = 4 \/ d = 5 \/ d = 6 \/ d = 7 \/ d = 8 \/ d = 9)%N
    as Hd by lia.
  repeat (destruct Hd as [->|Hd]; [reflexivity|]). by subst.
Qed.

Lemma parse_digits_pretty_N_go x : forall s acc,
  exists acc', parse_digits acc (pretty_N_go x s) = parse_digits acc' s
               /\ (acc = 0%N -> acc' = x).
Proof.
  induction (N.lt_wf_0 x) as [x _ IH]. intros s acc.
  assert (x = 0 \/ 0 < x)%N as [->|Hx] by lia.
  - exists acc. by rewrite pretty_N_go_0.
  - rewrite pretty_N_go_step by done.
    destruct (IH (x `div` 10)%N (N.div_lt x 10 Hx eq_refl)
                (String (pretty_N_char (x `mod` 10)) s) acc) as (acc1 & Heq & Hacc).
    exists (10 * acc1 + x `mod` 10)%N. split.
    + rewrite Heq. simpl. rewrite digit_of_pretty_N_char; [done|]. by apply N.mod_lt.
    + intros H0. rewrite (Hacc H0). symmetry. apply N.div_mod. done.
Qed.

Lemma parse_digits_pretty (n : N) : parse_digits 0 (pretty n) = Some n.
Proof.
  unfold pretty, pretty_N. case_decide as Hn; [by subst|].
  destruct (parse_digits_pretty_N_go n "" 0%N) as (acc' & Heq & Hacc).
  rewrite Heq, Hacc by done. reflexivity.
Qed.

Lemma pretty_N_nonempty (n : N) : pretty n <> "".
Proof.
  intros H. pose proof (parse_digits_pretty n) as Hp. rewrite H in Hp. simpl in Hp.
  injection Hp as <-. discriminate H.
Qed.

(** Printing an index and reading it back as a property name. *)
Lemma array_index_pretty_inv (n : N) :
  (n < 4294967295)%N -> array_index (pretty n) = Some n.
Proof.
  intros Hn. unfold array_index.
  destruct (pretty n) as [|a r] eqn:E; [by apply pretty_N_nonempty in E|].
  rewrite <- E, parse_digits_pretty, String.eqb_refl.
  apply N.ltb_lt in Hn. by rewrite Hn.
Qed.

Lemma pretty_N_not_length (n : N) : String.eqb (pretty n) "length" = false.
Proof.
  destruct (String.eqb (pretty n) "length") eqn:E; [|done].
  apply String.eqb_eq in E. pose proof (parse_digits_pretty n) as Hp.
  rewrite E in Hp. discriminate.
Qed.

(** ** Paths *)

Lemma to_string_key_to_value k : to_string (key_to_value k) = key_to_string k.
Proof. destruct k as [name|[|p]]; reflexivity. Qed.

Lemma path_of_keys_from (ks : list key) : forall p,
  p <> "" ->
  foldl (fun path k => resolveObjectPath k path) (VStr p) ks
  = VStr (dotted p ks).
Proof.
  induction ks as [|k ks IH]; intros p Hp; simpl; [reflexivity|].
  unfold resolveObjectPath at 2. simpl.
  destruct (String.eqb p "") eqn:E; [apply String.eqb_eq in E; done|]. simpl.
  apply IH. by destruct p.
Qed.

(** Below a root key whose own path is truthy (a non-empty name, or an
    index other than 0) the path of a nested key is the names of the
    keys from the root joined by dots. *)
Lemma path_of_keys_dotted (k0 k1 : key) (ks : list key) :
  truthy (key_to_value k0) = true ->
  path_of_keys (k0 :: k1 :: ks) = VStr (dotted (key_to_string k0) (k1 :: ks)).
Proof.
  intros Ht. unfold path_of_keys. simpl.
  unfold resolveObjectPath at 2 3. simpl. rewrite Ht. simpl.
  rewrite to_string_key_to_value.
  apply path_of_keys_from. by destruct (key_to_string k0).
Qed.

(** A key whose name contains a dot has the path of a nested key, and a
    root key whose path is falsy (the empty name, or the index 0 of an
    array-like root) disappears from the paths of everything below it. *)
Lemma path_of_keys_collisions (a b : string) (k0 k1 : key) (ks : list key) :
  a <> "" ->
  truthy (key_to_value k0) = false ->
  path_of_keys [KStr a; KStr b] = path_of_keys [KStr (a ++ "." ++ b)%string]
  /\ path_of_keys (k0 :: k1 :: ks) = path_of_keys (k1 :: ks).
Proof.
  intros Ha Hk. split.
  - rewrite (path_of_keys_dotted (KStr a) (KStr b) []).
    + reflexivity.
    + simpl. by destruct a.
  - unfold path_of_keys. simpl. f_equal. unfold resolveObjectPath. simpl.
    destruct k0 as [name|n]; simpl in *.
    + destruct name; [reflexivity | discriminate].
    + destruct n; [reflexivity | discriminate].
Qed.

(** ** The other animation transforms *)

Lemma lookup_after_two_allocs (h : Heap) (o1 : object) l o :
  h !! l = Some o ->
  let c := fresh (dom h) in
  let r := fresh (dom (<[c := o1]> h)) in
  l <> c /\ l <> r /\ c <> r /\ h !! c = None /\ h !! r = None.
Proof.
  intros Hl c r.
  assert (Hc : h !! c = None) by apply fresh_lookup_None.
  assert (Hr : <[c := o1]> h !! r = None) by apply fresh_lookup_None.
  apply lookup_insert_None in Hr as [Hr Hcr].
  repeat split; try done; intros ->; congruence.
Qed.

(** X3: for the key [setStackRoot], a value with neither [content.enter]
    nor [content.exit] (an object, or any other value) is wrapped whole:
    the parent's entry under the key becomes a new object
    [{ content: { enter: value } }], whether or not the parent had such
    an entry, and nothing else changes.  A value that has one of the two
    fields leaves the state as it is. *)
Theorem processSetStackRoot_wrap (s : State) (lo : loc) (o : object) (animation : value)
    (legacy : bool) (s0 : State) :
  heap s !! lo = Some o ->
  isLegacyAnimation animation s = Ok legacy s0 ->
  if legacy then
    exists s' c r,
      processSetStackRoot (KStr "setStackRoot") animation (VRef lo) s = Ok tt s'
      /\ heap s !! c = None /\ heap s !! r = None
      /\ slot s' lo "setStackRoot" = Some (VRef r)
      /\ heap s' !! r = Some (plain [("content", VRef c)])
      /\ heap s' !! c = Some (plain [("enter", animation)])
      /\ (forall l, l <> lo -> l <> c -> l <> r -> heap s' !! l = heap s !! l)
      /\ trace s' = trace s
  else processSetStackRoot (KStr "setStackRoot") animation (VRef lo) s = Ok tt s.
Proof.
  intros Ho Hleg.
  pose proof (isLegacyAnimation_state _ _ _ _ Hleg) as ->.
  unfold processSetStackRoot. simpl. erewrite bind_ok by exact Hleg.
  destruct legacy; [|reflexivity].
  set (c := fresh (dom (heap s))).
  set (h1 := <[c := plain [("enter", animation)]]> (heap s)).
  set (r := fresh (dom h1)).
  destruct (lookup_after_two_allocs (heap s) (plain [("enter", animation)]) lo o Ho)
    as (Hlc & Hlr & Hcr & Hc & Hr).
  fold c in Hlc, Hlr, Hcr, Hc, Hr. fold h1 in Hlr, Hcr, Hr. fold r in Hlr, Hcr, Hr.
  exists (mkState (<[lo := Obj (o_elems o) (props_set "setStackRoot" (VRef r) (o_props o))]>
                     (<[r := plain [("content", VRef c)]]> h1)) (trace s)), c, r.
  split; [|split; [|split; [|split; [|split; [|split; [|split]]]]]].
  - erewrite bind_ok by apply alloc_eq. erewrite bind_ok by apply alloc_eq.
    erewrite setProp_ref; [reflexivity | | by apply own_set_named].
    simpl. fold c. fold h1. fold r. unfold h1. by rewrite !lookup_insert_ne.
  - exact Hc.
  - exact Hr.
  - unfold slot. simpl. rewrite lookup_insert_eq. f_equal.
    rewrite own_get_named by done. simpl. by rewrite props_get_set_eq.
  - simpl. rewrite lookup_insert_ne by done. by rewrite lookup_insert_eq.
  - simpl. unfold h1. rewrite !lookup_insert_ne by done. by rewrite lookup_insert_eq.
  - intros l H1 H2 H3. simpl. unfold h1. by rewrite !lookup_insert_ne.
  - reflexivity.
Qed.

Lemma processSetStackRoot_wrap_witness :
  exists s' c r,
    processSetStackRoot (KStr "setStackRoot") (VRef 2%positive) (VRef 1%positive) state_setStackRoot
    = Ok tt s'
    /\ heap state_setStackRoot !! c = None /\ heap state_setStackRoot !! r = None
    /\ slot s' 1%positive "setStackRoot" = Some (VRef r)
    /\ heap s' !! r = Some (plain [("content", VRef c)])
    /\ heap s' !! c = Some (plain [("enter", VRef 2%positive)])
    /\ (forall l, l <> 1%positive -> l <> c -> l <> r -> heap s' !! l = heap state_setStackRoot !! l)
    /\ trace s' = trace state_setStackRoot.
Proof.
  apply (processSetStackRoot_wrap state_setStackRoot 1%positive
           (plain [("setStackRoot", VRef 2%positive)]) (VRef 2%positive) true state_setStackRoot);
    reflexivity.
Defined.

(** X4: for the key [pop], when the value (an object) has neither
    [content.enter] nor [content.exit], the transform stores a new object
    [{ exit: c }] in the [content] field of the entry the parent holds
    under [pop], where [c] is the [content] field of the value; the other
    fields of the entry stay.  With one of the two fields present the
    state is left as it is. *)
Theorem processPop_content (s : State) (lo lp la : loc) (o p a : object) (legacy : bool)
    (s0 : State) :
  heap s !! lo = Some o -> own_get o "pop" = Some (VRef lp) ->
  heap s !! lp = Some p -> heap s !! la = Some a ->
  isLegacyAnimation (VRef la) s = Ok legacy s0 ->
  if legacy then
    exists s' c,
      processPop (KStr "pop") (VRef la) (VRef lo) s = Ok tt s'
      /\ heap s !! c = None
      /\ heap s' !! c = Some (plain [("exit", default VUndefined (own_get a "content"))])
      /\ heap s' !! lp = Some (Obj (o_elems p) (props_set "content" (VRef c) (o_props p)))
      /\ (forall l, l <> c -> l <> lp -> heap s' !! l = heap s !! l)
      /\ trace s' = trace s
  else processPop (KStr "pop") (VRef la) (VRef lo) s = Ok tt s.
Proof.
  intros Ho Hpop Hp Ha Hleg.
  pose proof (isLegacyAnimation_state _ _ _ _ Hleg) as ->.
  unfold processPop. simpl. erewrite bind_ok by exact Hleg.
  destruct legacy; [|reflexivity].
  set (c := fresh (dom (heap s))).
  assert (Hc : lp <> c) by (eapply fresh_ne; eauto).
  exists (mkState (<[lp := Obj (o_elems p) (props_set "content" (VRef c) (o_props p))]>
                     (<[c := plain [("exit", default VUndefined (own_get a "content"))]]> (heap s)))
                  (trace s)), c.
  split; [|split; [|split; [|split; [|split]]]].
  - erewrite bind_ok by (apply getProp_ref; exact Ho). rewrite Hpop. simpl.
    erewrite bind_ok by (apply getProp_ref; exact Ha).
    erewrite bind_ok by apply alloc_eq.
    erewrite setProp_ref; [reflexivity | | by apply own_set_named].
    simpl. by rewrite lookup_insert_ne.
  - apply fresh_lookup_None.
  - simpl. rewrite lookup_insert_ne by done. by rewrite lookup_insert_eq.
  - simpl. by rewrite lookup_insert_eq.
  - intros l H1 H2. simpl. by rewrite !lookup_insert_ne.
  - reflexivity.
Qed.

Lemma processPop_content_witness :
  exists s' c,
    processPop (KStr "pop") (VRef 2%positive) (VRef 1%positive) state_pop = Ok tt s'
    /\ heap state_pop !! c = None
    /\ heap s' !! c = Some (plain [("exit", VUndefined)])
    /\ heap s' !! 2%positive = Some (plain [("alpha", VNum 1); ("content", VRef c)])
    /\ (forall l, l <> c -> l <> 2%positive -> heap s' !! l = heap state_pop !! l)
    /\ trace s' = trace state_pop.
Proof.
  apply (processPop_content state_pop 1%positive 2%positive 2%positive
           (plain [("pop", VRef 2%positive)]) (plain [("alpha", VNum 1)])
           (plain [("alpha", VNum 1)]) true state_pop); reflexivity.
Defined.

(** X5: the precondition of [processPop] and [processPush].  When the
    value (an object) has neither [content.enter] nor [content.exit] and
    the parent's entry under [pop] (or [push]) is not an object (missing,
    [undefined], [null] or a primitive), the assignment to its [content]
    raises a TypeError; no object that existed before is modified. *)
Theorem processPop_processPush_missing_entry (s : State) (lo la : loc) (o a : object)
    (s0 : State) (name : string) :
  name = "pop" \/ name = "push" ->
  heap s !! lo = Some o -> heap s !! la = Some a ->
  isObject (default VUndefined (own_get o name)) = false ->
  isLegacyAnimation (VRef la) s = Ok true s0 ->
  exists s',
    (if String.eqb name "pop"
     then processPop (KStr name) (VRef la) (VRef lo) s
     else processPush (KStr name) (VRef la) (VRef lo) s) = Throw TypeError s'
    /\ (forall l, is_Some (heap s !! l) -> heap s' !! l = heap s !! l)
    /\ trace s' = trace s.
Proof.
  intros Hname Ho Ha Hentry Hleg.
  pose proof (isLegacyAnimation_state _ _ _ _ Hleg) as ->.
  set (c := fresh (dom (heap s))).
  assert (Hframe : forall field l, is_Some (heap s !! l) ->
            <[c := plain [(field, default VUndefined (own_get a "content"))]]> (heap s) !! l
            = heap s !! l).
  { intros field l [x Hx]. rewrite lookup_insert_ne; [done|]. intros <-.
    by eapply (fresh_ne (heap s) c). }
  assert (Hset : forall st x, setProp (default VUndefined (own_get o name)) "content" x st
                              = Throw TypeError st).
  { intros st x. by destruct (default VUndefined (own_get o name)). }
  destruct Hname as [-> | ->]; simpl; eexists.
  - split.
    + unfold processPop. simpl. erewrite bind_ok by exact Hleg. cbv iota.
      erewrite bind_ok by (apply getProp_ref; exact Ho).
      erewrite bind_ok by (apply getProp_ref; exact Ha).
      erewrite bind_ok by apply alloc_eq. apply Hset.
    + split; [apply (Hframe "exit") | reflexivity].
  - split.
    + unfold processPush. simpl. erewrite bind_ok by exact Hleg. cbv iota.
      erewrite bind_ok by (apply getProp_ref; exact Ho).
      erewrite bind_ok by (apply getProp_ref; exact Ha).
      erewrite bind_ok by apply alloc_eq. apply Hset.
    + split; [apply (Hframe "enter") | reflexivity].
Qed.

Lemma processPop_processPush_missing_entry_witness :
  exists s',
    processPop (KStr "pop") (VRef 2%positive) (VRef 1%positive) state_push = Throw TypeError s'
    /\ (forall l, is_Some (heap state_push !! l) -> heap s' !! l = heap state_push !! l)
    /\ trace s' = trace state_push.
Proof.
  apply (processPop_processPush_missing_entry state_push 1%positive 2%positive
           (plain [("push", VRef 2%positive)]) (plain [("alpha", VNum 1)]) state_push "pop");
    try reflexivity. by left.
Defined.

(** ** The image transform *)

Lemma image_key_not_length k :
  isEqual k "icon" || isEqual k "image" || endsWith k "Icon" || endsWith k "Image" = true ->
  String.eqb (key_to_string k) "length" = false.
Proof.
  intros H. destruct (String.eqb (key_to_string k) "length") eqn:E; [|reflexivity].
  apply String.eqb_eq in E. unfold endsWith in H.
  destruct k as [name|n]; simpl in *.
  - subst name. discriminate.
  - rewrite E in H. discriminate.
Qed.

(** X6: for a key that equals [icon] or [image] or ends with [Icon] or
    [Image], the slot of the node receives the value itself when it is a
    string, and otherwise the result of the asset service for the value.
    In both cases the slot is overwritten with something computed from
    the enumerated value, so what a registered processor stored there is
    lost.  A key that fails the name test leaves the state as it is. *)
Theorem processImage_spec (C : Collaborators) (k : key) (val : value) (lo : loc) (o : object)
    (s : State) :
  heap s !! lo = Some o ->
  (isEqual k "icon" || isEqual k "image" || endsWith k "Icon" || endsWith k "Image" = true ->
   isString val = true ->
   exists s', processImage C k val (VRef lo) s = Ok tt s'
     /\ slot s' lo (key_to_string k) = Some val
     /\ trace s' = trace s
     /\ forall l, l <> lo -> heap s' !! l = heap s !! l)
  /\ (isEqual k "icon" || isEqual k "image" || endsWith k "Icon" || endsWith k "Image" = true ->
      isString val = false ->
      forall r s1 o1, resolveFromRequire C val s = Ok r s1 -> heap s1 !! lo = Some o1 ->
        exists s', processImage C k val (VRef lo) s = Ok tt s'
          /\ slot s' lo (key_to_string k) = Some r
          /\ trace s' = trace s1
          /\ forall l, l <> lo -> heap s' !! l = heap s1 !! l)
  /\ (isEqual k "icon" || isEqual k "image" || endsWith k "Icon" || endsWith k "Image" = false ->
      processImage C k val (VRef lo) s = Ok tt s).
Proof.
  intros Ho.
  assert (Hstore : forall r s1 o1, heap s1 !! lo = Some o1 ->
            isEqual k "icon" || isEqual k "image" || endsWith k "Icon" || endsWith k "Image" = true ->
            exists s', setProp (VRef lo) (key_to_string k) r s1 = Ok tt s'
              /\ slot s' lo (key_to_string k) = Some r
              /\ trace s' = trace s1
              /\ forall l, l <> lo -> heap s' !! l = heap s1 !! l).
  { intros r s1 o1 Ho1 Hk.
    destruct (own_set_get o1 (key_to_string k) r) as (o2 & Hset & Hget & _);
      [right; by apply image_key_not_length|].
    rewrite (setProp_ref _ _ _ _ _ _ Ho1 Hset). eexists. split; [reflexivity|].
    split; [|split; [reflexivity|]].
    - unfold slot. simpl. by rewrite lookup_insert_eq, Hget.
    - intros l Hl. simpl. by rewrite lookup_insert_ne. }
  split; [|split].
  - intros Hk Hs. unfold processImage. rewrite Hk, Hs.
    erewrite bind_ok by reflexivity. by eapply Hstore.
  - intros Hk Hs r s1 o1 Hr Ho1. unfold processImage. rewrite Hk, Hs.
    erewrite bind_ok by exact Hr. by eapply Hstore.
  - intros Hk. unfold processImage. by rewrite Hk.
Qed.

Lemma processImage_spec_witness :
  (exists s', processImage plainCollaborators (KStr "backIcon") (VStr "back.png") (VRef 1%positive)
                state_color_red = Ok tt s'
     /\ slot s' 1%positive "backIcon" = Some (VStr "back.png"))
  /\ (exists s', processImage plainCollaborators (KStr "icon") (VNum 7) (VRef 1%positive)
                   state_color_red = Ok tt s'
     /\ slot s' 1%positive "icon" = Some (VStr "asset://resolved"))
  /\ processImage plainCollaborators (KStr "iconic") (VNum 7) (VRef 1%positive) state_color_red
     = Ok tt state_color_red.
Proof.
  split; [|split].
  - destruct (processImage_spec plainCollaborators (KStr "backIcon") (VStr "back.png") 1%positive
                (plain [("color", VStr "red")]) state_color_red) as (H & _ & _); [reflexivity|].
    destruct H as (s' & H1 & H2 & _); [reflexivity | reflexivity |].
    exists s'. split; assumption.
  - destruct (processImage_spec plainCollaborators (KStr "icon") (VNum 7) 1%positive
                (plain [("color", VStr "red")]) state_color_red) as (_ & H & _); [reflexivity|].
    destruct (H eq_refl eq_refl (VStr "asset://resolved") state_color_red
                (plain [("color", VStr "red")]) eq_refl eq_refl) as (s' & H1 & H2 & _).
    exists s'. split; assumption.
  - destruct (processImage_spec plainCollaborators (KStr "iconic") (VNum 7) 1%positive
                (plain [("color", VStr "red")]) state_color_red) as (_ & _ & H); [reflexivity|].
    apply H. reflexivity.
Defined.

(** ** The component transform *)

Lemma props_get_cons k k' v ps :
  props_get k ((k', v) :: ps) = if String.eqb k' k then Some v else props_get k ps.
Proof. unfold props_get. simpl. by destruct (String.eqb k' k). Qed.

Lemma props_get_app k ps qs :
  props_get k (ps ++ qs) = match props_get k ps with Some v => Some v | None => props_get k qs end.
Proof.
  induction ps as [|[k' v'] ps IH]; [reflexivity|].
  rewrite <- app_comm_cons, !props_get_cons. by destruct (String.eqb k' k).
Qed.

Lemma props_get_replace_ne k k' v ps :
  k <> k' -> props_get k' (props_replace k v ps) = props_get k' ps.
Proof.
  intros Hne. induction ps as [|[k0 v0] ps IH]; [reflexivity|]. simpl.
  destruct (String.eqb k0 k) eqn:E; rewrite !props_get_cons.
  - apply String.eqb_eq in E as ->.
    destruct (String.eqb k k') eqn:E'; [apply String.eqb_eq in E'; done | reflexivity].
  - by rewrite IH.
Qed.

Lemma props_get_insert_index_ne n k k' v ps :
  k <> k' -> props_get k' (props_insert_index n k v ps) = props_get k' ps.
Proof.
  intros Hne.
  assert (Hhd : forall qs, props_get k' ((k, v) :: qs) = props_get k' qs).
  { intros qs. rewrite props_get_cons.
    destruct (String.eqb k k') eqn:E'; [apply String.eqb_eq in E'; done | reflexivity]. }
  induction ps as [|[k0 v0] ps IH]; simpl; [apply Hhd|].
  destruct (array_index k0) as [m|]; [|apply Hhd].
  destruct (m <? n)%N; [|apply Hhd].
  by rewrite !props_get_cons, IH.
Qed.

(** Assigning one name leaves every other name as it was. *)
Lemma props_get_set_ne k k' v ps : k <> k' -> props_get k' (props_set k v ps) = props_get k' ps.
Proof.
  intros Hne. unfold props_set. destruct (props_get k ps).
  - by apply props_get_replace_ne.
  - destruct (array_index k).
    + by apply props_get_insert_index_ne.
    + rewrite props_get_app. destruct (props_get k' ps); [reflexivity|].
      rewrite props_get_cons.
      destruct (String.eqb k k') eqn:E'; [apply String.eqb_eq in E'; done | reflexivity].
Qed.

Lemma emit_eq e s : emit e s = Ok tt (mkState (heap s) (trace s ++ [e (heap s)])).
Proof. reflexivity. Qed.

(** X7: for the key [component] whose value is an object, also held by
    the parent's slot.  The component id is the object's [id] when that is
    truthy, and otherwise a fresh id asked from the id provider (which is
    not called when there is an [id]).  The object receives the id as
    [componentId]; the store is told the component's [name], and, when
    [passProps] is truthy, the props under the component id; finally the
    object's [passProps] is set to [undefined], also when it had none.
    Nothing else in the heap changes. *)
Theorem processComponent_spec (C : Collaborators) (s : State) (lo lc : loc) (o c : object)
    (cid : value) (s1 : State) :
  heap s !! lo = Some o -> own_get o "component" = Some (VRef lc) -> heap s !! lc = Some c ->
  (if truthy (default VUndefined (own_get c "id"))
   then mret (default VUndefined (own_get c "id"))
   else generate C "CustomComponent") s = Ok cid s1 ->
  heap s1 !! lo = Some o -> heap s1 !! lc = Some c ->
  exists s',
    processComponent C (KStr "component") (VRef lc) (VRef lo) s = Ok tt s'
    /\ heap s' !! lc = Some (Obj (o_elems c)
                              (props_set "passProps" VUndefined
                                 (props_set "componentId" cid (o_props c))))
    /\ (forall l, l <> lc -> heap s' !! l = heap s1 !! l)
    /\ trace s' = trace s1
                  ++ EvEnsureClassForName (default VUndefined (own_get c "name"))
                  :: (if truthy (default VUndefined (own_get c "passProps"))
                      then [EvUpdateProps cid (default VUndefined (own_get c "passProps"))]
                      else []).
Proof.
  intros Ho Hslot Hc Hid Ho1 Hc1.
  set (c1 := Obj (o_elems c) (props_set "componentId" cid (o_props c))).
  assert (Hget1 : forall k, k <> "componentId" -> array_index k = None ->
            String.eqb k "length" = false -> own_get c1 k = own_get c k).
  { intros k Hk Hi Hl. rewrite !own_get_named by done. simpl. apply props_get_set_ne. congruence. }
  assert (Hcid : own_get c1 "componentId" = Some cid).
  { rewrite own_get_named by done. simpl. apply props_get_set_eq. }
  assert (Hread : forall t k, getProp (VRef lc) k (mkState (<[lc := c1]> (heap s1)) t)
                   = Ok (default VUndefined (own_get c1 k)) (mkState (<[lc := c1]> (heap s1)) t)).
  { intros t k. apply getProp_ref. simpl. apply lookup_insert_eq. }
  assert (Hparent : forall t, getProp (VRef lo) "component" (mkState (<[lc := c1]> (heap s1)) t)
                   = Ok (VRef lc) (mkState (<[lc := c1]> (heap s1)) t)).
  { intros t. destruct (decide (lo = lc)) as [->|Hne].
    - rewrite Hread, Hget1 by done.
      assert (o = c) as -> by congruence. by rewrite Hslot.
    - erewrite getProp_ref; [by rewrite Hslot|]. simpl. by rewrite lookup_insert_ne. }
  unfold processComponent. simpl.
  erewrite bind_ok by (apply getProp_ref; exact Hc).
  erewrite bind_ok; cycle 1.
  { destruct (truthy (default VUndefined (own_get c "id"))); [|exact Hid].
    rewrite (getProp_ref _ _ _ _ Hc). exact Hid. }
  erewrite bind_ok by (eapply setProp_ref; [exact Hc1 | by apply own_set_named]).
  erewrite bind_ok by apply Hread.
  rewrite Hget1 by done.
  erewrite bind_ok by apply emit_eq. simpl.
  erewrite bind_ok by apply Hread.
  rewrite Hget1 by done.
  destruct (truthy (default VUndefined (own_get c "passProps"))) eqn:Hpp.
  - erewrite bind_ok; cycle 1.
    { erewrite bind_ok by apply Hread.
      erewrite bind_ok by apply Hread.
      rewrite Hcid, Hget1 by done. apply emit_eq. }
    simpl. erewrite bind_ok by apply Hparent.
    erewrite setProp_ref; [| simpl; apply lookup_insert_eq | by apply own_set_named].
    eexists. split; [reflexivity|]. simpl. split; [|split].
    + by rewrite lookup_insert_eq.
    + intros l Hl. by rewrite !lookup_insert_ne.
    + by rewrite <- app_assoc.
  - erewrite bind_ok by reflexivity.
    erewrite bind_ok by apply Hparent.
    erewrite setProp_ref; [| simpl; apply lookup_insert_eq | by apply own_set_named].
    eexists. split; [reflexivity|]. simpl. split; [|split].
    + by rewrite lookup_insert_eq.
    + intros l Hl. by rewrite !lookup_insert_ne.
    + reflexivity.
Qed.

Lemma processComponent_spec_witness :
  exists s',
    processComponent plainCollaborators (KStr "component") (VRef 2%positive) (VRef 1%positive)
      state_component = Ok tt s'
    /\ heap s' !! 2%positive
       = Some (plain [("name", VStr "Title"); ("passProps", VUndefined);
                      ("componentId", VStr "CustomComponent1")])
    /\ (forall l, l <> 2%positive -> heap s' !! l = heap state_component !! l)
    /\ trace s' = trace state_component
                  ++ [EvEnsureClassForName (VStr "Title");
                      EvUpdateProps (VStr "CustomComponent1") (VRef 3%positive)].
Proof.
  apply (processComponent_spec plainCollaborators state_component 1%positive 2%positive
           (plain [("component", VRef 2%positive)])
           (plain [("name", VStr "Title"); ("passProps", VRef 3%positive)])
           (VStr "CustomComponent1") state_component); reflexivity.
Defined.

(** X8: a truthy [component] value that is not an object (a string, a
    number, [true]) makes the transform fail with a TypeError, at the
    assignment of [componentId]; by then an id has already been taken
    from the id provider. *)
Theorem processComponent_primitive (C : Collaborators) (val options : value) (s : State)
    (g : value) (s1 : State) :
  isObject val = false -> truthy val = true ->
  generate C "CustomComponent" s = Ok g s1 ->
  processComponent C (KStr "component") val options s = Throw TypeError s1.
Proof.
  intros Hobj Ht Hgen. unfold processComponent. simpl.
  assert (Hid : getProp val "id" s = Ok VUndefined s) by (by destruct val).
  erewrite bind_ok by exact Hid. simpl.
  erewrite bind_ok by exact Hgen.
  erewrite bind_throw; [reflexivity|]. by destruct val.
Qed.

Lemma processComponent_primitive_witness :
  processComponent plainCollaborators (KStr "component") (VStr "Title") (VRef 1%positive)
    state_component = Throw TypeError state_component.
Proof.
  apply (processComponent_primitive plainCollaborators (VStr "Title") (VRef 1%positive)
           state_component (VStr "CustomComponent1") state_component); reflexivity.
Defined.

(** ** The search-bar transform on an object *)

Lemma props_get_assign k entries : forall ps,
  props_get k (props_assign ps entries)
  = match props_get k (reverse entries) with
    | Some v => Some v
    | None => props_get k ps
    end.
Proof.
  induction entries as [|[k' v'] entries IH] using rev_ind; intros ps; [reflexivity|].
  rewrite props_assign_app, reverse_app. simpl.
  unfold props_assign at 1. simpl. rewrite props_get_cons.
  destruct (String.eqb k' k) eqn:E.
  - apply String.eqb_eq in E as ->. apply props_get_set_eq.
  - rewrite props_get_set_ne by (by apply String.eqb_neq). apply IH.
Qed.

Lemma props_get_reverse k entries :
  NoDup (fst <$> entries) -> props_get k (reverse entries) = props_get k entries.
Proof.
  induction entries as [|[k' v'] entries IH]; intros Hnd; [reflexivity|].
  rewrite fmap_cons in Hnd. apply NoDup_cons in Hnd as [Hnin Hnd]. simpl in Hnin.
  rewrite reverse_cons, props_get_app, (IH Hnd), !props_get_cons.
  destruct (String.eqb k' k) eqn:E.
  - apply String.eqb_eq in E as ->.
    apply props_get_None in Hnin. by rewrite Hnin.
  - unfold props_get at 2. simpl. by destruct (props_get k entries).
Qed.

(** X9: for the key [searchBar] and a value that is an object, the slot
    receives a new object in which every property of the incoming object
    has the incoming value, and every field of the defaults that the
    incoming object lacks has its default (from the legacy siblings of
    the parent).  The deprecation hook is not notified, and the incoming
    object is not modified. *)
Theorem processSearchBar_object_merge (s : State) (lo lv : loc) (o c : object) :
  heap s !! lo = Some o -> heap s !! lv = Some c -> NoDup (fst <$> own_entries c) ->
  let sibling name := default VUndefined (own_get o name) in
  let defaults := deprecatedSearchBarOptions (sibling "searchBarHiddenWhenScrolling")
                    (sibling "hideNavBarOnFocusSearchBar") (sibling "searchBarBackgroundColor")
                    (sibling "searchBarTintColor") (sibling "searchBarPlaceholder") in
  exists s' l ps,
    processSearchBar (KStr "searchBar") (VRef lv) (VRef lo) s = Ok tt s'
    /\ heap s !! l = None
    /\ slot s' lo "searchBar" = Some (VRef l)
    /\ heap s' !! l = Some (plain ps)
    /\ (forall k, props_get k ps = match props_get k (own_entries c) with
                                   | Some v => Some v
                                   | None => props_get k defaults
                                   end)
    /\ trace s' = trace s
    /\ (lv <> lo -> heap s' !! lv = Some c).
Proof.
  intros Ho Hc Hnd sibling defaults.
  set (l1 := fresh (dom (heap s))).
  set (h1 := <[l1 := plain defaults]> (heap s)).
  set (l2 := fresh (dom h1)).
  destruct (lookup_after_two_allocs (heap s) (plain defaults) lo o Ho) as (Hlo1 & Hlo2 & H12 & Hl1 & Hl2).
  destruct (lookup_after_two_allocs (heap s) (plain defaults) lv c Hc) as (Hlv1 & Hlv2 & _).
  fold l1 in Hlo1, Hlo2, H12, Hl1, Hl2, Hlv1, Hlv2.
  fold h1 in Hlo2, H12, Hl2, Hlv2. fold l2 in Hlo2, H12, Hl2, Hlv2.
  exists (mkState (<[lo := Obj (o_elems o) (props_set "searchBar" (VRef l2) (o_props o))]>
                     (<[l2 := plain (props_assign defaults (own_entries c))]> h1)) (trace s)),
    l2, (props_assign defaults (own_entries c)).
  split; [|split; [|split; [|split; [|split; [|split]]]]].
  - unfold processSearchBar. simpl.
    do 5 (erewrite bind_ok by (apply getProp_ref; exact Ho)).
    erewrite bind_ok by apply alloc_eq.
    erewrite bind_ok by (apply spread_entries_ref; simpl; fold l1; rewrite lookup_insert_ne by done; exact Hc).
    erewrite bind_ok by apply alloc_eq.
    erewrite setProp_ref; [reflexivity | | by apply own_set_named].
    simpl. rewrite !lookup_insert_ne by done. exact Ho.
  - exact Hl2.
  - unfold slot. simpl. rewrite lookup_insert_eq. f_equal.
    rewrite own_get_named by done. simpl. by rewrite props_get_set_eq.
  - simpl. rewrite lookup_insert_ne by done. by rewrite lookup_insert_eq.
  - intros k. by rewrite props_get_assign, props_get_reverse.
  - reflexivity.
  - intros Hne. simpl. unfold h1. by rewrite !lookup_insert_ne.
Qed.

Lemma processSearchBar_object_merge_witness :
  exists s' l ps,
    processSearchBar (KStr "searchBar") (VRef 2%positive) (VRef 1%positive) state_searchBar_object
    = Ok tt s'
    /\ heap state_searchBar_object !! l = None
    /\ slot s' 1%positive "searchBar" = Some (VRef l)
    /\ heap s' !! l = Some (plain ps)
    /\ (forall k, props_get k ps
                  = match props_get k [("0", VStr "z"); ("visible", VBool true);
                                       ("placeholder", VStr "Search"); ("cancelText", VStr "Cancel")] with
                    | Some v => Some v
                    | None => props_get k (deprecatedSearchBarOptions VUndefined VUndefined VUndefined
                                             VUndefined (VStr "Find"))
                    end)
    /\ trace s' = trace state_searchBar_object
    /\ (2%positive <> 1%positive -> heap s' !! 2%positive
        = Some (plain [("0", VStr "z"); ("visible", VBool true);
                       ("placeholder", VStr "Search"); ("cancelText", VStr "Cancel")])).
Proof.
  apply (processSearchBar_object_merge state_searchBar_object 1%positive 2%positive
           (plain [("searchBar", VRef 2%positive); ("searchBarPlaceholder", VStr "Find")])
           (plain [("0", VStr "z"); ("visible", VBool true);
                   ("placeholder", VStr "Search"); ("cancelText", VStr "Cancel")]));
    [reflexivity | reflexivity |].
  apply (bool_decide_unpack _). vm_compute. exact I.
Defined.

(** ** The buttons transform *)

Lemma getProp_array_index s la arr es i v :
  heap s !! la = Some arr -> o_elems arr = Some es ->
  es !! i = Some v -> (N.of_nat i < 4294967295)%N ->
  getProp (VRef la) (key_to_string (KIdx (N.of_nat i))) s = Ok v s.
Proof.
  intros Ha He Hi Hb. rewrite (getProp_ref _ _ _ _ Ha). f_equal.
  unfold own_get. rewrite He. simpl. rewrite pretty_N_not_length.
  rewrite array_index_pretty_inv by done. by rewrite Nat2N.id, Hi.
Qed.

(** One button of the array. *)
Lemma button_step s l b (k : key) :
  heap s !! l = Some b ->
  (passProps ← getProp (VRef l) "passProps";
   if truthy passProps then
     id ← getProp (VRef l) "id";
     if truthy id then
       id' ← getProp (VRef l) "id";
       passProps' ← getProp (VRef l) "passProps";
       store_updateProps id' passProps' ;;
       setProp (VRef l) "passProps" VUndefined
     else mret tt
   else mret tt) s
  = Ok tt (mkState (<[l := button_cleared b]> (heap s)) (trace s ++ button_events b)).
Proof.
  intros Hb. unfold button_cleared, button_events, button_forwards.
  erewrite bind_ok by (apply getProp_ref; exact Hb).
  destruct (truthy (default VUndefined (own_get b "passProps"))); simpl.
  - erewrite bind_ok by (apply getProp_ref; exact Hb).
    destruct (truthy (default VUndefined (own_get b "id"))); simpl.
    + erewrite bind_ok by (apply getProp_ref; exact Hb).
      erewrite bind_ok by (apply getProp_ref; exact Hb).
      erewrite bind_ok by apply emit_eq.
      erewrite setProp_ref; [reflexivity | exact Hb | by apply own_set_named].
    + unfold mret, M_ret. by rewrite insert_id, app_nil_r; [destruct s|].
  - unfold mret, M_ret. by rewrite insert_id, app_nil_r; [destruct s|].
Qed.

Lemma flat_map_ext_elem {A B : Type} (f g : A -> list B) (l : list A) :
  (forall a, a ∈ l -> f a = g a) -> flat_map f l = flat_map g l.
Proof.
  induction l as [|a l IH]; intros H; simpl; [reflexivity|].
  rewrite H by left. rewrite IH; [reflexivity|]. intros a' Ha'. apply H. by right.
Qed.

Lemma buttons_loop (la : loc) (arr : object) (ls : list loc) :
  o_elems arr = Some (VRef <$> ls) -> (N.of_nat (length ls) < 4294967295)%N -> la ∉ ls ->
  forall rest done s,
    ls = done ++ rest -> NoDup rest ->
    heap s !! la = Some arr -> (forall l, l ∈ rest -> is_Some (heap s !! l)) ->
    exists s',
      forM_ ((fun i => KIdx (N.of_nat i)) <$> seq (length done) (length rest))
        (fun k =>
           v ← getProp (VRef la) (key_to_string k);
           (fun (button : value) (_ : key) =>
              passProps ← getProp button "passProps";
              if truthy passProps then
                id ← getProp button "id";
                if truthy id then
                  id' ← getProp button "id";
                  passProps' ← getProp button "passProps";
                  store_updateProps id' passProps' ;;
                  setProp button "passProps" VUndefined
                else mret tt
              else mret tt) v k) s = Ok tt s'
      /\ (forall l b, l ∈ rest -> heap s !! l = Some b -> heap s' !! l = Some (button_cleared b))
      /\ (forall l, l ∉ rest -> heap s' !! l = heap s !! l)
      /\ trace s' = trace s
                    ++ flat_map (fun l => match heap s !! l with
                                          | Some b => button_events b
                                          | None => []
                                          end) rest.
Proof.
  intros He Hlen Hla.
  induction rest as [|l rest IH]; intros done s Hls Hnd Harr Hall; simpl.
  - exists s. split; [reflexivity|]. split; [intros l b Hl; by apply elem_of_nil in Hl|].
    split; [done | by rewrite app_nil_r].
  - apply NoDup_cons in Hnd as [Hl Hnd].
    destruct (Hall l) as [b Hb]; [left|].
    assert (Hne : la <> l) by (intros ->; apply Hla; rewrite Hls; apply elem_of_app; right; left).
    assert (Hi : (VRef <$> ls) !! length done = Some (VRef l)).
    { rewrite Hls, fmap_app, lookup_app_r by (by rewrite length_fmap).
      by rewrite length_fmap, Nat.sub_diag. }
    assert (Hbound : (N.of_nat (length done) < 4294967295)%N).
    { rewrite Hls, length_app in Hlen. simpl in Hlen. lia. }
    erewrite bind_ok; cycle 1.
    { erewrite bind_ok by (eapply getProp_array_index; eauto).
      apply (button_step s l b (KIdx (N.of_nat (length done))) Hb). }
    set (s1 := mkState (<[l := button_cleared b]> (heap s)) (trace s ++ button_events b)).
    destruct (IH (done ++ [l]) s1) as (s' & Hrun & Hin & Hout & Htr).
    { by rewrite <- app_assoc. }
    { exact Hnd. }
    { simpl. by rewrite lookup_insert_ne. }
    { intros l' Hl'. simpl. rewrite lookup_insert_ne by (intros <-; done). apply Hall. by right. }
    rewrite length_app in Hrun. simpl in Hrun. rewrite Nat.add_1_r in Hrun.
    exists s'. split; [exact Hrun|]. split; [|split].
    + intros l' b' Hl' Hb'. apply elem_of_cons in Hl' as [->|Hl'].
      * rewrite Hout by done. simpl. rewrite lookup_insert_eq. congruence.
      * apply Hin; [done|]. simpl. rewrite lookup_insert_ne by (intros <-; done). exact Hb'.
    + intros l' Hl'. apply not_elem_of_cons in Hl' as [Hne' Hl'].
      rewrite Hout by done. simpl. by rewrite lookup_insert_ne.
    + rewrite Htr. simpl. rewrite Hb, <- app_assoc. f_equal. f_equal.
      apply flat_map_ext_elem. intros l' Hl'.
      rewrite lookup_insert_ne by (intros <-; done). reflexivity.
Qed.

(** X10: for a key that ends with [Buttons] and an array of distinct
    button objects: every button that has a truthy [passProps] and a
    truthy [id] has its props forwarded to the store under its id, in the
    order of the array, and its [passProps] set to [undefined]; a button
    without [id] or without [passProps] is left as it is, and so is
    every other object. *)
Theorem processButtonsPassProps_array (k : key) (la : loc) (arr : object) (ls : list loc)
    (s : State) :
  endsWith k "Buttons" = true ->
  heap s !! la = Some arr -> o_elems arr = Some (VRef <$> ls) ->
  (N.of_nat (length ls) < 4294967295)%N ->
  NoDup ls -> la ∉ ls -> (forall l, l ∈ ls -> is_Some (heap s !! l)) ->
  exists s',
    processButtonsPassProps k (VRef la) s = Ok tt s'
    /\ (forall l b, l ∈ ls -> heap s !! l = Some b -> heap s' !! l = Some (button_cleared b))
    /\ (forall l, l ∉ ls -> heap s' !! l = heap s !! l)
    /\ trace s' = trace s
                  ++ flat_map (fun l => match heap s !! l with
                                        | Some b => button_events b
                                        | None => []
                                        end) ls.
Proof.
  intros Hk Harr He Hlen Hnd Hla Hall.
  destruct (buttons_loop la arr ls He Hlen Hla ls [] s eq_refl Hnd Harr Hall)
    as (s' & Hrun & Hin & Hout & Htr).
  exists s'. split; [|by repeat split].
  unfold processButtonsPassProps, forEach. rewrite Hk.
  erewrite bind_ok; cycle 1.
  { simpl. erewrite bind_ok by (unfold read; by rewrite Harr). by rewrite He. }
  unfold index_keys. rewrite length_fmap, Nat2N.id. exact Hrun.
Qed.

Lemma processButtonsPassProps_array_witness :
  exists s',
    processButtonsPassProps (KStr "rightButtons") (VRef 2%positive) state_buttons = Ok tt s'
    /\ (forall l b, l ∈ [3%positive; 4%positive; 5%positive] ->
                    heap state_buttons !! l = Some b -> heap s' !! l = Some (button_cleared b))
    /\ (forall l, l ∉ [3%positive; 4%positive; 5%positive] ->
                  heap s' !! l = heap state_buttons !! l)
    /\ trace s' = [EvUpdateProps (VStr "b1") (VRef 6%positive)].
Proof.
  apply (processButtonsPassProps_array (KStr "rightButtons") 2%positive
           (Obj (Some [VRef 3%positive; VRef 4%positive; VRef 5%positive]) [])
           [3%positive; 4%positive; 5%positive] state_buttons).
  - reflexivity.
  - reflexivity.
  - reflexivity.
  - vm_compute. reflexivity.
  - apply (bool_decide_unpack _). vm_compute. exact I.
  - apply (bool_decide_unpack _). vm_compute. exact I.
  - apply Forall_forall. apply (bool_decide_unpack _). vm_compute. exact I.
Defined.

(** ** A root that is not a collection *)

(** X11: handed [undefined], [null], a boolean or a number instead of an
    options object, [processOptions] and [processDefaultOptions] return
    at once: no hook is called, no collaborator is asked, nothing is
    allocated and nothing is thrown. *)
Theorem processOptions_not_a_collection (C : Collaborators) (fuel : nat) (options : value)
    (cmd : CommandName) (s : State) :
  isObject options = false -> isString options = false ->
  processOptions C (S fuel) options cmd s = Ok tt s
  /\ processDefaultOptions C (S fuel) options cmd s = Ok tt s.
Proof.
  intros Ho Hs. destruct options; try discriminate; split; reflexivity.
Qed.

Lemma processOptions_not_a_collection_witness :
  processOptions plainCollaborators 1 VUndefined "push" state_a = Ok tt state_a
  /\ processDefaultOptions plainCollaborators 1 VUndefined "push" state_a = Ok tt state_a.
Proof.
  apply (processOptions_not_a_collection plainCollaborators 0 VUndefined "push" state_a);
    reflexivity.
Defined.

(** ** Keys no transform acts on *)

Lemma substring_all s : substring 0 (String.length s) s = s.
Proof. induction s as [|c s IH]; simpl; [reflexivity | by rewrite IH]. Qed.

Lemma substring_suffix s : forall n,
  (n <= String.length s)%nat ->
  exists pre, s = (pre ++ substring n (String.length s - n) s)%string.
Proof.
  induction s as [|c s IH]; intros n Hn.
  - exists "". simpl in Hn. assert (n = 0)%nat as -> by lia. reflexivity.
  - destruct n as [|n].
    + exists "". rewrite Nat.sub_0_r, substring_all. reflexivity.
    + simpl in Hn. destruct (IH n ltac:(lia)) as [pre Hpre].
      exists (String c pre). exact (f_equal (String c) Hpre).
Qed.

Lemma endsWith_suffix k t :
  endsWith k t = true -> exists pre, key_to_string k = (pre ++ t)%string.
Proof.
  unfold endsWith. intros H. apply andb_prop in H as [Hlen Heq].
  apply Nat.leb_le in Hlen. apply String.eqb_eq in Heq.
  destruct (substring_suffix (key_to_string k)
              (String.length (key_to_string k) - String.length t) ltac:(lia)) as [pre Hpre].
  exists pre. rewrite Hpre at 1. f_equal. rewrite <- Heq at 3. f_equal. lia.
Qed.

Lemma parse_digits_app pre : forall acc t x,
  parse_digits acc (pre ++ t)%string = Some x -> exists acc', parse_digits acc' t = Some x.
Proof.
  induction pre as [|c pre IH]; intros acc t x H; simpl in H; [eauto|].
  destruct (digit_of c); [eauto | discriminate].
Qed.

Lemma endsWith_index n t :
  (forall acc, parse_digits acc t = None) -> endsWith (KIdx n) t = false.
Proof.
  intros Ht. destruct (endsWith (KIdx n) t) eqn:E; [|reflexivity].
  apply endsWith_suffix in E as [pre Hpre]. simpl in Hpre.
  pose proof (parse_digits_pretty n) as Hp. rewrite Hpre in Hp.
  apply parse_digits_app in Hp as [acc' Hp]. by rewrite Ht in Hp.
Qed.

Lemma inert_key_index n : inert_key (KIdx n) = true.
Proof.
  unfold inert_key. simpl.
  rewrite !endsWith_index by (intros acc; reflexivity). reflexivity.
Qed.

(** ** The walk over inert keys *)

Section Quiet.

Context (h0 : Heap).

Let anything {A} : A -> Prop := fun _ => True.

Lemma quiet_ret {A} (Q : A -> Prop) (a : A) : Q a -> quiet h0 Q (mret a).
Proof. intros HQ s Hs. by split. Qed.

Lemma quiet_bind {A B} (Q : A -> Prop) (R : B -> Prop) (m : M A) (f : A -> M B) :
  quiet h0 Q m -> (forall a, Q a -> quiet h0 R (f a)) -> quiet h0 R (m ≫= f).
Proof.
  intros Hm Hf s Hs. specialize (Hm s Hs). unfold mbind, M_bind.
  destruct (m s) as [a s'|e s']; [|exact Hm].
  destruct Hm as [Hs' Ha]. exact (Hf a Ha s' Hs').
Qed.

Lemma quiet_forM_ {A} (l : list A) (f : A -> M unit) :
  (forall a, a ∈ l -> quiet h0 anything (f a)) -> quiet h0 anything (forM_ l f).
Proof.
  induction l as [|a l IH]; intros Hf; simpl.
  - by apply quiet_ret.
  - eapply quiet_bind; [apply Hf; left|].
    intros _ _. apply IH. intros b Hb. apply Hf. by right.
Qed.

Lemma quiet_emit (e : Heap -> event) : quiet h0 anything (emit e).
Proof. intros s Hs. unfold emit. by split. Qed.

Lemma quiet_get_heap : quiet h0 (fun h => h = h0) get_heap.
Proof. intros s Hs. unfold get_heap. by split. Qed.

Lemma quiet_getProp v k : nullish v = false -> quiet h0 anything (getProp v k).
Proof.
  intros Hv s Hs. destruct v; try discriminate; simpl; try done.
  unfold getProp, read, mbind, M_bind. destruct (heap s !! l); simpl; [done|]. split; [done|by left].
Qed.

Lemma quiet_collection_keys v :
  inert_heap h0 ->
  quiet h0 (fun ks => (ks <> [] -> nullish v = false)
                      /\ Forall (fun k => inert_key k = true) ks) (collection_keys v).
Proof.
  intros Hin s Hs.
  assert (Hidx : forall n, Forall (fun k => inert_key k = true) (index_keys n)).
  { intros n. unfold index_keys. apply Forall_fmap, Forall_forall. intros i _.
    apply inert_key_index. }
  destruct v; unfold collection_keys, read, mbind, M_bind, mret, M_ret; cbv beta;
    try (split; [done|]; split; [done|]; by constructor).
  - split; [done|]. split; [done|]. apply Hidx.
  - destruct (heap s !! l) as [o|] eqn:Ho; [|split; [done|by left]].
    destruct (o_elems o); [split; [done|]; split; [done|]; apply Hidx|].
    destruct (option_bind _ _ isLength _);
      [split; [done|]; split; [done|]; apply Hidx|].
    split; [done|]. split; [done|].
    rewrite Hs in Ho. specialize (Hin l o Ho). simpl in Hin. unfold inert_object in Hin.
    apply Forall_fmap, Forall_forall. intros p Hp. rewrite forallb_forall in Hin.
    apply Hin. by apply list_elem_of_In.
Qed.

End Quiet.

Section InertWalk.

Context (C : Collaborators) (h0 : Heap).
Hypothesis C_empty : no_processors C.
Hypothesis h0_inert : inert_heap h0.

Let anything {A} : A -> Prop := fun _ => True.

Lemma processEntry_inert recurse objectToProcess parentOptions onProcess cmd parentPath val k :
  inert_key k = true -> nullish objectToProcess = false ->
  (forall v p, quiet h0 anything (recurse v p)) ->
  (forall k p, quiet h0 anything (onProcess k p)) ->
  quiet h0 anything
    (processEntry C recurse objectToProcess parentOptions onProcess cmd parentPath val k).
Proof.
  intros Hk Hobj Hrec Hon. unfold inert_key in Hk.
  repeat (apply andb_prop in Hk as [Hk ?]).
  repeat match goal with H : negb _ = true |- _ => apply negb_true_iff in H end.
  unfold processEntry, processWithRegisteredProcessor, processColor, processComponent,
    processImage, processButtonsPassProps, processSearchBar, processInterpolation,
    processAnimation, processPush, processPop, processSetStackRoot.
  repeat match goal with H : _ = false |- _ => rewrite H; clear H end.
  simpl negb. cbv iota.
  eapply quiet_bind with (Q := anything).
  { destruct (C_empty (resolveObjectPath k parentPath)) as [-> | ->]; by apply quiet_ret. }
  intros _ _. eapply quiet_bind with (Q := anything); [by apply quiet_ret|]. intros _ _.
  destruct (truthy val); simpl; [|by apply quiet_ret].
  do 5 (eapply quiet_bind with (Q := anything); [by apply quiet_ret|]; intros _ _).
  eapply quiet_bind with (Q := anything).
  { do 2 (eapply quiet_bind with (Q := anything); [by apply quiet_ret|]; intros _ _).
    by apply quiet_ret. }
  intros _ _. eapply quiet_bind; [apply Hon|]. intros _ _.
  eapply quiet_bind; [by apply quiet_getProp|]. intros processedValue _.
  eapply quiet_bind; [apply quiet_get_heap|]. intros h _.
  destruct (_ && _); [apply Hrec | by apply quiet_ret].
Qed.

Lemma processObject_inert onProcess cmd :
  (forall k p, quiet h0 anything (onProcess k p)) ->
  forall fuel objectToProcess parentOptions parentPath,
    quiet h0 anything (processObject C fuel objectToProcess parentOptions onProcess cmd parentPath).
Proof.
  intros Hon. induction fuel as [|fuel IH]; intros obj parent path; simpl.
  - intros s Hs. split; [done | by right].
  - unfold forEach. eapply quiet_bind; [by apply quiet_collection_keys|].
    intros ks [Hne Hks]. apply quiet_forM_. intros k Hk.
    assert (Hobj : nullish obj = false) by (apply Hne; intros ->; by apply elem_of_nil in Hk).
    eapply quiet_bind; [by apply quiet_getProp|]. intros v _.
    apply processEntry_inert; [|done| |done].
    + rewrite Forall_forall in Hks. by apply Hks.
    + intros v' p'. apply IH.
Qed.

End InertWalk.

Lemma clone_inert v s :
  inert_heap (heap s) ->
  match clone v s with
  | Ok _ s' => inert_heap (heap s')
               /\ (forall l, l <> fresh (dom (heap s)) -> heap s' !! l = heap s !! l)
  | Throw e s' => s' = s /\ e = DanglingReference
  end.
Proof.
  intros Hin. destruct v; try (by split).
  unfold clone, read, alloc, mbind, M_bind.
  destruct (heap s !! l) as [o|] eqn:Ho; [|by split].
  assert (Hstep : forall o',
    inert_object o' = true ->
    inert_heap (<[fresh (dom (heap s)) := o']> (heap s))
    /\ (forall l0, l0 <> fresh (dom (heap s)) ->
                   <[fresh (dom (heap s)) := o']> (heap s) !! l0 = heap s !! l0)).
  { intros o' Ho'. split.
    - by apply map_Forall_insert_2.
    - intros l0 Hl0. by rewrite lookup_insert_ne. }
  destruct (o_elems o) as [es|]; simpl; apply Hstep.
  - unfold inert_object. simpl. destruct es as [|[] ?]; try reflexivity.
    destruct (props_get "index" (o_props o)); reflexivity.
  - exact (Hin l o Ho).
Qed.

(** X12: with no registered processor and no property name that a
    transform acts on anywhere in the heap, [processOptions] and
    [processDefaultOptions] modify no object, whatever the nesting: the
    only heap change is the snapshot allocated at the start.  They can fail
    only on a dangling reference or for lack of fuel, never with a
    [TypeError]. *)
Theorem processOptions_inert (C : Collaborators) (fuel : nat) (options : value)
    (cmd : CommandName) (s : State) (r : outcome unit) :
  no_processors C -> inert_heap (heap s) ->
  r = processOptions C fuel options cmd s \/ r = processDefaultOptions C fuel options cmd s ->
  (forall l, l <> fresh (dom (heap s)) -> heap (final_state r) !! l = heap s !! l)
  /\ (forall e s', r = Throw e s' -> e = DanglingReference \/ e = OutOfFuel).
Proof.
  intros HC Hin Hr.
  assert (Hgen : forall onProcess,
    (forall h k p, quiet h (fun _ => True) (onProcess k p)) ->
    forall r', r' = (snapshot ← clone options;
                     processObject C fuel options snapshot onProcess cmd VUndefined) s ->
    (forall l, l <> fresh (dom (heap s)) -> heap (final_state r') !! l = heap s !! l)
    /\ (forall e s', r' = Throw e s' -> e = DanglingReference \/ e = OutOfFuel)).
  { intros onProcess Hon r' Hr'. unfold mbind, M_bind in Hr'.
    pose proof (clone_inert options s Hin) as Hc.
    destruct (clone options s) as [snapshot s1|e s1].
    - destruct Hc as [Hin1 Hframe].
      pose proof (processObject_inert C (heap s1) HC Hin1 onProcess cmd (Hon (heap s1))
                    fuel options snapshot VUndefined s1 eq_refl) as Hq.
      destruct (processObject C fuel options snapshot onProcess cmd VUndefined s1)
        as [[] s2|e s2]; subst r'; simpl.
      + destruct Hq as [Hq _]. split; [|intros ? ? ?; discriminate].
        intros l Hl. rewrite Hq. by apply Hframe.
      + destruct Hq as [Hq He]. split; [|by intros ? ? [= <- _]].
        intros l Hl. rewrite Hq. by apply Hframe.
    - destruct Hc as [-> ->]. subst r'. simpl. split; [done|]. intros ? ? [= <- _]. by left. }
  destruct Hr as [-> | ->].
  - apply (Hgen (onProcess_options cmd)); [|reflexivity].
    intros h k p. unfold onProcess_options.
    eapply quiet_bind; [apply quiet_emit|]. intros _ _. apply quiet_emit.
  - apply (Hgen onProcess_defaultOptions); [|reflexivity].
    intros h k p. apply quiet_emit.
Qed.

Lemma processOptions_inert_witness :
  (forall l, l <> fresh (dom (heap state_inert)) ->
             heap (final_state (processOptions plainCollaborators 4 (VRef 1%positive) "push"
                                  state_inert)) !! l
             = heap state_inert !! l)
  /\ (forall e s', processOptions plainCollaborators 4 (VRef 1%positive) "push" state_inert
                   = Throw e s' ->
                   e = DanglingReference \/ e = OutOfFuel).
Proof.
  apply (processOptions_inert plainCollaborators 4 (VRef 1%positive) "push" state_inert).
  - intros path. left. reflexivity.
  - apply (bool_decide_unpack _). vm_compute. exact I.
  - left. reflexivity.
Defined.

(** ** [processOptions] and [processDefaultOptions] *)

Lemma agree_ret {A} (a : A) : agree (mret a) (mret a).
Proof. intros s1 s2 H. by split. Qed.

Lemma agree_throw {A} e : agree (@throw A e) (throw e).
Proof. intros s1 s2 H. by split. Qed.

Lemma agree_bind {A B} (m1 m2 : M A) (f1 f2 : A -> M B) :
  agree m1 m2 -> (forall a, agree (f1 a) (f2 a)) -> agree (m1 ≫= f1) (m2 ≫= f2).
Proof.
  intros Hm Hf s1 s2 Hs. specialize (Hm s1 s2 Hs). unfold mbind, M_bind.
  destruct (m1 s1) as [a s1'|e s1'], (m2 s2) as [b s2'|e' s2']; simpl in Hm; try done.
  destruct Hm as [<- Hs']. by apply Hf.
Qed.

Lemma agree_forM_ {A} (l : list A) (f1 f2 : A -> M unit) :
  (forall a, a ∈ l -> agree (f1 a) (f2 a)) -> agree (forM_ l f1) (forM_ l f2).
Proof.
  induction l as [|a l IH]; intros Hf; simpl.
  - apply agree_ret.
  - apply agree_bind; [apply Hf; left|].
    intros _. apply IH. intros b Hb. apply Hf. by right.
Qed.

(** A computation that reads the heap and nothing else. *)
Lemma agree_heap_only {A} (m : M A) (g : Heap -> A + error) :
  (forall s, m s = match g (heap s) with inl a => Ok a s | inr e => Throw e s end) ->
  agree m m.
Proof.
  intros Hm s1 s2 Hs. rewrite (Hm s1), (Hm s2). destruct Hs as [Hh Ht]. rewrite Hh.
  destruct (g (heap s2)); by repeat split.
Qed.

Lemma agree_read l : agree (read l) (read l).
Proof.
  apply (agree_heap_only _ (fun h => match h !! l with Some o => inl o | None => inr DanglingReference end)).
  intros s. unfold read. by destruct (heap s !! l).
Qed.

Lemma agree_write l o : agree (write l o) (write l o).
Proof. intros s1 s2 [Hh Ht]. unfold write. simpl. repeat split; simpl; congruence. Qed.

Lemma agree_alloc o : agree (alloc o) (alloc o).
Proof. intros s1 s2 [Hh Ht]. unfold alloc. simpl. rewrite Hh. repeat split; simpl; congruence. Qed.

Lemma agree_get_heap : agree get_heap get_heap.
Proof. intros s1 s2 [Hh Ht]. unfold get_heap. simpl. by repeat split. Qed.

Lemma store_events_app t1 t2 : store_events (t1 ++ t2) = store_events t1 ++ store_events t2.
Proof. apply List.filter_app. Qed.

Lemma agree_emit_store (e : event) :
  agree (emit (fun _ => e)) (emit (fun _ => e)).
Proof.
  intros s1 s2 [Hh Ht]. unfold emit. simpl. repeat split; simpl; [done|].
  rewrite !store_events_app. by rewrite Ht.
Qed.

Lemma agree_emit_hook (e1 e2 : Heap -> event) :
  (forall h, is_store_event (e1 h) = false) -> (forall h, is_store_event (e2 h) = false) ->
  agree (emit e1) (emit e2).
Proof.
  intros H1 H2 s1 s2 [Hh Ht]. unfold emit. simpl. repeat split; simpl; [done|].
  rewrite !store_events_app. simpl. by rewrite H1, H2, !app_nil_r.
Qed.

Lemma agree_getProp v k : agree (getProp v k) (getProp v k).
Proof.
  unfold getProp. destruct v; try apply agree_ret; try apply agree_throw.
  apply agree_bind; [apply agree_read|]. intros o. apply agree_ret.
Qed.

Lemma agree_setProp v k x : agree (setProp v k x) (setProp v k x).
Proof.
  unfold setProp. destruct v; try apply agree_throw.
  apply agree_bind; [apply agree_read|]. intros o.
  destruct (own_set o k x); [apply agree_write | apply agree_throw].
Qed.

Lemma agree_hasOwn v k : agree (hasOwn v k) (hasOwn v k).
Proof.
  unfold hasOwn. destruct v; try apply agree_ret.
  apply agree_bind; [apply agree_read|]. intros o. apply agree_ret.
Qed.

Lemma agree_spread_entries v : agree (spread_entries v) (spread_entries v).
Proof.
  unfold spread_entries. destruct v; try apply agree_ret.
  apply agree_bind; [apply agree_read|]. intros o. apply agree_ret.
Qed.

Lemma agree_hasPath path : forall v, agree (hasPath v path) (hasPath v path).
Proof.
  induction path as [|k [|k' rest] IH]; intros v; simpl.
  - apply agree_ret.
  - apply agree_hasOwn.
  - apply agree_bind; [apply agree_hasOwn|]. intros [|]; [|apply agree_ret].
    apply agree_bind; [apply agree_getProp|]. intros v'. apply IH.
Qed.

Lemma agree_has v p segs : agree (has v p segs) (has v p segs).
Proof.
  unfold has. apply agree_bind; [apply agree_hasOwn|]. intros [|]; apply agree_hasPath.
Qed.

Lemma agree_isLegacyAnimation v : agree (isLegacyAnimation v) (isLegacyAnimation v).
Proof.
  unfold isLegacyAnimation. apply agree_bind; [apply agree_has|]. intros [|]; [apply agree_ret|].
  apply agree_bind; [apply agree_has|]. intros b. apply agree_ret.
Qed.

Lemma agree_collection_keys v : agree (collection_keys v) (collection_keys v).
Proof.
  unfold collection_keys. destruct v; try apply agree_ret.
  apply agree_bind; [apply agree_read|]. intros o.
  destruct (o_elems o); [apply agree_ret|].
  destruct (_ ≫= _); apply agree_ret.
Qed.

Lemma agree_forEach v (f1 f2 : value -> key -> M unit) :
  (forall x k, agree (f1 x k) (f2 x k)) -> agree (forEach v f1) (forEach v f2).
Proof.
  intros Hf. unfold forEach. apply agree_bind; [apply agree_collection_keys|].
  intros ks. apply agree_forM_. intros k _.
  apply agree_bind; [apply agree_getProp|]. intros x. apply Hf.
Qed.

Lemma agree_clone v : agree (clone v) (clone v).
Proof.
  unfold clone. destruct v; try apply agree_ret.
  apply agree_bind; [apply agree_read|]. intros o.
  destruct (o_elems o); apply agree_alloc.
Qed.

Section Agree.

Context (C : Collaborators).
Hypothesis C_blind : collaborators_hook_blind C.

Ltac abind lem := apply agree_bind; [apply lem | intros ?].

Lemma agree_processWithRegisteredProcessor k val options path cmd :
  agree (processWithRegisteredProcessor C k val options path cmd)
        (processWithRegisteredProcessor C k val options path cmd).
Proof.
  unfold processWithRegisteredProcessor.
  destruct (getProcessors C path) as [ps|] eqn:E; [|apply agree_ret].
  apply agree_forM_. intros p Hp.
  apply agree_bind; [|intros r; apply agree_setProp].
  destruct C_blind as (H & _). by eapply H.
Qed.

Lemma agree_processColor k val options :
  agree (processColor C k val options) (processColor C k val options).
Proof.
  unfold processColor. destruct (_ || _); [|apply agree_ret].
  apply agree_bind; [|intros r; apply agree_setProp].
  destruct C_blind as (_ & H & _). destruct val; try apply H. apply agree_ret.
Qed.

Lemma agree_processImage k val options :
  agree (processImage C k val options) (processImage C k val options).
Proof.
  unfold processImage. destruct (_ || _); [|apply agree_ret].
  apply agree_bind; [|intros r; apply agree_setProp].
  destruct C_blind as (_ & _ & H & _). destruct (isString val); [apply agree_ret | apply H].
Qed.

Lemma agree_processButtonsPassProps k val :
  agree (processButtonsPassProps k val) (processButtonsPassProps k val).
Proof.
  unfold processButtonsPassProps. destruct (endsWith k "Buttons"); [|apply agree_ret].
  apply agree_forEach. intros button _.
  abind agree_getProp. destruct (truthy _); [|apply agree_ret].
  abind agree_getProp. destruct (truthy _); [|apply agree_ret].
  abind agree_getProp. abind agree_getProp.
  apply agree_bind; [apply agree_emit_store|]. intros _. apply agree_setProp.
Qed.

Lemma agree_processComponent k val options :
  agree (processComponent C k val options) (processComponent C k val options).
Proof.
  unfold processComponent. destruct (isEqual k "component"); [|apply agree_ret].
  abind agree_getProp.
  apply agree_bind.
  { destruct (truthy _); [apply agree_getProp|]. destruct C_blind as (_ & _ & _ & H). apply H. }
  intros cid. abind agree_setProp. abind agree_getProp.
  apply agree_bind; [apply agree_emit_store|]. intros _.
  abind agree_getProp.
  apply agree_bind.
  { destruct (truthy _); [|apply agree_ret].
    abind agree_getProp. abind agree_getProp. apply agree_emit_store. }
  intros _. abind agree_getProp. apply agree_setProp.
Qed.

Lemma agree_onProcessOptions k p cmd :
  agree (deprecations_onProcessOptions k p cmd) (deprecations_onProcessOptions k p cmd).
Proof. by apply agree_emit_hook. Qed.

Lemma agree_processSearchBar k val options :
  agree (processSearchBar k val options) (processSearchBar k val options).
Proof.
  unfold processSearchBar. destruct (negb _); [apply agree_ret|].
  do 5 abind agree_getProp. abind agree_alloc.
  destruct val;
    try (abind agree_spread_entries; abind agree_alloc; apply agree_setProp).
  abind agree_onProcessOptions. abind agree_alloc. apply agree_setProp.
Qed.

Lemma agree_processInterpolation k val options :
  agree (processInterpolation k val options) (processInterpolation k val options).
Proof.
  unfold processInterpolation. destruct (isEqual _ _); [|apply agree_ret].
  destruct (isString val); [|apply agree_ret].
  abind agree_onProcessOptions. abind agree_getProp. abind agree_alloc. apply agree_setProp.
Qed.

Lemma agree_processAnimation k val options :
  agree (processAnimation k val options) (processAnimation k val options).
Proof.
  unfold processAnimation, processPush, processPop, processSetStackRoot.
  apply agree_bind.
  { destruct (negb _); [apply agree_ret|]. abind agree_isLegacyAnimation.
    destruct a; [|apply agree_ret].
    abind agree_getProp. abind agree_getProp. abind agree_alloc. apply agree_setProp. }
  intros _. apply agree_bind.
  { destruct (negb _); [apply agree_ret|]. abind agree_isLegacyAnimation.
    destruct a; [|apply agree_ret].
    abind agree_getProp. abind agree_getProp. abind agree_alloc. apply agree_setProp. }
  intros _. destruct (negb _); [apply agree_ret|]. abind agree_isLegacyAnimation.
  destruct a; [|apply agree_ret].
  abind agree_alloc. abind agree_alloc. apply agree_setProp.
Qed.

Lemma agree_processEntry recurse1 recurse2 objectToProcess parentOptions onProcess1 onProcess2
    cmd parentPath val k :
  (forall v p, agree (recurse1 v p) (recurse2 v p)) ->
  (forall k p, agree (onProcess1 k p) (onProcess2 k p)) ->
  agree (processEntry C recurse1 objectToProcess parentOptions onProcess1 cmd parentPath val k)
        (processEntry C recurse2 objectToProcess parentOptions onProcess2 cmd parentPath val k).
Proof.
  intros Hrec Hon. unfold processEntry.
  abind agree_processWithRegisteredProcessor. abind agree_processColor.
  destruct (negb _); [apply agree_ret|].
  abind agree_processComponent. abind agree_processImage. abind agree_processButtonsPassProps.
  abind agree_processSearchBar. abind agree_processInterpolation. abind agree_processAnimation.
  abind Hon. abind agree_getProp. abind agree_get_heap.
  destruct (_ && _); [apply Hrec | apply agree_ret].
Qed.

Lemma agree_processObject onProcess1 onProcess2 cmd :
  (forall k p, agree (onProcess1 k p) (onProcess2 k p)) ->
  forall fuel objectToProcess parentOptions parentPath,
    agree (processObject C fuel objectToProcess parentOptions onProcess1 cmd parentPath)
          (processObject C fuel objectToProcess parentOptions onProcess2 cmd parentPath).
Proof.
  intros Hon. induction fuel as [|fuel IH]; intros obj parent path; simpl.
  - apply agree_throw.
  - apply agree_forEach. intros x k. apply agree_processEntry; [|exact Hon].
    intros v p. apply IH.
Qed.

End Agree.

(** X13: [processDefaultOptions] does to the options, to the heap and to
    the store exactly what [processOptions] does, and returns or throws
    alike; the two differ only in which deprecation hooks they call.
    This holds for collaborators whose results do not depend on the hook
    calls made so far. *)
Theorem processDefaultOptions_as_processOptions (C : Collaborators) (fuel : nat)
    (options : value) (cmd : CommandName) (s1 s2 : State) :
  collaborators_hook_blind C -> same_effect s1 s2 ->
  same_outcome (processOptions C fuel options cmd s1) (processDefaultOptions C fuel options cmd s2).
Proof.
  intros HC. revert s1 s2.
  change (agree (processOptions C fuel options cmd) (processDefaultOptions C fuel options cmd)).
  unfold processOptions, processDefaultOptions.
  apply agree_bind; [apply agree_clone|]. intros snapshot.
  apply agree_processObject; [exact HC|].
  intros k p. unfold onProcess_options, onProcess_defaultOptions.
  intros s1 s2 [Hh Ht]. unfold deprecations_onProcessOptions, deprecations_checkForDeprecatedOptions,
    deprecations_onProcessDefaultOptions, emit, mbind, M_bind. simpl.
  repeat split; simpl; [done|].
  rewrite !store_events_app. simpl. by rewrite Ht, !app_nil_r.
Qed.

Lemma plainCollaborators_hook_blind : collaborators_hook_blind plainCollaborators.
Proof.
  split; [|split; [|split]].
  - intros path ps p v cmd Hps. discriminate Hps.
  - intros v. apply agree_ret.
  - intros v. apply agree_ret.
  - intros prefix. apply agree_ret.
Qed.

Lemma processDefaultOptions_as_processOptions_witness :
  same_outcome (processOptions plainCollaborators 4 (VRef 1%positive) "push" state_component)
               (processDefaultOptions plainCollaborators 4 (VRef 1%positive) "push" state_component).
Proof.
  apply (processDefaultOptions_as_processOptions plainCollaborators 4 (VRef 1%positive) "push"
           state_component state_component).
  - apply plainCollaborators_hook_blind.
  - split; reflexivity.
Defined.

(** ** The walk over inert keys returns *)

Lemma nesting_within_primitive h n v : isObject v = false -> nesting_within h n v = true.
Proof. intros Hv. destruct v; try discriminate; by destruct n. Qed.

Lemma nesting_within_alloc h l o n : forall v,
  h !! l = None -> nesting_within h n v = true -> nesting_within (<[l := o]> h) n v = true.
Proof.
  induction n as [|n IH]; intros v Hl Hv; destruct v; try done. simpl in *.
  destruct (h !! l0) as [o0|] eqn:Ho; [|discriminate].
  rewrite lookup_insert_ne by congruence. rewrite Ho.
  rewrite forallb_forall in *. intros x Hx. apply IH; auto.
Qed.

Section Returns.

Context (h0 : Heap).

Let anything {A} : A -> Prop := fun _ => True.

Lemma returns_ret {A} (Q : A -> Prop) (a : A) : Q a -> returns h0 Q (mret a).
Proof. intros HQ s Hs. by exists a, s. Qed.

Lemma returns_bind {A B} (Q : A -> Prop) (R : B -> Prop) (m : M A) (f : A -> M B) :
  returns h0 Q m -> (forall a, Q a -> returns h0 R (f a)) -> returns h0 R (m ≫= f).
Proof.
  intros Hm Hf s Hs. destruct (Hm s Hs) as (a & s1 & Hrun & Hs1 & Ht1 & Ha).
  destruct (Hf a Ha s1 Hs1) as (b & s2 & Hrun2 & Hs2 & Ht2 & Hb).
  exists b, s2. unfold mbind, M_bind. rewrite Hrun. repeat split; try done. congruence.
Qed.

Lemma returns_forM_ {A} (l : list A) (f : A -> M unit) :
  (forall a, a ∈ l -> returns h0 anything (f a)) -> returns h0 anything (forM_ l f).
Proof.
  induction l as [|a l IH]; intros Hf; simpl.
  - by apply returns_ret.
  - eapply returns_bind; [apply Hf; left|].
    intros _ _. apply IH. intros b Hb. apply Hf. by right.
Qed.

Lemma returns_emit_hook (e : Heap -> event) :
  (forall h, is_store_event (e h) = false) -> returns h0 anything (emit e).
Proof.
  intros He s Hs. eexists tt, _. split; [reflexivity|]. simpl. repeat split; [done|].
  rewrite store_events_app. simpl. by rewrite He, app_nil_r.
Qed.

Lemma returns_get_heap : returns h0 anything get_heap.
Proof. intros s Hs. by exists (heap s), s. Qed.

Lemma returns_getProp n v k :
  nullish v = false -> nesting_within h0 n v = true ->
  returns h0 (fun x => nesting_within h0 (pred n) x = true) (getProp v k).
Proof.
  intros Hv Hn s Hs. destruct v; try discriminate.
  - exists VUndefined, s. repeat split; try done. by apply nesting_within_primitive.
  - exists VUndefined, s. repeat split; try done. by apply nesting_within_primitive.
  - eexists _, s. split; [reflexivity|]. repeat split; try done.
    apply nesting_within_primitive. destruct (str_own_get s0 k) eqn:E; [|done]. simpl.
    by apply (str_own_get_values (fun v => isObject v = false)) in E.
  - destruct n as [|n]; [discriminate|]. simpl in Hn.
    destruct (h0 !! l) as [o|] eqn:Ho; [|discriminate].
    exists (default VUndefined (own_get o k)), s. unfold getProp, read, mbind, M_bind.
    rewrite Hs, Ho. repeat split; try done. simpl.
    destruct (own_get o k) as [x|] eqn:E; simpl; [|by apply nesting_within_primitive].
    apply (own_get_values (fun v => nesting_within h0 n v = true)
             (fun z => nesting_within_primitive h0 n (VNum z) eq_refl) o k x); [|done].
    apply Forall_forall. intros x' Hx'. rewrite forallb_forall in Hn. apply Hn.
    by apply list_elem_of_In.
Qed.

Lemma returns_collection_keys n v :
  inert_heap h0 -> nesting_within h0 n v = true ->
  returns h0 (fun ks => (ks <> [] -> nullish v = false)
                        /\ Forall (fun k => inert_key k = true) ks) (collection_keys v).
Proof.
  intros Hin Hn s Hs.
  pose proof (quiet_collection_keys h0 v Hin s Hs) as Hq.
  destruct (collection_keys v s) as [ks s'|e s'] eqn:E.
  - destruct Hq as [Hh HQ]. exists ks, s'. repeat split; try done; try apply HQ.
    pose proof (collection_keys_final v s) as Hf. rewrite E in Hf. simpl in Hf. by subst.
  - exfalso. destruct v; try discriminate.
    destruct n as [|n]; [discriminate|]. simpl in Hn.
    destruct (h0 !! l) as [o|] eqn:Ho; [|discriminate].
    unfold collection_keys, read, mbind, M_bind in E. rewrite Hs, Ho in E.
    destruct (o_elems o); [discriminate|]. destruct (option_bind _ _ _ _); discriminate.
Qed.

End Returns.

Section InertReturns.

Context (C : Collaborators) (h0 : Heap).
Hypothesis C_empty : no_processors C.
Hypothesis h0_inert : inert_heap h0.

Let anything {A} : A -> Prop := fun _ => True.

Lemma processEntry_returns recurse objectToProcess parentOptions onProcess cmd parentPath val k n :
  inert_key k = true -> nullish objectToProcess = false ->
  nesting_within h0 n objectToProcess = true ->
  (forall v p, isObject v = true -> nesting_within h0 (pred n) v = true ->
               returns h0 anything (recurse v p)) ->
  (forall k p, returns h0 anything (onProcess k p)) ->
  returns h0 anything
    (processEntry C recurse objectToProcess parentOptions onProcess cmd parentPath val k).
Proof.
  intros Hk Hobj Hn Hrec Hon. unfold inert_key in Hk.
  repeat (apply andb_prop in Hk as [Hk ?]).
  repeat match goal with H : negb _ = true |- _ => apply negb_true_iff in H end.
  unfold processEntry, processWithRegisteredProcessor, processColor, processComponent,
    processImage, processButtonsPassProps, processSearchBar, processInterpolation,
    processAnimation, processPush, processPop, processSetStackRoot.
  repeat match goal with H : _ = false |- _ => rewrite H; clear H end.
  simpl negb. cbv iota.
  eapply returns_bind with (Q := anything).
  { destruct (C_empty (resolveObjectPath k parentPath)) as [-> | ->]; by apply returns_ret. }
  intros _ _. eapply returns_bind with (Q := anything); [by apply returns_ret|]. intros _ _.
  destruct (truthy val); simpl; [|by apply returns_ret].
  do 5 (eapply returns_bind with (Q := anything); [by apply returns_ret|]; intros _ _).
  eapply returns_bind with (Q := anything).
  { do 2 (eapply returns_bind with (Q := anything); [by apply returns_ret|]; intros _ _).
    by apply returns_ret. }
  intros _ _. eapply returns_bind; [apply Hon|]. intros _ _.
  eapply returns_bind; [by apply (returns_getProp h0 n)|]. intros processedValue Hpv.
  eapply returns_bind; [apply returns_get_heap|]. intros h _.
  destruct (_ && _) eqn:E; [|by apply returns_ret].
  apply Hrec; [|done]. apply andb_prop in E as [_ E].
  destruct processedValue; try done; simpl in E; discriminate.
Qed.

Lemma processObject_returns onProcess cmd :
  (forall k p, returns h0 anything (onProcess k p)) ->
  forall fuel n objectToProcess parentOptions parentPath,
    nesting_within h0 n objectToProcess = true -> n < fuel ->
    returns h0 anything (processObject C fuel objectToProcess parentOptions onProcess cmd parentPath).
Proof.
  intros Hon. induction fuel as [|fuel IH]; intros n obj parent path Hn Hfuel; [lia|]. simpl.
  unfold forEach. eapply returns_bind; [by apply (returns_collection_keys h0 n)|].
  intros ks [Hne Hks]. apply returns_forM_. intros k Hk.
  assert (Hobj : nullish obj = false) by (apply Hne; intros ->; by apply elem_of_nil in Hk).
  eapply returns_bind; [by apply (returns_getProp h0 n)|]. intros v _.
  apply (processEntry_returns _ _ _ _ _ _ _ _ n); try done.
  - rewrite Forall_forall in Hks. by apply Hks.
  - intros v' p' Hv' Hn'. apply (IH (pred n)); [done|].
    destruct (pred n) eqn:Ep; [by destruct v'|]. lia.
Qed.

End InertReturns.

(** X14: the walk returns.  With no registered processor, no property
    name that a transform acts on, and options nested at most [n] deep
    (so without cycles or dangling references), [processOptions] and
    [processDefaultOptions] return normally at any depth bound above
    [n]; the heap differs from the initial one only by the snapshot, and
    the store is not called. *)
Theorem processOptions_inert_returns (C : Collaborators) (n fuel : nat) (options : value)
    (cmd : CommandName) (s : State) :
  no_processors C -> inert_heap (heap s) -> nesting_within (heap s) n options = true ->
  n < fuel ->
  (exists s', processOptions C fuel options cmd s = Ok tt s'
     /\ (forall l, l <> fresh (dom (heap s)) -> heap s' !! l = heap s !! l)
     /\ store_events (trace s') = store_events (trace s))
  /\ (exists s', processDefaultOptions C fuel options cmd s = Ok tt s'
     /\ (forall l, l <> fresh (dom (heap s)) -> heap s' !! l = heap s !! l)
     /\ store_events (trace s') = store_events (trace s)).
Proof.
  intros HC Hin Hn Hfuel.
  assert (Hgen : forall onProcess,
    (forall h k p, returns h (fun _ => True) (onProcess k p)) ->
    exists s', (snapshot ← clone options;
                processObject C fuel options snapshot onProcess cmd VUndefined) s = Ok tt s'
      /\ (forall l, l <> fresh (dom (heap s)) -> heap s' !! l = heap s !! l)
      /\ store_events (trace s') = store_events (trace s)).
  { intros onProcess Hon.
    assert (Hc : exists snapshot s1, clone options s = Ok snapshot s1
                   /\ inert_heap (heap s1)
                   /\ (forall l, l <> fresh (dom (heap s)) -> heap s1 !! l = heap s !! l)
                   /\ nesting_within (heap s1) n options = true
                   /\ trace s1 = trace s).
    { pose proof (clone_inert options s Hin) as Hc.
      destruct options; try (eexists _, s; by repeat split).
      destruct n as [|n']; [discriminate|]. simpl in Hn.
      destruct (heap s !! l) as [o|] eqn:Ho; [|discriminate].
      unfold clone, read, mbind, M_bind in *. rewrite Ho in *.
      assert (Hnest : forall o', nesting_within (<[fresh (dom (heap s)) := o']> (heap s)) (S n') (VRef l) = true).
      { intros o'. apply nesting_within_alloc; [apply fresh_lookup_None|]. simpl. by rewrite Ho. }
      destruct (o_elems o); unfold alloc in *; destruct Hc as [Hc1 Hc2];
        eexists _, _; (split; [reflexivity|]); simpl; repeat split; try done; apply Hnest. }
    destruct Hc as (snapshot & s1 & Hclone & Hin1 & Hframe & Hn1 & Ht1).
    destruct (processObject_returns C (heap s1) HC Hin1 onProcess cmd (Hon (heap s1))
                fuel n options snapshot VUndefined Hn1 Hfuel s1 eq_refl)
      as ([] & s2 & Hrun & Hh2 & Ht2 & _).
    exists s2. unfold mbind, M_bind. rewrite Hclone, Hrun. split; [done|]. split.
    - intros l Hl. rewrite Hh2. by apply Hframe.
    - by rewrite Ht2, Ht1. }
  split.
  - apply (Hgen (onProcess_options cmd)). intros h k p. unfold onProcess_options.
    eapply returns_bind; [by apply returns_emit_hook|]. intros _ _. by apply returns_emit_hook.
  - apply (Hgen onProcess_defaultOptions). intros h k p. by apply returns_emit_hook.
Qed.

Lemma processOptions_inert_returns_witness :
  (exists s', processOptions plainCollaborators 4 (VRef 1%positive) "push" state_inert = Ok tt s'
     /\ (forall l, l <> fresh (dom (heap state_inert)) -> heap s' !! l = heap state_inert !! l)
     /\ store_events (trace s') = store_events (trace state_inert))
  /\ (exists s', processDefaultOptions plainCollaborators 4 (VRef 1%positive) "push" state_inert
                 = Ok tt s'
     /\ (forall l, l <> fresh (dom (heap state_inert)) -> heap s' !! l = heap state_inert !! l)
     /\ store_events (trace s') = store_events (trace state_inert)).
Proof.
  apply (processOptions_inert_returns plainCollaborators 3 4 (VRef 1%positive) "push" state_inert).
  - intros path. left. reflexivity.
  - apply (bool_decide_unpack _). vm_compute. exact I.
  - vm_compute. reflexivity.
  - lia.
Defined.

(** ** The path the walk asks the registry for *)

Lemma nested_alloc h l o : forall rest lo k v,
  h !! l = None -> nested h lo k rest v -> nested (<[l := o]> h) lo k rest v.
Proof.
  induction rest as [|k' rest IH]; intros lo k v Hl; simpl.
  - intros Ho. rewrite lookup_insert_ne by congruence. exact Ho.
  - intros (l' & Ho & Hn). exists l'. split; [|by apply IH].
    rewrite lookup_insert_ne by congruence. exact Ho.
Qed.

Lemma nested_root h lo k rest v :
  nested h lo k rest v -> exists x, h !! lo = Some (plain [(k, x)]).
Proof. destruct rest; simpl; [eauto | intros (l' & Ho & _); eauto]. Qed.

(** A visit of an inert key with a truthy value: the registry step, the
    callback, and the decision to go deeper. *)
Lemma processEntry_inert_visit (C : Collaborators) recurse objectToProcess parentOptions onProcess
    cmd parentPath val k s :
  inert_key k = true -> truthy val = true ->
  processEntry C recurse objectToProcess parentOptions onProcess cmd parentPath val k s
  = (processWithRegisteredProcessor C k val objectToProcess (resolveObjectPath k parentPath) cmd ;;
     onProcess k parentOptions ;;
     processedValue ← getProp objectToProcess (key_to_string k);
     h ← get_heap;
     if negb (isEqual k "passProps") && (isObject processedValue || isArray h processedValue)
     then recurse processedValue (resolveObjectPath k parentPath)
     else mret tt) s.
Proof.
  intros Hk Hv. unfold inert_key in Hk.
  repeat (apply andb_prop in Hk as [Hk ?]).
  repeat match goal with H : negb _ = true |- _ => apply negb_true_iff in H end.
  unfold processEntry, processColor, processComponent,
    processImage, processButtonsPassProps, processSearchBar, processInterpolation,
    processAnimation, processPush, processPop, processSetStackRoot.
  repeat match goal with H : _ = false |- _ => rewrite H; clear H end.
  rewrite Hv. simpl negb. cbv iota.
  unfold mbind, M_bind, mret, M_ret.
  destruct (processWithRegisteredProcessor C k val objectToProcess
              (resolveObjectPath k parentPath) cmd s); reflexivity.
Qed.

Lemma plain_name_inert n : plain_name n = true -> inert_key (KStr n) = true.
Proof. unfold plain_name. intros H. by do 2 (apply andb_prop in H as [H _]). Qed.

Lemma collection_keys_single s lo k x :
  heap s !! lo = Some (plain [(k, x)]) -> String.eqb k "length" = false ->
  collection_keys (VRef lo) s = Ok [KStr k] s.
Proof.
  intros Ho Hk. unfold collection_keys, read, mbind, M_bind. rewrite Ho. simpl.
  unfold props_get. simpl. by rewrite Hk.
Qed.

Lemma last_cons_default {A} (l : list A) : forall a d, List.last (a :: l) d = List.last l a.
Proof.
  induction l as [|b l IH]; intros a d; [reflexivity|].
  change (List.last (b :: l) d = List.last (b :: l) a). by rewrite !IH.
Qed.

Section Chain.

Context (C : Collaborators) (f : value -> CommandName -> value) (v : value)
        (cmd : CommandName) (parentOptions : value) (onProcess : key -> value -> M unit).

Let R := fun (path : value) (k : key) => resolveObjectPath k path.

Hypothesis v_truthy : truthy v = true.
Hypothesis v_primitive : isObject v = false.
Hypothesis r_primitive : isObject (f v cmd) = false.
Hypothesis onProcess_records :
  forall k p st, exists evs, onProcess k p st = Ok tt (mkState (heap st) (trace st ++ evs)).

Lemma processObject_chain : forall rest k lo path s fuel,
  nested (heap s) lo k rest v ->
  Forall (fun n => plain_name n = true) (k :: rest) ->
  (forall i, i < length rest ->
     getProcessors C (foldl R path (KStr <$> take (S i) (k :: rest))) = None) ->
  getProcessors C (foldl R path (KStr <$> k :: rest)) = Some [pure_processor f] ->
  length rest < fuel ->
  exists s' lf,
    processObject C fuel (VRef lo) parentOptions onProcess cmd path s = Ok tt s'
    /\ heap s !! lf = Some (plain [(List.last rest k, v)])
    /\ heap s' = <[lf := plain [(List.last rest k, f v cmd)]]> (heap s)
    /\ nested (heap s') lo k rest (f v cmd).
Proof.
  induction rest as [|k' rest IH]; intros k lo path s fuel Hn Hnames Hnone Hsome Hfuel;
    (destruct fuel as [|fuel]; [lia|]);
    apply Forall_cons in Hnames as [Hk Hnames];
    pose proof (plain_name_inert k Hk) as Hinert;
    unfold plain_name in Hk; apply andb_prop in Hk as [Hk Hlen]; apply andb_prop in Hk as [_ Hpp];
    apply negb_true_iff in Hlen; apply negb_true_iff in Hpp.
  - simpl in Hn, Hsome. fold (R path (KStr k)) in Hsome. unfold R in Hsome.
    destruct (onProcess_records (KStr k) parentOptions
                (mkState (<[lo := plain [(k, f v cmd)]]> (heap s)) (trace s))) as [evs Hon].
    exists (mkState (<[lo := plain [(k, f v cmd)]]> (heap s)) (trace s ++ evs)), lo.
    split; [|split; [exact Hn | split; [reflexivity|]]].
    + simpl. unfold forEach.
      erewrite bind_ok by (eapply collection_keys_single; [exact Hn | exact Hlen]).
      simpl. rewrite bind_ret_tt.
      erewrite bind_ok by (apply getProp_ref; exact Hn).
      unfold own_get, props_get. simpl. rewrite String.eqb_refl. simpl.
      rewrite processEntry_inert_visit by done.
      erewrite bind_ok; cycle 1.
      { unfold processWithRegisteredProcessor. rewrite Hsome. simpl. rewrite bind_ret_tt.
        erewrite bind_ok by reflexivity.
        eapply setProp_ref; [exact Hn|].
        unfold own_set. simpl. unfold props_set, props_get. simpl. rewrite String.eqb_refl.
        simpl. reflexivity. }
      erewrite bind_ok by exact Hon.
      erewrite bind_ok; cycle 1.
      { apply getProp_ref. simpl. apply lookup_insert_eq. }
      unfold own_get, props_get. simpl. rewrite String.eqb_refl. simpl.
      erewrite bind_ok by reflexivity.
      destruct (f v cmd); try discriminate; by rewrite andb_false_r.
    + simpl. apply lookup_insert_eq.
  - simpl in Hn. destruct Hn as (l' & Ho & Hn).
    destruct (onProcess_records (KStr k) parentOptions s) as [evs Hon].
    set (s1 := mkState (heap s) (trace s ++ evs)).
    destruct (IH k' l' (resolveObjectPath (KStr k) path) s1 fuel) as (s' & lf & Hrun & Hlf & Hs' & Hn');
      [exact Hn | exact Hnames | | | simpl in Hfuel; lia |].
    { intros i Hi. specialize (Hnone (S i) ltac:(simpl; lia)). exact Hnone. }
    { exact Hsome. }
    assert (Hne : lo <> lf).
    { intros ->. simpl in Hlf. rewrite Ho in Hlf. injection Hlf as _ Hv. rewrite <- Hv in v_primitive.
      discriminate. }
    exists s', lf. rewrite last_cons_default.
    split; [|split; [exact Hlf | split; [exact Hs'|]]].
    + simpl. unfold forEach.
      erewrite bind_ok by (eapply collection_keys_single; [exact Ho | exact Hlen]).
      simpl. rewrite bind_ret_tt.
      erewrite bind_ok by (apply getProp_ref; exact Ho).
      unfold own_get, props_get. simpl. rewrite String.eqb_refl. simpl.
      rewrite processEntry_inert_visit by done.
      erewrite bind_ok; cycle 1.
      { unfold processWithRegisteredProcessor.
        specialize (Hnone 0 ltac:(simpl; lia)). simpl in Hnone. unfold R in Hnone.
        rewrite Hnone. reflexivity. }
      erewrite bind_ok by exact Hon.
      erewrite bind_ok by (apply getProp_ref; exact Ho).
      unfold own_get, props_get. simpl. rewrite String.eqb_refl. simpl.
      erewrite bind_ok by reflexivity.
      rewrite Hpp. simpl. exact Hrun.
    + simpl. exists l'. split; [|exact Hn'].
      rewrite Hs'. simpl. rewrite lookup_insert_ne by done. exact Ho.
Qed.

End Chain.

Lemma path_of_keys_named (k : string) (ks : list key) :
  k <> "" -> path_of_keys (KStr k :: ks) = VStr (dotted k ks).
Proof. intros Hk. unfold path_of_keys. simpl. by apply path_of_keys_from. Qed.

(** The walk of a chain of single-property objects whose names no
    transform acts on: a processor registered for the path of the last
    key, and for no path on the way, rewrites the value at the end. *)
Lemma walks_yield_chain (C : Collaborators) (f : value -> CommandName -> value) (v : value)
    (cmd : CommandName) (fuel : nat) (lo : loc) (k : string) (rest : list string) (s : State) :
  truthy v = true -> isObject v = false -> isObject (f v cmd) = false ->
  nested (heap s) lo k rest v ->
  Forall (fun n => plain_name n = true) (k :: rest) ->
  (forall i, i < length rest ->
     getProcessors C (path_of_keys (KStr <$> take (S i) (k :: rest))) = None) ->
  getProcessors C (path_of_keys (KStr <$> k :: rest)) = Some [pure_processor f] ->
  length rest < fuel ->
  walks_yield C fuel cmd s lo k rest (f v cmd).
Proof.
  intros Hv Hprim Hr Hn Hnames Hnone Hsome Hfuel.
  assert (Hgen : forall onProcess,
    (forall k p st, exists evs, onProcess k p st = Ok tt (mkState (heap st) (trace st ++ evs))) ->
    exists s', (snapshot ← clone (VRef lo);
                processObject C fuel (VRef lo) snapshot onProcess cmd VUndefined) s = Ok tt s'
               /\ nested (heap s') lo k rest (f v cmd)).
  { intros onProcess Hon.
    destruct (nested_root _ _ _ _ _ Hn) as [x Hroot].
    erewrite bind_ok by (by apply clone_plain).
    set (s1 := mkState (<[fresh (dom (heap s)) := plain [(k, x)]]> (heap s)) (trace s)).
    destruct (processObject_chain C f v cmd (VRef (fresh (dom (heap s)))) onProcess
                Hv Hprim Hr Hon rest k lo VUndefined s1 fuel)
      as (s' & lf & Hrun & _ & _ & Hn'); try done.
    - apply nested_alloc; [apply fresh_lookup_None | exact Hn].
    - by exists s'. }
  split.
  - apply (Hgen (onProcess_options cmd)). intros k' p st. eexists [_; _].
    unfold onProcess_options, deprecations_onProcessOptions,
      deprecations_checkForDeprecatedOptions, emit, mbind, M_bind. simpl.
    by rewrite <- app_assoc.
  - apply (Hgen onProcess_defaultOptions). intros k' p st. by eexists [_].
Qed.

(** X1: the path the walk asks the registry for is the names of the keys
    from the root joined by dots.  In a configuration
    [{ k: { k1: { ... { kn: v } } } }] with a non-empty root name [k]
    and names no transform acts on, a processor registered for
    [k.k1.....kn], while nothing is registered for [k], [k.k1], ..., is
    applied to [v]: both walks return with the processor's result in
    the place of [v]. *)
Theorem processOptions_registry_path (C : Collaborators) (f : value -> CommandName -> value)
    (v : value) (cmd : CommandName) (fuel : nat) (lo : loc) (k : string) (rest : list string)
    (s : State) :
  k <> "" ->
  truthy v = true -> isObject v = false -> isObject (f v cmd) = false ->
  nested (heap s) lo k rest v ->
  Forall (fun n => plain_name n = true) (k :: rest) ->
  (forall i, i < length rest ->
     getProcessors C (VStr (dotted k (KStr <$> take i rest))) = None) ->
  getProcessors C (VStr (dotted k (KStr <$> rest))) = Some [pure_processor f] ->
  length rest < fuel ->
  walks_yield C fuel cmd s lo k rest (f v cmd).
Proof.
  intros Hk Hv Hprim Hr Hn Hnames Hnone Hsome Hfuel.
  apply (walks_yield_chain C f v cmd fuel lo k rest s Hv Hprim Hr Hn Hnames); [| |exact Hfuel].
  - intros i Hi. rewrite firstn_cons, fmap_cons, path_of_keys_named by done. by apply Hnone.
  - rewrite fmap_cons, path_of_keys_named by done. exact Hsome.
Qed.

Lemma processOptions_registry_path_witness :
  walks_yield (withProcessors "topBar.title.text" [pure_processor exclaim]) 3 "push"
    state_nested_text 1%positive "topBar" ["title"; "text"] (VStr "Hi!").
Proof.
  apply (processOptions_registry_path
           (withProcessors "topBar.title.text" [pure_processor exclaim]) exclaim (VStr "Hi")
           "push" 3 1%positive "topBar" ["title"; "text"] state_nested_text).
  - discriminate.
  - reflexivity.
  - reflexivity.
  - reflexivity.
  - exists 2%positive. split; [reflexivity|]. exists 3%positive. split; reflexivity.
  - repeat constructor.
  - intros i Hi. destruct i as [|[|i]]; [reflexivity | reflexivity | simpl in Hi; lia].
  - reflexivity.
  - simpl. lia.
Defined.

(** X2: paths do not identify nodes, and the registry cannot tell the
    nodes apart.  A processor registered for the path [a.b] is applied
    to the key [b] nested under [a], and just as well to a root key
    whose name is [a.b].  A root key with the empty name has a falsy
    path and so leaves no trace in the paths below it: a processor
    registered for the root path [k] is applied to the key [k] nested
    under the empty name. *)
Theorem processOptions_registry_path_collisions (C C' : Collaborators)
    (f : value -> CommandName -> value) (v : value) (cmd : CommandName) (fuel : nat)
    (a b k : string) (lo1 lo2 lo3 : loc) (s1 s2 s3 : State) :
  truthy v = true -> isObject v = false -> isObject (f v cmd) = false ->
  a <> "" -> k <> "" -> 1 < fuel ->
  Forall (fun n => plain_name n = true) [a; b; (a ++ "." ++ b)%string; k] ->
  getProcessors C (VStr a) = None ->
  getProcessors C (VStr (a ++ "." ++ b)%string) = Some [pure_processor f] ->
  getProcessors C' (VStr "") = None ->
  getProcessors C' (VStr k) = Some [pure_processor f] ->
  nested (heap s1) lo1 a [b] v ->
  nested (heap s2) lo2 (a ++ "." ++ b)%string [] v ->
  nested (heap s3) lo3 "" [k] v ->
  walks_yield C fuel cmd s1 lo1 a [b] (f v cmd)
  /\ walks_yield C fuel cmd s2 lo2 (a ++ "." ++ b)%string [] (f v cmd)
  /\ walks_yield C' fuel cmd s3 lo3 "" [k] (f v cmd).
Proof.
  intros Hv Hprim Hr Ha Hk Hfuel Hnames Hnone Hsome Hnone' Hsome' Hn1 Hn2 Hn3.
  apply Forall_cons in Hnames as [Hpa Hnames]. apply Forall_cons in Hnames as [Hpb Hnames].
  apply Forall_cons in Hnames as [Hpab Hnames]. apply Forall_cons in Hnames as [Hpk _].
  assert (Hab : (a ++ "." ++ b)%string <> "") by (by destruct a).
  split; [|split].
  - apply (walks_yield_chain C f v cmd fuel lo1 a [b] s1 Hv Hprim Hr Hn1).
    + by repeat constructor.
    + intros i Hi. assert (i = 0) as -> by (simpl in Hi; lia). exact Hnone.
    + rewrite fmap_cons, path_of_keys_named by done. exact Hsome.
    + simpl. lia.
  - apply (walks_yield_chain C f v cmd fuel lo2 (a ++ "." ++ b)%string [] s2 Hv Hprim Hr Hn2).
    + by repeat constructor.
    + intros i Hi. simpl in Hi. lia.
    + exact Hsome.
    + simpl. lia.
  - apply (walks_yield_chain C' f v cmd fuel lo3 "" [k] s3 Hv Hprim Hr Hn3).
    + by repeat constructor.
    + intros i Hi. assert (i = 0) as -> by (simpl in Hi; lia). exact Hnone'.
    + exact Hsome'.
    + simpl. lia.
Qed.

Lemma processOptions_registry_path_collisions_witness :
  walks_yield (withProcessors "topBar.title" [pure_processor exclaim]) 2 "push"
    state_nested_title 1%positive "topBar" ["title"] (VStr "Hi!")
  /\ walks_yield (withProcessors "topBar.title" [pure_processor exclaim]) 2 "push"
       state_dotted_name 1%positive "topBar.title" [] (VStr "Hi!")
  /\ walks_yield (withProcessors "title" [pure_processor exclaim]) 2 "push"
       state_empty_name 1%positive "" ["title"] (VStr "Hi!").
Proof.
  apply (processOptions_registry_path_collisions
           (withProcessors "topBar.title" [pure_processor exclaim])
           (withProcessors "title" [pure_processor exclaim])
           exclaim (VStr "Hi") "push" 2 "topBar" "title" "title" 1%positive 1%positive 1%positive
           state_nested_title state_dotted_name state_empty_name).
  - reflexivity.
  - reflexivity.
  - reflexivity.
  - discriminate.
  - discriminate.
  - lia.
  - repeat constructor.
  - reflexivity.
  - reflexivity.
  - reflexivity.
  - reflexivity.
  - exists 2%positive. split; reflexivity.
  - reflexivity.
  - exists 2%positive. split; reflexivity.
Defined.
